(** * qsfs-fuse: the bounded LRU data cache (src/data/Cache.cpp)

    A shallow embedding of [QS::Data::Cache] and of the collaborators it
    calls ([File], [Page], [DirectoryTree]/[Node], the scratch-disk helpers),
    followed by the properties of the cache stated in the design document.

    Conventions.
    - [size_t], [uint64_t] and [off_t] values are [Z]; every arithmetic
      operation the cache performs on them is written with its 64-bit
      wrap-around ([wrap]).
    - [std::list<pair<string, shared_ptr<File>>>] is a list of [Entry]s; each
      entry carries the identity of its list node ([e_id]), which is what a
      [CacheListIterator] designates and what [m_map] stores.
    - [shared_ptr<File>] may be null: [option File.t].
    - State is passed explicitly: the cache, the scratch disk ([World]) and the
      directory tree go in and come out of every operation that touches them. *)

From Stdlib Require Import ZArith Bool.
From stdpp Require Import gmap strings list fin_maps.

Local Open Scope Z_scope.

(** ** Machine integers *)

Definition wrap (z : Z) : Z := z mod 2 ^ 64.

Definition in_range (z : Z) : Prop := 0 <= z < 2 ^ 64.

(** ** The scratch disk *)

(** Modelled from the spec: base/UtilsWithLog.cpp ([IsSafeDiskSpace],
    [CreateDirectoryIfNotExists]) and the file system below it are not part of
    the sources at hand.  The spec gives the safe-space check as "free bytes >=
    requested size + 16 MiB reserve"; [mkdir_ok] and [disk_io_ok] stand for the
    outcome of creating the scratch directory and of allocating a scratch
    region (ENOSPC aside, e.g. permission). *)
Record World := {
  disk_free : Z;
  mkdir_ok : bool;
  disk_io_ok : bool
}.

Definition disk_reserve : Z := 16 * 1024 * 1024.

Definition IsSafeDiskSpace (w : World) (size : Z) : bool :=
  size + disk_reserve <=? disk_free w.

Definition CreateDirectoryIfNotExists (w : World) : bool := mkdir_ok w.

Definition release_disk (n : Z) (w : World) : World :=
  {| disk_free := disk_free w + n; mkdir_ok := mkdir_ok w;
     disk_io_ok := disk_io_ok w |}.

Definition consume_disk (n : Z) (w : World) : World :=
  {| disk_free := disk_free w - n; mkdir_ok := mkdir_ok w;
     disk_io_ok := disk_io_ok w |}.

(** ** Pages *)

Module Page.

(** Modelled from the spec: data/Page.cpp is not part of the sources at hand.
    A page is a contiguous byte range of one file, held in memory or in a
    region of a scratch file; the bytes of a scratch region are kept in the
    page itself. *)
Inductive Body :=
| InMemory (bs : list Byte.byte)
| OnDisk (bs : list Byte.byte).

Record t := { offset : Z; body : Body }.

Definition bytes (p : t) : list Byte.byte :=
  match body p with InMemory bs | OnDisk bs => bs end.

Definition size (p : t) : Z := Z.of_nat (length (bytes p)).

Definition stop (p : t) : Z := offset p + size p.

Definition in_memory (p : t) : bool :=
  match body p with InMemory _ => true | OnDisk _ => false end.

Definition with_bytes (p : t) (bs : list Byte.byte) : t :=
  {| offset := offset p;
     body := match body p with
             | InMemory _ => InMemory bs
             | OnDisk _ => OnDisk bs
             end |}.

Definition make (on_disk : bool) (off : Z) (bs : list Byte.byte) : t :=
  {| offset := off; body := if on_disk then OnDisk bs else InMemory bs |}.

End Page.

(** ** Files *)

Module File.

(** Modelled from the spec: data/File.cpp is not part of the sources at hand.
    The record and the operations below follow the spec's data model and
    section 4.2: [GetSize] is the largest page end (0 when there is no page),
    [GetCachedSize] the bytes of the in-memory pages. *)
Record t := {
  fid : string;
  pages : list Page.t;
  useDiskFile : bool;
  open : bool
}.

Definition make (fileId : string) : t :=
  {| fid := fileId; pages := []; useDiskFile := false; open := false |}.

Definition GetSize (f : t) : Z :=
  foldr (fun p acc => Z.max (Page.stop p) acc) 0 (pages f).

Definition mem_bytes (ps : list Page.t) : Z :=
  foldr (fun p acc => (if Page.in_memory p then Page.size p else 0) + acc) 0 ps.

Definition disk_bytes (ps : list Page.t) : Z :=
  foldr (fun p acc => (if Page.in_memory p then 0 else Page.size p) + acc) 0 ps.

Definition GetCachedSize (f : t) : Z := mem_bytes (pages f).

Definition GetDiskSize (f : t) : Z := disk_bytes (pages f).

Definition IsOpen (f : t) : bool := open f.

Definition SetOpen (o : bool) (f : t) : t :=
  {| fid := fid f; pages := pages f; useDiskFile := useDiskFile f; open := o |}.

Definition SetUseDiskFile (d : bool) (f : t) : t :=
  {| fid := fid f; pages := pages f; useDiskFile := d; open := open f |}.

Definition set_pages (ps : list Page.t) (f : t) : t :=
  {| fid := fid f; pages := ps; useDiskFile := useDiskFile f; open := open f |}.

(** [clear()]: drop all pages and release their scratch regions. *)
Definition Clear (w : World) (f : t) : World * t :=
  (release_disk (GetDiskSize f) w, set_pages [] f).

(** [rename(newFid)]: only the identifier changes. *)
Definition Rename (newId : string) (f : t) : t :=
  {| fid := newId; pages := pages f; useDiskFile := useDiskFile f;
     open := open f |}.

(** The byte of the source buffer that lands at absolute file position [x],
    for a write that starts at [off]. *)
Definition src_at (off : Z) (src : list Byte.byte) (x : Z) : Byte.byte :=
  nth (Z.to_nat (x - off)) src Byte.x00.

Definition src_range (off : Z) (src : list Byte.byte) (lo hi : Z)
  : list Byte.byte :=
  map (fun i => src_at off src (lo + Z.of_nat i)) (seq 0 (Z.to_nat (hi - lo))).

(** Step 2 of the write: overwrite in place the part of page [p] that lies in
    [[lo, hi)]. *)
Definition overwrite (off : Z) (src : list Byte.byte) (lo hi : Z) (p : Page.t)
  : Page.t :=
  Page.with_bytes p
    (imap (fun i b =>
             let x := Page.offset p + Z.of_nat i in
             if (lo <=? x) && (x <? hi) then src_at off src x else b)
          (Page.bytes p)).

(** Steps 1 to 3 of the write over the offset-ordered pages: [cur] is the
    first position of [[off, off+len)] not yet covered, [e] its end.  Pages
    that intersect the range are overwritten in place, every gap gets a new
    page, on disk iff [on_disk]. *)
Fixpoint write_pages (on_disk : bool) (off : Z) (src : list Byte.byte)
    (cur e : Z) (ps : list Page.t) : list Page.t :=
  match ps with
  | [] =>
      if cur <? e then [Page.make on_disk cur (src_range off src cur e)]
      else []
  | p :: rest =>
      if Page.stop p <=? cur then
        p :: write_pages on_disk off src cur e rest
      else if e <=? Page.offset p then
        if cur <? e then
          Page.make on_disk cur (src_range off src cur e) :: p :: rest
        else p :: rest
      else
        let gap :=
          if cur <? Page.offset p then
            [Page.make on_disk cur (src_range off src cur (Page.offset p))]
          else [] in
        gap ++ overwrite off src cur e p
            :: write_pages on_disk off src (Z.min e (Page.stop p)) e rest
  end.

(** [write(off, len, src, open) -> (ok, addedBytes, addedDiskBytes)].  A new
    scratch region that cannot be allocated makes the whole call fail and
    leaves the file as it was.  The [open] argument becomes the open state of
    the file (scenario S2 of the spec opens a file by writing to it). *)
Definition Write (off len : Z) (src : list Byte.byte) (o : bool)
    (w : World) (f : t) : (bool * Z * Z) * World * t :=
  let ps := write_pages (useDiskFile f) off src off (off + len) (pages f) in
  let addedMem := mem_bytes ps - mem_bytes (pages f) in
  let addedDisk := disk_bytes ps - disk_bytes (pages f) in
  if (0 <? addedDisk) && (negb (disk_io_ok w) || (disk_free w <? addedDisk))
  then ((false, 0, 0), w, f)
  else ((true, addedMem, addedDisk), consume_disk addedDisk w,
        SetOpen o (set_pages ps f)).

(** [resizeToSmallerSize(newSize)]: pages entirely past [newSize] are dropped,
    a page straddling it is shortened. *)
Definition truncate_page (newSize : Z) (p : Page.t) : option Page.t :=
  if newSize <=? Page.offset p then None
  else Some (Page.with_bytes p
               (take (Z.to_nat (newSize - Page.offset p)) (Page.bytes p))).

Definition ResizeToSmallerSize (newSize : Z) (f : t) : t :=
  set_pages (omap (truncate_page newSize) (pages f)) f.

End File.

(** ** The directory tree *)

Module Node.

(** Modelled from the spec: data/Node.cpp is not part of the sources at hand.
    Of a node's metadata the cache reads and writes the file size and the
    open state. *)
Record t := { fileSize : Z; fileOpen : bool }.

Definition GetFileSize (n : t) : Z := fileSize n.

Definition SetFileSize (sz : Z) (n : t) : t :=
  {| fileSize := sz; fileOpen := fileOpen n |}.

Definition SetFileOpen (o : bool) (n : t) : t :=
  {| fileSize := fileSize n; fileOpen := o |}.

End Node.

Module DirectoryTree.

(** Modelled from the spec: data/DirectoryTree.cpp is not part of the sources
    at hand.  The cache only looks a node up by its path ([Find]) and updates
    it in place. *)
Abbreviation t := (gmap string Node.t).

Definition Find (fileId : string) (tree : t) : option Node.t := tree !! fileId.

Definition update (fileId : string) (n : Node.t) (tree : t) : t :=
  <[fileId := n]> tree.

End DirectoryTree.

(** ** The cache *)

Module Cache.

(** One node of [m_cache].  [e_id] is the identity of the list node: list
    iterators stay valid across [splice] and across the erasure of other
    nodes, so an iterator is modelled by the identity of the node it
    designates. *)
Record Entry := { e_id : nat; e_key : string; e_file : option File.t }.

Record t := {
  m_size : Z;
  m_capacity : Z;
  m_cache : list Entry;
  m_map : gmap string nat;
  m_next : nat     (* identity given to the next list node allocated *)
}.

Definition init (capacity : Z) : t :=
  {| m_size := 0; m_capacity := capacity; m_cache := []; m_map := ∅;
     m_next := 0%nat |}.

Definition set_size (sz : Z) (c : t) : t :=
  {| m_size := sz; m_capacity := m_capacity c; m_cache := m_cache c;
     m_map := m_map c; m_next := m_next c |}.

Definition set_cache (l : list Entry) (c : t) : t :=
  {| m_size := m_size c; m_capacity := m_capacity c; m_cache := l;
     m_map := m_map c; m_next := m_next c |}.

Definition set_map (m : gmap string nat) (c : t) : t :=
  {| m_size := m_size c; m_capacity := m_capacity c; m_cache := m_cache c;
     m_map := m; m_next := m_next c |}.

(** *** List primitives, by iterator *)

Definition node_at (pos : nat) (l : list Entry) : option Entry :=
  List.find (fun e => Nat.eqb (e_id e) pos) l.

(** [list::erase(pos)]; the nodes of a list are pairwise distinct, so at most
    one entry goes. *)
Definition unlink (pos : nat) (l : list Entry) : list Entry :=
  filter (fun e => e_id e ≠ pos) l.

(** The iterator [list::erase(pos)] returns: the node after [pos]
    ([None] is [end()]). *)
Fixpoint next_of (pos : nat) (l : list Entry) : option nat :=
  match l with
  | [] => None
  | e :: rest =>
      if Nat.eqb (e_id e) pos then e_id <$> head rest else next_of pos rest
  end.

(** [list::splice(begin(), list, pos)] *)
Definition splice_front (pos : nat) (l : list Entry) : list Entry :=
  match node_at pos l with
  | Some e => e :: unlink pos l
  | None => l
  end.

Definition map_node (pos : nat) (g : Entry -> Entry) (l : list Entry)
  : list Entry :=
  map (fun e => if Nat.eqb (e_id e) pos then g e else e) l.

(** [pos->first = k] *)
Definition set_key (pos : nat) (k : string) (l : list Entry) : list Entry :=
  map_node pos
    (fun e => {| e_id := e_id e; e_key := k; e_file := e_file e |}) l.

(** A [File] method that mutates the object held by node [pos]
    ([pos->second->...]).  The source dereferences the pointer without a
    check; here a null pointer is left as it is. *)
Definition update_file (pos : nat) (g : File.t -> File.t) (l : list Entry)
  : list Entry :=
  map_node pos
    (fun e => {| e_id := e_id e; e_key := e_key e; e_file := g <$> e_file e |})
    l.

(** [pos->second] *)
Definition file_at (pos : nat) (c : t) : option File.t :=
  node_at pos (m_cache c) ≫= e_file.

(** *** Queries *)

Definition GetSize (c : t) : Z := m_size c.

Definition GetCapacity (c : t) : Z := m_capacity c.

Definition HasFreeSpace (c : t) (size : Z) : bool :=
  wrap (GetSize c + size) <=? GetCapacity c.

Definition IsLastFileOpen (c : t) : bool :=
  match last (m_cache c) with
  | None => false
  | Some e => from_option File.IsOpen false (e_file e)
  end.

Definition HasFile (c : t) (filePath : string) : bool :=
  bool_decide (is_Some (m_map c !! filePath)).

Definition GetNumFile (c : t) : nat := size (m_map c).

Definition GetFileSize (c : t) (filePath : string) : Z :=
  match m_map c !! filePath with
  | Some pos => from_option File.GetSize 0 (file_at pos c)
  | None => 0  (* file is not in cache, return 0 *)
  end.

(** *** LRU maintenance *)

(** Returns [m_cache.begin()], which after the splice is the node [pos]. *)
Definition UnguardedMakeFileMostRecentlyUsed (pos : nat) (c : t) : nat * t :=
  (pos, set_cache (splice_front pos (m_cache c)) c).

(** [None] is [m_cache.end()]. *)
Definition UnguardedNewEmptyFile (fileId : string) (c : t) : option nat * t :=
  let pos := m_next c in
  let c1 :=
    {| m_size := m_size c; m_capacity := m_capacity c;
       m_cache := {| e_id := pos; e_key := fileId;
                     e_file := Some (File.make fileId) |} :: m_cache c;
       m_map := m_map c; m_next := S pos |} in
  match head (m_cache c1) with
  | Some b =>
      if decide (e_key b = fileId) then
        (* m_map.emplace(fileId, m_cache.begin()) *)
        match m_map c1 !! fileId with
        | None => (Some (e_id b), set_map (<[fileId := e_id b]> (m_map c1)) c1)
        | Some _ => (None, c1)
        end
      else (None, c1)
  | None => (None, c1)
  end.

Definition FindFile (filePath : string) (c : t) : option File.t * t :=
  match m_map c !! filePath with
  | Some it =>
      let '(pos, c') := UnguardedMakeFileMostRecentlyUsed it c in
      (file_at pos c', c')
  | None => (None, c)
  end.

Definition MakeFile (fileId : string) (c : t) : option File.t * t :=
  let '(pos, c') := UnguardedNewEmptyFile fileId c in
  match pos with
  | Some p => (file_at p c', c')
  | None => (None, c')
  end.

(** *** Eviction *)

(** [file->Clear()] on a possibly null pointer held by a node about to be
    unlinked: only the release of the scratch regions is observable. *)
Definition clear_file (o : option File.t) (w : World) : World :=
  match o with
  | Some f => fst (File.Clear w f)
  | None => w
  end.

(** The body of the [if] branch of the eviction loops. *)
Definition evict (e : Entry) (f : File.t) (w : World) (c : t) : World * t :=
  let fileCacheSz := File.GetCachedSize f in
  (fst (File.Clear w f),
   {| m_size := wrap (m_size c - fileCacheSz); m_capacity := m_capacity c;
      m_cache := unlink (e_id e) (m_cache c);
      m_map := delete (e_key e) (m_map c); m_next := m_next c |}).

(** The removal of a null-File entry. *)
Definition drop_null (e : Entry) (c : t) : t :=
  set_map (delete (e_key e) (m_map c)) (set_cache (unlink (e_id e) (m_cache c)) c).

(** The [while] loop shared, word for word, by [Free] and
    [FreeDiskCacheFiles]: [its] is what the reverse iterator still has to
    visit (least recently used first), [enough] the test that ends the loop.
    This is the loop with the iterator re-seated after an erase: after
    [m_cache.erase((++it).base())] it goes on with the predecessor of the
    erased node.  The source does not re-seat the iterator (the base it
    holds at that point is the erased node): the loop as written is
    [Exact.evict_loop] below, which returns what this one returns whenever it
    returns at all.  This one passes through every state the source's loop
    passes through and serves for what holds at each step.  The counters
    [freedSpace] and [freedDiskSpace] only feed log messages. *)
Fixpoint evict_loop (enough : World -> t -> bool) (fileUnfreeable : string)
    (its : list Entry) (w : World) (c : t) : World * t :=
  match its with
  | [] => (w, c)
  | e :: rest =>
      if enough w c then (w, c)
      else
        match e_file e with
        | Some f =>
            if bool_decide (e_key e ≠ fileUnfreeable) && negb (File.IsOpen f)
            then
              let '(w', c') := evict e f w c in
              evict_loop enough fileUnfreeable rest w' c'
            else evict_loop enough fileUnfreeable rest w c
        | None => evict_loop enough fileUnfreeable rest w (drop_null e c)
        end
  end.

Definition Free (size : Z) (fileUnfreeable : string) (w : World) (c : t)
  : bool * World * t :=
  if GetCapacity c <? size then (false, w, c)
  else if HasFreeSpace c size then (true, w, c)
  else
    let '(w', c') :=
      evict_loop (fun _ c => HasFreeSpace c size) fileUnfreeable
        (rev (m_cache c)) w c in
    (HasFreeSpace c' size, w', c').

Definition FreeDiskCacheFiles (size : Z) (fileUnfreeable : string)
    (w : World) (c : t) : bool * World * t :=
  if IsSafeDiskSpace w size then (true, w, c)
  else
    let '(w', c') :=
      evict_loop (fun w _ => IsSafeDiskSpace w size) fileUnfreeable
        (rev (m_cache c)) w c in
    (IsSafeDiskSpace w' size, w', c').

(** [pos] is the map iterator [(fileId, cachePos)]. *)
Definition UnguardedErase (fileId : string) (cachePos : nat) (w : World)
    (c : t) : option nat * World * t :=
  let file := file_at cachePos c in
  (next_of cachePos (m_cache c),
   clear_file file w,
   {| m_size := wrap (m_size c - from_option File.GetCachedSize 0 file);
      m_capacity := m_capacity c;
      m_cache := unlink cachePos (m_cache c);
      m_map := delete fileId (m_map c); m_next := m_next c |}).

Definition Erase (fileId : string) (w : World) (c : t)
  : option nat * World * t :=
  match m_map c !! fileId with
  | Some pos => UnguardedErase fileId pos w c
  | None => (None, w, c)
  end.

(** *** Writing *)

(** The tail of [PrepareWrite], from [CacheListIterator pos] on: locate or
    create the target node and set its file's [useDiskFile]. *)
Definition place (fileId : string) (availableFreeSpace : bool) (c : t)
  : option nat * t :=
  let '(pos, c') :=
    match m_map c !! fileId with
    | Some it =>
        let '(p, c') := UnguardedMakeFileMostRecentlyUsed it c in (Some p, c')
    | None => UnguardedNewEmptyFile fileId c
    end in
  match pos with
  | Some p =>
      (pos,
       set_cache
         (update_file p (File.SetUseDiskFile (negb availableFreeSpace))
            (m_cache c')) c')
  | None => (None, c')
  end.

(** The [shared_ptr<File>] of the result is shared with the list node: the
    result names that node ([None] is the null pointer). *)
Definition PrepareWrite (fileId : string) (len : Z) (w : World) (c : t)
  : (bool * option nat) * World * t :=
  if HasFreeSpace c len then
    let '(pos, c') := place fileId true c in ((true, pos), w, c')
  else
    let '(availableFreeSpace, w1, c1) := Free len fileId w c in
    if availableFreeSpace then
      let '(pos, c') := place fileId true c1 in ((true, pos), w1, c')
    else if negb (CreateDirectoryIfNotExists w1) then ((false, None), w1, c1)
    else if IsSafeDiskSpace w1 len then
      let '(pos, c') := place fileId false c1 in ((true, pos), w1, c')
    else
      let '(ok, w2, c2) := FreeDiskCacheFiles len fileId w1 c1 in
      if ok then
        let '(pos, c') := place fileId false c2 in ((true, pos), w2, c')
      else ((false, None), w2, c2).

(** "update file size in meta data" *)
Definition update_meta (fileId : string) (offset len : Z) (o : bool)
    (dirTree : option DirectoryTree.t) : option DirectoryTree.t :=
  match dirTree with
  | Some tree =>
      match DirectoryTree.Find fileId tree with
      | Some node =>
          let oldFileSize := Node.GetFileSize node in
          let node1 :=
            if oldFileSize <? wrap (offset + len)
            then Node.SetFileSize (wrap (offset + len)) node
            else node in
          Some (DirectoryTree.update fileId (Node.SetFileOpen o node1) tree)
      | None => dirTree
      end
  | None => None
  end.

(** What both overloads of [Write] do once the input has been validated.
    [file->Write] on a null pointer is undefined in the source; here it
    fails. *)
Definition write_valid (fileId : string) (offset len : Z)
    (src : list Byte.byte) (dirTree : option DirectoryTree.t) (o : bool)
    (w : World) (c : t) : bool * World * t * option DirectoryTree.t :=
  let '((success, res), w1, c1) := PrepareWrite fileId len w c in
  if success then
    match res with
    | Some pos =>
        match file_at pos c1 with
        | Some file =>
            let '((ok, added, _), w2, file') :=
              File.Write offset len src o w1 file in
            let c2 := set_cache (update_file pos (fun _ => file') (m_cache c1)) c1 in
            if ok then
              (true, w2, set_size (wrap (m_size c2 + added)) c2,
               update_meta fileId offset len o dirTree)
            else (false, w2, c2, dirTree)
        | None => (false, w1, c1, dirTree)
        end
    | None => (false, w1, c1, dirTree)
    end
  else (false, w1, c1, dirTree).

(** The zero-length case of both overloads. *)
Definition touch (fileId : string) (c : t) : t :=
  match m_map c !! fileId with
  | Some it => snd (UnguardedMakeFileMostRecentlyUsed it c)
  | None => snd (UnguardedNewEmptyFile fileId c)
  end.

(** [Write(fileId, offset, len, buffer, dirTree, open)]; [buffer = None] is
    the null pointer, [dirTree = None] the null tree. *)
Definition Write (fileId : string) (offset len : Z)
    (buffer : option (list Byte.byte)) (dirTree : option DirectoryTree.t)
    (o : bool) (w : World) (c : t)
  : bool * World * t * option DirectoryTree.t :=
  if len =? 0 then (true, w, touch fileId c, dirTree)
  else
    match buffer with
    | Some src =>
        if bool_decide (fileId ≠ EmptyString) && (0 <=? offset) && (0 <=? len)
        then write_valid fileId offset len src dirTree o w c
        else (false, w, c, dirTree)
    | None => (false, w, c, dirTree)
    end.

(** The overload that takes a stream; [GetStreamSize] is the length of the
    stream's content. *)
Definition WriteStream (fileId : string) (offset len : Z)
    (stream : option (list Byte.byte)) (dirTree : option DirectoryTree.t)
    (o : bool) (w : World) (c : t)
  : bool * World * t * option DirectoryTree.t :=
  if len =? 0 then (true, w, touch fileId c, dirTree)
  else
    match stream with
    | Some src =>
        if bool_decide (fileId ≠ EmptyString) && (0 <=? offset) then
          if len <=? Z.of_nat (length src)
          then write_valid fileId offset len src dirTree o w c
          else (false, w, c, dirTree)
        else (false, w, c, dirTree)
    | None => (false, w, c, dirTree)
    end.

(** *** Rename, open state, resize *)

Definition Rename (oldFileId newFileId : string) (w : World) (c : t)
  : World * t :=
  if decide (oldFileId = newFileId) then (w, c)
  else
    let '(w1, c1) :=
      match m_map c !! newFileId with
      | Some pos => let '(_, w1, c1) := UnguardedErase newFileId pos w c in (w1, c1)
      | None => (w, c)
      end in
    match m_map c1 !! oldFileId with
    | Some it =>
        let c2 := set_cache (set_key it newFileId (m_cache c1)) c1 in
        let '(pos, c3) := UnguardedMakeFileMostRecentlyUsed it c2 in
        let c4 :=
          set_cache (update_file pos (File.Rename newFileId) (m_cache c3)) c3 in
        (* m_map.emplace(newFileId, pos) inserts only when the key is free *)
        let m1 :=
          match m_map c4 !! newFileId with
          | None => <[newFileId := pos]> (m_map c4)
          | Some _ => m_map c4
          end in
        (w1, set_map (delete oldFileId m1) c4)
    | None => (w1, c1)
    end.

Definition SetFileOpen (fileId : string) (o : bool)
    (dirTree : option DirectoryTree.t) (c : t) : t * option DirectoryTree.t :=
  let c' :=
    match m_map c !! fileId with
    | Some pos => set_cache (update_file pos (File.SetOpen o) (m_cache c)) c
    | None => c
    end in
  (c',
   match dirTree with
   | Some tree =>
       match DirectoryTree.Find fileId tree with
       | Some node =>
           Some (DirectoryTree.update fileId (Node.SetFileOpen o node) tree)
       | None => dirTree
       end
   | None => None
   end).

(** [size_t] to [off_t]. *)
Definition to_off_t (z : Z) : Z := if z <? 2 ^ 63 then z else z - 2 ^ 64.

(** [file] is a reference to the pointer held by the list node [pos]; it is
    read again through that node after the nested [Write].  The source
    dereferences it without a null check; here a null pointer ends the
    call. *)
Definition Resize (fileId : string) (newFileSize : Z)
    (dirTree : option DirectoryTree.t) (w : World) (c : t)
  : World * t * option DirectoryTree.t :=
  let '(opos, c0) :=
    match m_map c !! fileId with
    | Some pos => (Some pos, c)
    | None => UnguardedNewEmptyFile fileId c
    end in
  match opos with
  | None => (w, c0, dirTree)
  | Some pos =>
  match file_at pos c0 with
  | None => (w, c0, dirTree)
  | Some file =>
      let oldFileSize := File.GetSize file in
      let oldFileCacheSize := File.GetCachedSize file in
      if newFileSize =? oldFileSize then (w, c0, dirTree)
      else
        let '(w1, c1, tree1) :=
          if oldFileSize <? newFileSize then
            let holeSize := wrap (newFileSize - oldFileSize) in
            let hole := repeat Byte.x00 (Z.to_nat holeSize) in
            let fileOpen := File.IsOpen file in
            let '(_, w1, c1, tree1) :=
              Write fileId (to_off_t oldFileSize) holeSize (Some hole) dirTree
                fileOpen w c0 in
            (w1, c1, tree1)
          else
            (w,
             set_cache
               (update_file pos (File.ResizeToSmallerSize newFileSize)
                  (m_cache c0)) c0,
             dirTree) in
        match file_at pos c1 with
        | None => (w1, c1, tree1)
        | Some file' =>
            let c2 :=
              set_size
                (wrap (m_size c1
                       + wrap (File.GetCachedSize file' - oldFileCacheSize)))
                c1 in
            if File.GetSize file' =? newFileSize then
              (w1, c2,
               match tree1 with
               | Some tree =>
                   match DirectoryTree.Find fileId tree with
                   | Some node =>
                       Some (DirectoryTree.update fileId
                               (Node.SetFileSize newFileSize node) tree)
                   | None => tree1
                   end
               | None => None
               end)
            else (w1, c2, tree1)
        end
  end
  end.

End Cache.

(** * Vocabulary of the properties *)

Import Cache.

(** The node identities of a list, in order. *)
Definition ids (l : list Entry) : list nat := e_id <$> l.

(** In-memory bytes of the file held by an entry (none behind a null
    pointer). *)
Definition cached (e : Entry) : Z :=
  from_option File.GetCachedSize 0 (e_file e).

Definition sum_cached (l : list Entry) : Z :=
  foldr (fun e acc => cached e + acc) 0 l.

(** Invariant 1 of the design document. *)
Definition size_ok (c : Cache.t) : Prop := m_size c = sum_cached (m_cache c).

(** No iterator stored in the index dangles: list nodes are pairwise distinct
    and every index entry designates a node of the list that carries the same
    key. *)
Definition iterators_valid (c : Cache.t) : Prop :=
  NoDup (ids (m_cache c)) ∧
  map_Forall
    (fun k pos => Exists (fun e => e_id e = pos ∧ e_key e = k) (m_cache c))
    (m_map c).

(** Invariant 4 of the design document: index and order agree, both ways. *)
Definition index_agrees (c : Cache.t) : Prop :=
  iterators_valid c ∧
  Forall (fun e => m_map c !! e_key e = Some (e_id e)) (m_cache c).

#[global] Instance iterators_valid_dec c : Decision (iterators_valid c).
Proof. unfold iterators_valid. apply _. Defined.

#[global] Instance index_agrees_dec c : Decision (index_agrees c).
Proof. unfold index_agrees. apply _. Defined.

#[global] Instance size_ok_dec c : Decision (size_ok c).
Proof. unfold size_ok. apply _. Defined.

(** Node identities are handed out in increasing order: every node of the
    list is older than the next one to be allocated. *)
Definition fresh_ok (c : Cache.t) : Prop :=
  Forall (fun e => (e_id e < m_next c)%nat) (m_cache c).

#[global] Instance fresh_ok_dec c : Decision (fresh_ok c).
Proof. unfold fresh_ok. apply _. Defined.

(** What holds of the list and the index in every state the operations can
    reach (see [reachable_wf]). *)
Definition wf (c : Cache.t) : Prop := iterators_valid c ∧ fresh_ok c.

#[global] Instance wf_dec c : Decision (wf c).
Proof. unfold wf. apply _. Defined.

(** Invariant 1 together with the fact that the cached bytes fit a
    [size_t]. *)
Definition sized (c : Cache.t) : Prop :=
  size_ok c ∧ sum_cached (m_cache c) < 2 ^ 64.

(** Every entry holds a [File]: the null pointers that the eviction loops
    guard against are never stored (see [reachable_no_null]). *)
Definition no_null (c : Cache.t) : Prop :=
  Forall (fun e => is_Some (e_file e)) (m_cache c).

#[global] Instance no_null_dec c : Decision (no_null c).
Proof. unfold no_null. apply _. Defined.

(** The pages held under a file identifier, found through the index. *)
Definition content (c : Cache.t) (fileId : string) : option (list Page.t) :=
  pos ← m_map c !! fileId; f ← file_at pos c; Some (File.pages f).

(** What the eviction loops do with an entry they visit. *)
Definition evictable (fileUnfreeable : string) (e : Entry) : Prop :=
  ∃ f, e_file e = Some f ∧ e_key e ≠ fileUnfreeable ∧ File.IsOpen f = false.

Definition removable (fileUnfreeable : string) (e : Entry) : Prop :=
  e_file e = None ∨ evictable fileUnfreeable e.

Definition kept (fileUnfreeable : string) (e : Entry) : Prop :=
  ¬ removable fileUnfreeable e.

#[global] Instance evictable_dec u e : Decision (evictable u e).
Proof.
  unfold evictable. destruct (e_file e) as [f|].
  - destruct (decide (e_key e ≠ u)) as [Hk|Hk].
    + destruct (File.IsOpen f) eqn:Ho.
      * right. intros (g & Hg & _ & Hc). congruence.
      * left. eauto.
    + right. intros (g & _ & Hc & _). done.
  - right. intros (g & Hg & _). done.
Defined.

#[global] Instance removable_dec u e : Decision (removable u e).
Proof. unfold removable. apply _. Defined.

#[global] Instance kept_dec u e : Decision (kept u e).
Proof. unfold kept. apply _. Defined.


(** The two outcomes the write path distinguishes: memory is available for
    [len] more bytes, at once or after [Free]; failing that, the scratch
    directory can be created and has room, at once or after
    [FreeDiskCacheFiles]. *)
Definition memory_ok (fileId : string) (len : Z) (w : World) (c : Cache.t)
  : bool :=
  HasFreeSpace c len || (Free len fileId w c).1.1.

Definition disk_path_ok (fileId : string) (len : Z) (w : World) (c : Cache.t)
  : bool :=
  let '(_, w1, c1) := Free len fileId w c in
  CreateDirectoryIfNotExists w1 &&
  (IsSafeDiskSpace w1 len || (FreeDiskCacheFiles len fileId w1 c1).1.1).

(** * Operations as data *)

(** The public operations of the cache that change its state, with their
    arguments. *)
Inductive Op :=
| OpMakeFile (fileId : string)
| OpFindFile (filePath : string)
| OpWrite (fileId : string) (offset len : Z)
    (buffer : option (list Byte.byte)) (dirTree : option DirectoryTree.t)
    (o : bool)
| OpWriteStream (fileId : string) (offset len : Z)
    (stream : option (list Byte.byte)) (dirTree : option DirectoryTree.t)
    (o : bool)
| OpResize (fileId : string) (newFileSize : Z)
    (dirTree : option DirectoryTree.t)
| OpFree (size : Z) (fileUnfreeable : string)
| OpFreeDiskCacheFiles (size : Z) (fileUnfreeable : string)
| OpErase (fileId : string)
| OpRename (oldFileId newFileId : string)
| OpSetFileOpen (fileId : string) (o : bool)
    (dirTree : option DirectoryTree.t).

Definition run (op : Op) (s : World * Cache.t) : World * Cache.t :=
  match op with
  | OpMakeFile fileId => (s.1, (MakeFile fileId s.2).2)
  | OpFindFile filePath => (s.1, (FindFile filePath s.2).2)
  | OpWrite fileId offset len buffer dirTree o =>
      let r := Write fileId offset len buffer dirTree o s.1 s.2 in
      (r.1.1.2, r.1.2)
  | OpWriteStream fileId offset len stream dirTree o =>
      let r := WriteStream fileId offset len stream dirTree o s.1 s.2 in
      (r.1.1.2, r.1.2)
  | OpResize fileId newFileSize dirTree =>
      (Resize fileId newFileSize dirTree s.1 s.2).1
  | OpFree size fileUnfreeable => 
      let r := Free size fileUnfreeable s.1 s.2 in (r.1.2, r.2)
  | OpFreeDiskCacheFiles size fileUnfreeable =>
      let r := FreeDiskCacheFiles size fileUnfreeable s.1 s.2 in (r.1.2, r.2)
  | OpErase fileId => let r := Erase fileId s.1 s.2 in (r.1.2, r.2)
  | OpRename oldFileId newFileId => Rename oldFileId newFileId s.1 s.2
  | OpSetFileOpen fileId o dirTree => (s.1, (SetFileOpen fileId o dirTree s.2).1)
  end.

(** The states reached from an empty cache; between two operations the
    scratch disk may change in any way. *)
Inductive reachable : World * Cache.t → Prop :=
| reach_init w capacity : reachable (w, init capacity)
| reach_env w w' c : reachable (w, c) → reachable (w', c)
| reach_step op s : reachable s → reachable (run op s).

(** [Resize] to more than the current size of the file. *)
Definition grows (op : Op) (c : Cache.t) : Prop :=
  match op with
  | OpResize fileId newFileSize _ => GetFileSize c fileId < newFileSize
  | _ => False
  end.

(** [MakeFile] on an identifier that is already indexed. *)
Definition remakes (op : Op) (c : Cache.t) : Prop :=
  match op with
  | OpMakeFile fileId => HasFile c fileId = true
  | _ => False
  end.

(** * Sample states *)

Definition w_ok : World :=
  {| disk_free := 64 * 1024 * 1024; mkdir_ok := true; disk_io_ok := true |}.

Definition w_noio : World :=
  {| disk_free := 64 * 1024 * 1024; mkdir_ok := true; disk_io_ok := false |}.

Definition w_full : World :=
  {| disk_free := 0; mkdir_ok := true; disk_io_ok := true |}.

Definition payload (n : nat) : list Byte.byte := repeat Byte.x41 n.

(** [Write] of [n] bytes at [off], without a directory tree. *)
Definition written (fileId : string) (off : Z) (n : nat) (o : bool)
    (s : World * Cache.t) : World * Cache.t :=
  let '(_, w, c, _) :=
    Write fileId off (Z.of_nat n) (Some (payload n)) None o s.1 s.2 in
  (w, c).

(** [SetFileOpen(fileId, true, null)]. *)
Definition opened (fileId : string) (s : World * Cache.t) : World * Cache.t :=
  (s.1, (SetFileOpen fileId true None s.2).1).

(** One closed file of four bytes, capacity sixteen. *)
Definition one_file : Cache.t := (written "a" 0 4 false (w_ok, init 16)).2.

(** An open file (least recently used) and a closed one, four bytes each,
    in a full cache of capacity eight. *)
Definition open_and_closed : Cache.t :=
  (written "F2" 0 4 false
     (opened "F1" (written "F1" 0 4 true (w_ok, init 8)))).2.

(** The same two files with the open one most recently used. *)
Definition open_in_front : Cache.t :=
  (opened "F1"
     (written "F1" 0 4 true (written "F2" 0 4 false (w_ok, init 8)))).2.

(** Two closed files of four bytes each, capacity sixteen. *)
Definition two_files : Cache.t :=
  (written "F2" 0 4 false (written "F1" 0 4 false (w_ok, init 16))).2.

(** A single open file that fills a cache of capacity four. *)
Definition only_open : Cache.t :=
  (opened "F1" (written "F1" 0 4 true (w_ok, init 4))).2.

(** A directory tree that knows "F3" as an open file of one byte. *)
Definition sample_tree : gmap string Node.t :=
  {[ "F3"%string := {| Node.fileSize := 1; Node.fileOpen := true |} ]}.


(** A cache holding "a" (four bytes, closed) that was the target of
    [MakeFile] twice. *)
Definition made_twice : World * Cache.t :=
  run (OpMakeFile "a") (run (OpMakeFile "a") (w_ok, init 16)).

(** A scratch disk one byte above the reserve, on which no region can be
    allocated. *)
Definition w_tight : World :=
  {| disk_free := disk_reserve + 1; mkdir_ok := true; disk_io_ok := false |}.

(** One closed file with four bytes in memory and four on the scratch disk,
    in a full cache of capacity four. *)
Definition mem_and_disk : Cache.t :=
  (written "F1" 4 4 false (written "F1" 0 4 false (w_ok, init 4))).2.

(** Capacity eight, all files closed: "F3" (four bytes in memory, most
    recently used), "F2" (nine bytes on the scratch disk) and "F1" (four
    bytes in memory, least recently used). *)
Definition disk_between : Cache.t :=
  (written "F3" 0 4 false
     (w_ok,
      (FindFile "F2"
         (written "F1" 0 4 false (written "F2" 0 9 false (w_ok, init 8))).2).2)).2.

(** The same with "F1" open. *)
Definition disk_between_open : Cache.t :=
  (SetFileOpen "F1" true None disk_between).1.

(** * Sequences of operations *)

(** The operations of a list, applied from left to right. *)
Definition run_all (ops : list Op) (s : World * Cache.t) : World * Cache.t :=
  foldl (fun s op => run op s) s ops.

(** No operation of the sequence is a growing [Resize], and the cached bytes
    fit a [size_t] after each of them. *)
Fixpoint never_grows (ops : list Op) (s : World * Cache.t) : Prop :=
  match ops with
  | [] => True
  | op :: rest =>
      ¬ grows op s.2 ∧ sum_cached (m_cache (run op s).2) < 2 ^ 64 ∧
      never_grows rest (run op s)
  end.

(** No operation of the sequence is a [MakeFile] on an identifier indexed at
    that point. *)
Fixpoint never_remakes (ops : list Op) (s : World * Cache.t) : Prop :=
  match ops with
  | [] => True
  | op :: rest => ¬ remakes op s.2 ∧ never_remakes rest (run op s)
  end.

(** A run on a cache of capacity eight, every file of four bytes: the third
    write evicts "F2", the least recently used file, and then has room. *)
Definition sample_ops : list Op :=
  [OpWrite "F1" 0 4 (Some (payload 4)) None false;
   OpWrite "F2" 0 4 (Some (payload 4)) None false;
   OpFindFile "F1";
   OpWrite "F3" 0 4 (Some (payload 4)) None false;
   OpRename "F3" "F2"; OpMakeFile "G"; OpErase "F1"].

(** The keys of a list of entries, in order. *)
Definition keys (l : list Entry) : list string := e_key <$> l.

(** The front node of the order is keyed [fileId] and is the node the index
    holds under [fileId]. *)
Definition most_recently_used (fileId : string) (c : Cache.t) : Prop :=
  match m_cache c with
  | e :: _ => e_key e = fileId ∧ m_map c !! fileId = Some (e_id e)
  | [] => False
  end.

(** The entry is the node the index holds under the entry's key. *)
Definition indexed (c : Cache.t) (e : Entry) : Prop :=
  m_map c !! e_key e = Some (e_id e).

(** The entry holds a [File] without pages. *)
Definition blank (e : Entry) : bool :=
  match e_file e with
  | Some f => match File.pages f with [] => true | _ :: _ => false end
  | None => false
  end.

(** The nodes of the list that the index does not hold are the ones a failed
    emplace in [UnguardedNewEmptyFile] left behind: each holds a [File]
    without pages. *)
Definition orphans_blank (c : Cache.t) : Prop :=
  Forall (fun e => indexed c e ∨ blank e = true) (m_cache c).

#[global] Instance orphans_blank_dec c : Decision (orphans_blank c).
Proof. unfold orphans_blank, indexed. apply _. Defined.

#[global] Instance in_range_dec z : Decision (in_range z).
Proof. unfold in_range. apply _. Defined.

(** What holds of the cache in every state the code reaches (see
    [Exact_reachable_sound_state]). *)
Definition sound (c : Cache.t) : Prop :=
  wf c ∧ no_null c ∧ in_range (m_size c) ∧ orphans_blank c.

#[global] Instance sound_dec c : Decision (sound c).
Proof. unfold sound. apply _. Defined.


(** * The operations as the source runs them *)

(** The operations whose outcome depends on how the eviction loops go on
    after an erase, with that loop as it is written.  [None] is a call whose
    behaviour is undefined. *)
Module Exact.

(** What the loop does to an entry it erases: the [if] branch for a [File],
    the inner [if] for a null pointer. *)
Definition erase_entry (e : Entry) (w : World) (c : Cache.t)
  : World * Cache.t :=
  match e_file e with
  | Some f => evict e f w c
  | None => (w, drop_null e c)
  end.

(** The [while] loop of [Free] and [FreeDiskCacheFiles].
    [m_cache.erase((++it).base())] erases the node that is the base of [it]
    once incremented, and [it] is not assigned again.  When the test that
    ends the loop holds after the erase, the loop is left and [it] is not
    used any more.  When it does not, the body runs again and reads
    [it->first] through the erased node: undefined. *)
Fixpoint evict_loop (enough : World -> Cache.t -> bool)
    (fileUnfreeable : string) (its : list Entry) (w : World) (c : Cache.t)
  : option (World * Cache.t) :=
  match its with
  | [] => Some (w, c)
  | e :: rest =>
      if enough w c then Some (w, c)
      else
        match e_file e with
        | Some f =>
            if bool_decide (e_key e ≠ fileUnfreeable) && negb (File.IsOpen f)
            then
              let '(w', c') := evict e f w c in
              if enough w' c' then Some (w', c') else None
            else evict_loop enough fileUnfreeable rest w c
        | None =>
            let c' := drop_null e c in
            if enough w c' then Some (w, c') else None
        end
  end.

(** [Free] and [FreeDiskCacheFiles] around that loop.  Their
    [assert(!m_cache.empty())] is compiled out: on an empty list the loop
    ends at once. *)
Definition Free (size : Z) (fileUnfreeable : string) (w : World)
    (c : Cache.t) : option (bool * World * Cache.t) :=
  if GetCapacity c <? size then Some (false, w, c)
  else if HasFreeSpace c size then Some (true, w, c)
  else
    match
      evict_loop (fun _ c => HasFreeSpace c size) fileUnfreeable
        (rev (m_cache c)) w c
    with
    | Some (w', c') => Some (HasFreeSpace c' size, w', c')
    | None => None
    end.

Definition FreeDiskCacheFiles (size : Z) (fileUnfreeable : string)
    (w : World) (c : Cache.t) : option (bool * World * Cache.t) :=
  if IsSafeDiskSpace w size then Some (true, w, c)
  else
    match
      evict_loop (fun w _ => IsSafeDiskSpace w size) fileUnfreeable
        (rev (m_cache c)) w c
    with
    | Some (w', c') => Some (IsSafeDiskSpace w' size, w', c')
    | None => None
    end.

Definition PrepareWrite (fileId : string) (len : Z) (w : World)
    (c : Cache.t) : option ((bool * option nat) * World * Cache.t) :=
  if HasFreeSpace c len then
    let '(pos, c') := place fileId true c in Some ((true, pos), w, c')
  else
    match Free len fileId w c with
    | None => None
    | Some (availableFreeSpace, w1, c1) =>
        if availableFreeSpace then
          let '(pos, c') := place fileId true c1 in Some ((true, pos), w1, c')
        else if negb (CreateDirectoryIfNotExists w1)
        then Some ((false, None), w1, c1)
        else if IsSafeDiskSpace w1 len then
          let '(pos, c') := place fileId false c1 in
          Some ((true, pos), w1, c')
        else
          match FreeDiskCacheFiles len fileId w1 c1 with
          | None => None
          | Some (ok, w2, c2) =>
              if ok then
                let '(pos, c') := place fileId false c2 in
                Some ((true, pos), w2, c')
              else Some ((false, None), w2, c2)
          end
    end.

(** What both overloads of [Write] do once the input has been validated. *)
Definition write_valid (fileId : string) (offset len : Z)
    (src : list Byte.byte) (dirTree : option DirectoryTree.t) (o : bool)
    (w : World) (c : Cache.t)
  : option (bool * World * Cache.t * option DirectoryTree.t) :=
  match PrepareWrite fileId len w c with
  | None => None
  | Some ((success, res), w1, c1) =>
      Some
        (if success then
           match res with
           | Some pos =>
               match file_at pos c1 with
               | Some file =>
                   let '((ok, added, _), w2, file') :=
                     File.Write offset len src o w1 file in
                   let c2 :=
                     set_cache
                       (update_file pos (fun _ => file') (m_cache c1)) c1 in
                   if ok then
                     (true, w2, set_size (wrap (m_size c2 + added)) c2,
                      update_meta fileId offset len o dirTree)
                   else (false, w2, c2, dirTree)
               | None => (false, w1, c1, dirTree)
               end
           | None => (false, w1, c1, dirTree)
           end
         else (false, w1, c1, dirTree))
  end.

Definition Write (fileId : string) (offset len : Z)
    (buffer : option (list Byte.byte)) (dirTree : option DirectoryTree.t)
    (o : bool) (w : World) (c : Cache.t)
  : option (bool * World * Cache.t * option DirectoryTree.t) :=
  if len =? 0 then Some (true, w, touch fileId c, dirTree)
  else
    match buffer with
    | Some src =>
        if bool_decide (fileId ≠ EmptyString) && (0 <=? offset) && (0 <=? len)
        then write_valid fileId offset len src dirTree o w c
        else Some (false, w, c, dirTree)
    | None => Some (false, w, c, dirTree)
    end.

Definition WriteStream (fileId : string) (offset len : Z)
    (stream : option (list Byte.byte)) (dirTree : option DirectoryTree.t)
    (o : bool) (w : World) (c : Cache.t)
  : option (bool * World * Cache.t * option DirectoryTree.t) :=
  if len =? 0 then Some (true, w, touch fileId c, dirTree)
  else
    match stream with
    | Some src =>
        if bool_decide (fileId ≠ EmptyString) && (0 <=? offset) then
          if len <=? Z.of_nat (length src)
          then write_valid fileId offset len src dirTree o w c
          else Some (false, w, c, dirTree)
        else Some (false, w, c, dirTree)
    | None => Some (false, w, c, dirTree)
    end.

(** The part of [Resize] after the [if]/[else]: the counter and the
    directory tree. *)
Definition resized (fileId : string) (newFileSize : Z) (pos : nat)
    (oldFileCacheSize : Z)
    (r : World * Cache.t * option DirectoryTree.t)
  : World * Cache.t * option DirectoryTree.t :=
  let '(w1, c1, tree1) := r in
  match file_at pos c1 with
  | None => (w1, c1, tree1)
  | Some file' =>
      let c2 :=
        set_size
          (wrap (m_size c1
                 + wrap (File.GetCachedSize file' - oldFileCacheSize)))
          c1 in
      if File.GetSize file' =? newFileSize then
        (w1, c2,
         match tree1 with
         | Some tree =>
             match DirectoryTree.Find fileId tree with
             | Some node =>
                 Some (DirectoryTree.update fileId
                         (Node.SetFileSize newFileSize node) tree)
             | None => tree1
             end
         | None => None
         end)
      else (w1, c2, tree1)
  end.

Definition Resize (fileId : string) (newFileSize : Z)
    (dirTree : option DirectoryTree.t) (w : World) (c : Cache.t)
  : option (World * Cache.t * option DirectoryTree.t) :=
  let '(opos, c0) :=
    match m_map c !! fileId with
    | Some pos => (Some pos, c)
    | None => UnguardedNewEmptyFile fileId c
    end in
  match opos with
  | None => Some (w, c0, dirTree)
  | Some pos =>
  match file_at pos c0 with
  | None => Some (w, c0, dirTree)
  | Some file =>
      let oldFileSize := File.GetSize file in
      let oldFileCacheSize := File.GetCachedSize file in
      if newFileSize =? oldFileSize then Some (w, c0, dirTree)
      else if oldFileSize <? newFileSize then
        let holeSize := wrap (newFileSize - oldFileSize) in
        let hole := repeat Byte.x00 (Z.to_nat holeSize) in
        let fileOpen := File.IsOpen file in
        match
          Write fileId (to_off_t oldFileSize) holeSize (Some hole) dirTree
            fileOpen w c0
        with
        | None => None
        | Some (_, w1, c1, tree1) =>
            Some (resized fileId newFileSize pos oldFileCacheSize
                    (w1, c1, tree1))
        end
      else
        Some (resized fileId newFileSize pos oldFileCacheSize
                (w,
                 set_cache
                   (update_file pos (File.ResizeToSmallerSize newFileSize)
                      (m_cache c0)) c0,
                 dirTree))
  end
  end.

Definition run (op : Op) (s : World * Cache.t) : option (World * Cache.t) :=
  match op with
  | OpWrite fileId offset len buffer dirTree o =>
      r ← Write fileId offset len buffer dirTree o s.1 s.2;
      Some (r.1.1.2, r.1.2)
  | OpWriteStream fileId offset len stream dirTree o =>
      r ← WriteStream fileId offset len stream dirTree o s.1 s.2;
      Some (r.1.1.2, r.1.2)
  | OpResize fileId newFileSize dirTree =>
      r ← Resize fileId newFileSize dirTree s.1 s.2; Some r.1
  | OpFree size fileUnfreeable =>
      r ← Free size fileUnfreeable s.1 s.2; Some (r.1.2, r.2)
  | OpFreeDiskCacheFiles size fileUnfreeable =>
      r ← FreeDiskCacheFiles size fileUnfreeable s.1 s.2; Some (r.1.2, r.2)
  | OpMakeFile fileId => Some (s.1, (MakeFile fileId s.2).2)
  | OpFindFile filePath => Some (s.1, (FindFile filePath s.2).2)
  | OpErase fileId => let r := Erase fileId s.1 s.2 in Some (r.1.2, r.2)
  | OpRename oldFileId newFileId => Some (Rename oldFileId newFileId s.1 s.2)
  | OpSetFileOpen fileId o dirTree =>
      Some (s.1, (SetFileOpen fileId o dirTree s.2).1)
  end.

(** The operations of a list, from left to right, as long as they return. *)
Fixpoint run_all (ops : list Op) (s : World * Cache.t)
  : option (World * Cache.t) :=
  match ops with
  | [] => Some s
  | op :: rest => s' ← run op s; run_all rest s'
  end.

(** The states the code reaches from an empty cache; between two operations
    the scratch disk may change in any way. *)
Inductive reachable : World * Cache.t → Prop :=
| reach_init w capacity : reachable (w, init capacity)
| reach_env w w' c : reachable (w, c) → reachable (w', c)
| reach_step op s s' : reachable s → run op s = Some s' → reachable s'.

End Exact.

(** * [HashUtils.h] *)

Module HashUtils.

(** The value an [int] holds after an arithmetic operation: 32 bits, two's
    complement. *)
Definition to_int (z : Z) : Z := (z + 2 ^ 31) mod 2 ^ 32 - 2 ^ 31.

(** A [char] promoted to [int]; [char] is signed. *)
Definition char_value (a : Ascii.ascii) : Z :=
  let n := Z.of_nat (Ascii.nat_of_ascii a) in
  if n <? 128 then n else n - 256.

(** The [BOOST_FOREACH] loop, entered with [hash]. *)
Fixpoint hash_loop (hash : Z) (s : string) : Z :=
  match s with
  | EmptyString => hash
  | String charValue rest =>
      hash_loop (to_int (char_value charValue + 31 * hash)) rest
  end.

Definition StringHash (strToHash : string) : Z :=
  if bool_decide (strToHash = EmptyString) then 0
  else hash_loop 0 strToHash.

End HashUtils.

(** * Lists addressed by node identity *)

Lemma node_at_Some pos l e : node_at pos l = Some e → e ∈ l ∧ e_id e = pos.
Proof.
  unfold node_at. intros H. apply find_some in H as [Hin Heq].
  split; [by apply list_elem_of_In | by apply Nat.eqb_eq].
Qed.

Lemma node_at_None pos l : node_at pos l = None → pos ∉ ids l.
Proof.
  unfold node_at, ids. intros H Hin.
  apply list_elem_of_fmap in Hin as (e & -> & He).
  apply list_elem_of_In in He.
  pose proof (find_none _ _ H e He) as Hn. simpl in Hn.
  by rewrite Nat.eqb_refl in Hn.
Qed.

Lemma node_at_NoDup l e :
  NoDup (ids l) → e ∈ l → node_at (e_id e) l = Some e.
Proof.
  unfold node_at, ids. induction l as [|a l IH]; intros Hnd Hin.
  - by apply elem_of_nil in Hin.
  - simpl in *. apply NoDup_cons in Hnd as [Ha Hnd].
    apply elem_of_cons in Hin as [->|Hin].
    + by rewrite Nat.eqb_refl.
    + destruct (Nat.eqb_spec (e_id a) (e_id e)) as [Heq|_]; [|by apply IH].
      exfalso. apply Ha. rewrite Heq. apply list_elem_of_fmap. eauto.
Qed.

Lemma elem_of_unlink e pos l : e ∈ unlink pos l ↔ e ∈ l ∧ e_id e ≠ pos.
Proof. unfold unlink. rewrite list_elem_of_filter. tauto. Qed.

Lemma unlink_absent pos l : pos ∉ ids l → unlink pos l = l.
Proof.
  unfold unlink, ids. induction l as [|a l IH]; intros Hn; [done|].
  simpl in Hn. apply not_elem_of_cons in Hn as [Hne Hn].
  rewrite filter_cons_True; [|congruence]. by rewrite IH.
Qed.

Lemma unlink_app pos l1 l2 :
  unlink pos (l1 ++ l2) = unlink pos l1 ++ unlink pos l2.
Proof. apply filter_app. Qed.

Lemma unlink_cons_eq e l : unlink (e_id e) (e :: l) = unlink (e_id e) l.
Proof. unfold unlink. by rewrite filter_cons_False; [|intros H; apply H]. Qed.

Lemma unlink_middle l1 e l2 :
  NoDup (ids (l1 ++ e :: l2)) → unlink (e_id e) (l1 ++ e :: l2) = l1 ++ l2.
Proof.
  unfold ids. rewrite fmap_app, fmap_cons. intros Hnd.
  apply NoDup_app in Hnd as (_ & H1 & H2).
  apply NoDup_cons in H2 as [H2 _].
  rewrite unlink_app, unlink_cons_eq.
  rewrite !unlink_absent; [done|done|].
  intros Hin. apply (H1 _ Hin). left.
Qed.

Lemma ids_unlink_sub pos l x : x ∈ ids (unlink pos l) → x ∈ ids l.
Proof.
  unfold ids. rewrite !list_elem_of_fmap. intros (e & -> & He).
  apply elem_of_unlink in He as [He _]. eauto.
Qed.

Lemma NoDup_ids_unlink pos l : NoDup (ids l) → NoDup (ids (unlink pos l)).
Proof.
  unfold ids, unlink. induction l as [|a l IH]; intros Hnd; [constructor|].
  simpl in Hnd. apply NoDup_cons in Hnd as [Ha Hnd].
  destruct (decide (e_id a ≠ pos)) as [Hne|Heq].
  - rewrite filter_cons_True by done. simpl. apply NoDup_cons. split.
    + intros Hin. apply Ha. by apply (ids_unlink_sub pos).
    + by apply IH.
  - rewrite filter_cons_False by done. by apply IH.
Qed.

Lemma pos_notin_unlink pos l : pos ∉ ids (unlink pos l).
Proof.
  unfold ids. rewrite list_elem_of_fmap. intros (e & He1 & He2).
  apply elem_of_unlink in He2 as [_ Hne]. congruence.
Qed.

Lemma NoDup_ids_splice pos l : NoDup (ids l) → NoDup (ids (splice_front pos l)).
Proof.
  intros Hnd. unfold splice_front.
  destruct (node_at pos l) as [e|] eqn:He; [|done].
  apply node_at_Some in He as [_ <-].
  unfold ids. simpl. apply NoDup_cons. split.
  - apply pos_notin_unlink.
  - by apply NoDup_ids_unlink.
Qed.


Lemma iterators_valid_lookup c k pos :
  iterators_valid c → m_map c !! k = Some pos →
  ∃ e, e ∈ m_cache c ∧ e_id e = pos ∧ e_key e = k.
Proof.
  intros [_ Hm] Hk. specialize (Hm k pos Hk). simpl in Hm.
  apply Exists_exists in Hm as (e & He & Hid & Hkey). eauto.
Qed.

Lemma iterators_valid_node c k pos :
  iterators_valid c → m_map c !! k = Some pos →
  ∃ e, node_at pos (m_cache c) = Some e ∧ e ∈ m_cache c ∧ e_id e = pos ∧ e_key e = k.
Proof.
  intros Hv Hk. destruct (iterators_valid_lookup c k pos Hv Hk) as (e & He & <- & Hkey).
  exists e. split_and!; try done. apply node_at_NoDup; [apply Hv | done].
Qed.

(** * Index lookups and new entries *)

Lemma elem_of_splice pos l x :
  NoDup (ids l) → x ∈ splice_front pos l ↔ x ∈ l.
Proof.
  intros Hnd. unfold splice_front.
  destruct (node_at pos l) as [e|] eqn:He; [|done].
  pose proof He as Hn. apply node_at_Some in He as [Hin <-].
  rewrite elem_of_cons, elem_of_unlink. split.
  - intros [->|[? _]]; done.
  - intros Hx. destruct (decide (e_id x = e_id e)) as [Heq|Hne]; [|by right].
    left. pose proof (node_at_NoDup l x Hnd Hx) as Hx'.
    rewrite Heq, Hn in Hx'. congruence.
Qed.

Lemma HasFile_true c k : HasFile c k = true ↔ is_Some (m_map c !! k).
Proof. unfold HasFile. apply bool_decide_eq_true. Qed.

Lemma HasFile_false c k : HasFile c k = false ↔ m_map c !! k = None.
Proof.
  unfold HasFile. rewrite bool_decide_eq_false. split.
  - intros H. destruct (m_map c !! k); [|done]. exfalso. eauto.
  - intros -> [? ?]. done.
Qed.

Lemma UnguardedNewEmptyFile_absent fileId c :
  m_map c !! fileId = None →
  UnguardedNewEmptyFile fileId c =
  (Some (m_next c),
   {| m_size := m_size c; m_capacity := m_capacity c;
      m_cache := {| e_id := m_next c; e_key := fileId;
                    e_file := Some (File.make fileId) |} :: m_cache c;
      m_map := <[fileId := m_next c]> (m_map c); m_next := S (m_next c) |}).
Proof.
  intros Hk. unfold UnguardedNewEmptyFile. simpl.
  rewrite decide_True by done. by rewrite Hk.
Qed.

Lemma UnguardedNewEmptyFile_present fileId c pos :
  m_map c !! fileId = Some pos →
  UnguardedNewEmptyFile fileId c =
  (None,
   {| m_size := m_size c; m_capacity := m_capacity c;
      m_cache := {| e_id := m_next c; e_key := fileId;
                    e_file := Some (File.make fileId) |} :: m_cache c;
      m_map := m_map c; m_next := S (m_next c) |}).
Proof.
  intros Hk. unfold UnguardedNewEmptyFile. simpl.
  rewrite decide_True by done. by rewrite Hk.
Qed.

(** * Updating a node in place *)

Lemma map_node_absent pos g l : pos ∉ ids l → map_node pos g l = l.
Proof.
  unfold map_node, ids. induction l as [|a l IH]; intros Hn; [done|].
  simpl in *. apply not_elem_of_cons in Hn as [Hne Hn].
  destruct (Nat.eqb_spec (e_id a) pos) as [Heq|_]; [congruence|].
  by rewrite IH.
Qed.

Lemma unlink_map_node pos g l :
  (∀ e, e_id (g e) = e_id e) → unlink pos (map_node pos g l) = unlink pos l.
Proof.
  intros Hg. unfold unlink, map_node. induction l as [|a l IH]; [done|].
  simpl. destruct (Nat.eqb_spec (e_id a) pos) as [Heq|Hne].
  - rewrite !filter_cons_False; [done| |]; intros H; apply H; [done|].
    by rewrite Hg.
  - rewrite !filter_cons_True by done. by rewrite IH.
Qed.

Lemma node_at_map_node pos g l :
  (∀ e, e_id (g e) = e_id e) →
  node_at pos (map_node pos g l) = g <$> node_at pos l.
Proof.
  intros Hg. unfold node_at, map_node. induction l as [|a l IH]; [done|].
  simpl. destruct (Nat.eqb_spec (e_id a) pos) as [Heq|Hne].
  - rewrite Hg. destruct (Nat.eqb_spec (e_id a) pos); done.
  - destruct (Nat.eqb_spec (e_id a) pos); done.
Qed.

Lemma node_at_map_node_ne pos pos' g l :
  (∀ e, e_id (g e) = e_id e) → pos ≠ pos' →
  node_at pos' (map_node pos g l) = node_at pos' l.
Proof.
  intros Hg Hne. unfold node_at, map_node. induction l as [|a l IH]; [done|].
  simpl. destruct (Nat.eqb_spec (e_id a) pos) as [Heq|Hne'].
  - rewrite Hg. destruct (Nat.eqb_spec (e_id a) pos'); [congruence|done].
  - destruct (Nat.eqb_spec (e_id a) pos'); done.
Qed.

Lemma ids_map_node pos g l :
  (∀ e, e_id (g e) = e_id e) → ids (map_node pos g l) = ids l.
Proof.
  intros Hg. unfold ids, map_node. induction l as [|a l IH]; [done|].
  simpl. f_equal; [|exact IH].
  destruct (Nat.eqb (e_id a) pos); [apply Hg|done].
Qed.

Lemma ids_set_key pos k l : ids (set_key pos k l) = ids l.
Proof. by apply ids_map_node. Qed.

Lemma ids_update_file pos g l : ids (update_file pos g l) = ids l.
Proof. by apply ids_map_node. Qed.

Lemma node_at_unlink_ne pos pos' l :
  pos ≠ pos' → node_at pos' (unlink pos l) = node_at pos' l.
Proof.
  intros Hne. unfold node_at, unlink. induction l as [|a l IH]; [done|].
  destruct (decide (e_id a ≠ pos)) as [Ha|Ha].
  - rewrite filter_cons_True by done. simpl. by rewrite IH.
  - rewrite filter_cons_False by done. simpl.
    destruct (Nat.eqb_spec (e_id a) pos') as [Heq|_]; [|done].
    exfalso. apply Ha. intros Hp. apply Hne. congruence.
Qed.

Lemma file_at_update_file pos g c :
  file_at pos (set_cache (update_file pos g (m_cache c)) c) =
  g <$> file_at pos c.
Proof.
  unfold file_at, update_file. simpl. rewrite node_at_map_node by done.
  by destruct (node_at pos (m_cache c)).
Qed.

(** The index designates distinct nodes for distinct keys. *)
Lemma iterators_valid_inj c k1 k2 pos :
  iterators_valid c → m_map c !! k1 = Some pos → m_map c !! k2 = Some pos →
  k1 = k2.
Proof.
  intros Hv H1 H2.
  destruct (iterators_valid_node c k1 pos Hv H1) as (e1 & Hn1 & _ & _ & <-).
  destruct (iterators_valid_node c k2 pos Hv H2) as (e2 & Hn2 & _ & _ & <-).
  congruence.
Qed.

(** * Sizes *)

Lemma wrap_small z : 0 <= z < 2 ^ 64 → wrap z = z.
Proof. intros H. unfold wrap. by apply Z.mod_small. Qed.

Lemma mem_bytes_nonneg ps : 0 <= File.mem_bytes ps.
Proof.
  induction ps as [|p ps IH]; simpl; [lia|].
  unfold Page.size. destruct (Page.in_memory p); lia.
Qed.

Lemma cached_nonneg e : 0 <= cached e.
Proof.
  unfold cached. destruct (e_file e); simpl; [apply mem_bytes_nonneg | lia].
Qed.

Lemma sum_cached_nonneg l : 0 <= sum_cached l.
Proof.
  induction l as [|e l IH]; simpl; [lia|]. pose proof (cached_nonneg e). lia.
Qed.

Lemma sum_cached_app l1 l2 :
  sum_cached (l1 ++ l2) = sum_cached l1 + sum_cached l2.
Proof. induction l1 as [|e l1 IH]; simpl; lia. Qed.

Lemma sum_cached_rev l : sum_cached (rev l) = sum_cached l.
Proof.
  induction l as [|e l IH]; simpl; [done|].
  rewrite sum_cached_app, IH. simpl. lia.
Qed.

Lemma sum_cached_filter_le (P : Entry → Prop) `{!∀ e, Decision (P e)} l :
  sum_cached (filter P l) <= sum_cached l.
Proof.
  induction l as [|e l IH]; simpl; [done|].
  pose proof (cached_nonneg e).
  destruct (decide (P e)).
  - rewrite filter_cons_True by done. simpl. lia.
  - rewrite filter_cons_False by done. lia.
Qed.

Lemma filter_rev (P : Entry → Prop) `{!∀ e, Decision (P e)} l :
  filter P (rev l) = rev (filter P l).
Proof.
  induction l as [|e l IH]; simpl; [done|].
  rewrite filter_app, IH.
  destruct (decide (P e)).
  - rewrite !filter_cons_True by done. done.
  - rewrite !filter_cons_False by done. simpl. by rewrite app_nil_r.
Qed.

Lemma HasFreeSpace_iff c size :
  0 <= m_size c + size < 2 ^ 64 →
  HasFreeSpace c size = true ↔ size + m_size c <= m_capacity c.
Proof.
  intros Hr. unfold HasFreeSpace, GetSize, GetCapacity.
  rewrite wrap_small by done. rewrite Z.leb_le. lia.
Qed.

(** * The eviction loop *)

Lemma evictable_kept u e : evictable u e → ¬ kept u e.
Proof. unfold kept, removable. tauto. Qed.

Lemma kept_cases u e :
  kept u e ↔ ∃ f, e_file e = Some f ∧ (e_key e = u ∨ File.IsOpen f = true).
Proof.
  unfold kept, removable, evictable. split.
  - intros Hk. destruct (e_file e) as [f|] eqn:Hf; [|exfalso; auto].
    exists f. split; [done|].
    destruct (decide (e_key e = u)) as [|Hne]; [by left|right].
    destruct (File.IsOpen f) eqn:Ho; [done|].
    exfalso. apply Hk. right. eauto.
  - intros (f & Hf & Hc) [Hn|(g & Hg & Hne & Ho)]; [congruence|].
    assert (g = f) by congruence. subst g. destruct Hc; congruence.
Qed.

(** One unfolding of the loop, by what the visited entry is. *)
Lemma evict_loop_stop enough u e rest w c :
  enough w c = true → evict_loop enough u (e :: rest) w c = (w, c).
Proof. intros H. simpl. by rewrite H. Qed.

Lemma evict_loop_evict enough u e rest w c f :
  enough w c = false → e_file e = Some f → evictable u e →
  evict_loop enough u (e :: rest) w c =
  evict_loop enough u rest (evict e f w c).1 (evict e f w c).2.
Proof.
  intros H Hf (g & Hg & Hne & Ho). assert (g = f) by congruence. subst g.
  simpl. rewrite H, Hf, Ho. rewrite bool_decide_eq_true_2 by done. done.
Qed.

Lemma evict_loop_skip enough u e rest w c :
  enough w c = false → kept u e →
  evict_loop enough u (e :: rest) w c = evict_loop enough u rest w c.
Proof.
  intros H Hk. apply kept_cases in Hk as (f & Hf & Hc).
  simpl. rewrite H, Hf. destruct Hc as [Hu|Ho].
  - by rewrite bool_decide_eq_false_2 by (intros Hn; done).
  - rewrite Ho. by rewrite andb_false_r.
Qed.

Lemma evict_loop_null enough u e rest w c :
  enough w c = false → e_file e = None →
  evict_loop enough u (e :: rest) w c =
  evict_loop enough u rest w (drop_null e c).
Proof. intros H Hf. simpl. by rewrite H, Hf. Qed.

(** The three ways an entry can be visited. *)
Lemma visit_cases u e :
  (∃ f, e_file e = Some f ∧ evictable u e) ∨ kept u e ∨ e_file e = None.
Proof.
  destruct (e_file e) as [f|] eqn:Hf; [|by right; right].
  destruct (decide (evictable u e)) as [He|He].
  - left. eauto.
  - right. left. unfold kept, removable. intros [Hn|Hn]; [congruence|done].
Qed.

Lemma ids_inj l x y :
  NoDup (ids l) → x ∈ l → y ∈ l → e_id x = e_id y → x = y.
Proof.
  intros Hnd Hx Hy Heq.
  pose proof (node_at_NoDup l x Hnd Hx) as H1.
  pose proof (node_at_NoDup l y Hnd Hy) as H2.
  rewrite Heq in H1. congruence.
Qed.

Section Loop.
Context (enough : World → Cache.t → bool) (u : string).

(** An entry the loop has no right to remove is still in the order when
    the loop ends, with the [File] it had. *)
Lemma evict_loop_keeps l0 its : ∀ w c e,
  NoDup (ids l0) → (∀ x, x ∈ its → x ∈ l0) →
  (∀ x, x ∈ m_cache c → x ∈ l0) →
  e ∈ m_cache c → kept u e →
  e ∈ m_cache (evict_loop enough u its w c).2.
Proof.
  induction its as [|a its IH]; intros w c e Hnd Hits Hsub He Hk; [done|].
  assert (Ha : a ∈ l0) by (apply Hits; left).
  assert (Hits' : ∀ x, x ∈ its → x ∈ l0) by (intros x Hx; apply Hits; by right).
  destruct (enough w c) eqn:Hen; [by rewrite evict_loop_stop|].
  assert (Hrm : removable u a → e ∈ unlink (e_id a) (m_cache c)).
  { intros Hr. apply elem_of_unlink. split; [done|]. intros Heq.
    assert (e = a) by (eapply ids_inj; eauto). subst e. by apply Hk. }
  assert (Hsub' : ∀ x, x ∈ unlink (e_id a) (m_cache c) → x ∈ l0).
  { intros x Hx. apply elem_of_unlink in Hx as [Hx _]. auto. }
  destruct (visit_cases u a) as [(f & Hf & Hev)|[Hka|Hnull]].
  - rewrite (evict_loop_evict _ _ _ _ _ _ f) by done.
    apply IH; try done. apply Hrm. by right.
  - rewrite evict_loop_skip by done. by apply IH.
  - rewrite evict_loop_null by done.
    apply IH; try done. apply Hrm. by left.
Qed.

(** The index entry of a key is untouched as long as every visited entry
    with that key is one the loop keeps. *)
Lemma evict_loop_map_stable k its : ∀ w c,
  (∀ x, x ∈ its → e_key x = k → kept u x) →
  m_map (evict_loop enough u its w c).2 !! k = m_map c !! k.
Proof.
  induction its as [|a its IH]; intros w c Hits; [done|].
  assert (Hits' : ∀ x, x ∈ its → e_key x = k → kept u x).
  { intros x Hx. apply Hits. by right. }
  destruct (enough w c) eqn:Hen; [by rewrite evict_loop_stop|].
  assert (Hrm : removable u a → delete (e_key a) (m_map c) !! k = m_map c !! k).
  { intros Hr. apply lookup_delete_ne. intros Heq.
    by apply (Hits a (list_elem_of_here _ _) Heq). }
  destruct (visit_cases u a) as [(f & Hf & Hev)|[Hka|Hnull]].
  - rewrite (evict_loop_evict _ _ _ _ _ _ f) by done.
    rewrite IH by done. simpl. apply Hrm. by right.
  - rewrite evict_loop_skip by done. by apply IH.
  - rewrite evict_loop_null by done.
    rewrite IH by done. simpl. apply Hrm. by left.
Qed.

(** With nothing evictable in sight the loop frees no memory and no
    scratch space. *)
Lemma evict_loop_nothing_evictable its : ∀ w c,
  (∀ x, x ∈ its → ¬ evictable u x) →
  (evict_loop enough u its w c).1 = w ∧
  m_size (evict_loop enough u its w c).2 = m_size c ∧
  m_capacity (evict_loop enough u its w c).2 = m_capacity c.
Proof.
  induction its as [|a its IH]; intros w c Hits; [done|].
  assert (Hits' : ∀ x, x ∈ its → ¬ evictable u x).
  { intros x Hx. apply Hits. by right. }
  destruct (enough w c) eqn:Hen; [by rewrite evict_loop_stop|].
  destruct (visit_cases u a) as [(f & Hf & Hev)|[Hka|Hnull]].
  - exfalso. by apply (Hits a (list_elem_of_here _ _)).
  - rewrite evict_loop_skip by done. by apply IH.
  - rewrite evict_loop_null by done.
    destruct (IH w (drop_null a c) Hits') as (-> & -> & ->). done.
Qed.

(** The loop only ever removes entries. *)
Lemma evict_loop_sub its : ∀ w c x,
  x ∈ m_cache (evict_loop enough u its w c).2 → x ∈ m_cache c.
Proof.
  induction its as [|a its IH]; intros w c x Hx; [done|].
  destruct (enough w c) eqn:Hen; [by rewrite evict_loop_stop in Hx|].
  destruct (visit_cases u a) as [(f & Hf & Hev)|[Hka|Hnull]].
  - rewrite (evict_loop_evict _ _ _ _ _ _ f) in Hx by done.
    apply IH in Hx. simpl in Hx. by apply elem_of_unlink in Hx as [? _].
  - rewrite evict_loop_skip in Hx by done. by apply IH in Hx.
  - rewrite evict_loop_null in Hx by done.
    apply IH in Hx. simpl in Hx. by apply elem_of_unlink in Hx as [? _].
Qed.

End Loop.

Lemma elem_of_rev (l : list Entry) x : x ∈ rev l ↔ x ∈ l.
Proof. rewrite !list_elem_of_In. symmetry. apply in_rev. Qed.

(** * Preparing a write *)

Lemma place_flag fileId avail c pos c' :
  place fileId avail c = (pos, c') →
  ∃ p, pos = Some p ∧ m_map c' !! fileId = Some p ∧
       ∀ f, file_at p c' = Some f → File.useDiskFile f = negb avail.
Proof.
  unfold place. destruct (m_map c !! fileId) as [it|] eqn:Hk.
  - simpl. intros [= <- <-]. exists it. split_and!; [done|done|].
    intros f. unfold file_at. simpl. unfold update_file.
    rewrite node_at_map_node by done.
    destruct (node_at it _) as [e|]; simpl; [|done].
    destruct (e_file e); simpl; [|done]. by intros [= <-].
  - rewrite UnguardedNewEmptyFile_absent by done. intros [= <- <-].
    exists (m_next c). split_and!; [done|apply lookup_insert_eq|].
    intros f. unfold file_at, node_at. simpl.
    repeat (rewrite Nat.eqb_refl; simpl).
    intros Hf. injection Hf as <-. done.
Qed.

(** * Entries the loops must keep *)

Lemma open_is_kept u e f :
  e_file e = Some f → File.IsOpen f = true → kept u e.
Proof. intros Hf Ho. apply kept_cases. eauto. Qed.

Lemma index_agrees_key_unique c x y :
  index_agrees c → x ∈ m_cache c → y ∈ m_cache c → e_key x = e_key y → x = y.
Proof.
  intros [[Hnd _] Hall] Hx Hy Hk.
  rewrite Forall_forall in Hall.
  pose proof (Hall x Hx) as H1. pose proof (Hall y Hy) as H2.
  rewrite Hk in H1. eapply ids_inj; eauto. congruence.
Qed.

(** * Free *)

Lemma null_not_evictable u e : e_file e = None → ¬ evictable u e.
Proof. intros Hn (f & Hf & _). congruence. Qed.

Lemma kept_not_evictable u e : kept u e → ¬ evictable u e.
Proof. unfold kept, removable. tauto. Qed.

Lemma cached_Some e f :
  e_file e = Some f → cached e = File.GetCachedSize f.
Proof. unfold cached. by intros ->. Qed.

(** What the loop of [Free] has done when it ends: it visited a prefix [vis]
    of the entries it was given (least recently used first), removed the
    removable ones among them, and visited each of them only because the
    memory freed so far was not enough. *)
Lemma Free_loop_spec size u its : ∀ done w c,
  0 <= size →
  m_cache c = rev its ++ done →
  NoDup (ids (m_cache c)) →
  sum_cached its <= m_size c → m_size c + size < 2 ^ 64 →
  ∃ vis unvis,
    its = vis ++ unvis ∧
    m_cache (evict_loop (fun _ c => HasFreeSpace c size) u its w c).2 =
      rev unvis ++ rev (filter (kept u) vis) ++ done ∧
    m_size (evict_loop (fun _ c => HasFreeSpace c size) u its w c).2 =
      m_size c - sum_cached (filter (evictable u) vis) ∧
    m_capacity (evict_loop (fun _ c => HasFreeSpace c size) u its w c).2 =
      m_capacity c ∧
    m_map (evict_loop (fun _ c => HasFreeSpace c size) u its w c).2 =
      foldl (fun m e => delete (e_key e) m) (m_map c)
        (filter (removable u) vis) ∧
    (unvis ≠ [] →
     size + m_size (evict_loop (fun _ c => HasFreeSpace c size) u its w c).2
       <= m_capacity c) ∧
    (∀ vis1 v vis2, vis = vis1 ++ v :: vis2 →
       m_capacity c
       < size + (m_size c - sum_cached (filter (evictable u) vis1))).
Proof.
  induction its as [|a rest IH]; intros done w c Hsz Hl Hnd Hsum Hmax.
  { exists [], []. simpl. rewrite Z.sub_0_r. split_and!; try done.
    intros [|??] ?? H; discriminate H. }
  pose proof (sum_cached_nonneg rest) as Hrest.
  pose proof (cached_nonneg a) as Ha.
  simpl in Hsum.
  assert (Hl' : m_cache c = rev rest ++ a :: done).
  { rewrite Hl. simpl. by rewrite <- app_assoc. }
  destruct (HasFreeSpace c size) eqn:Hfs.
  { rewrite evict_loop_stop by done.
    exists [], (a :: rest). simpl. rewrite Z.sub_0_r.
    split_and!; try done.
    - intros _. apply HasFreeSpace_iff; [lia|done].
    - intros [|??] ?? H; discriminate H. }
  assert (Hshort : m_capacity c < size + m_size c).
  { destruct (Z.le_gt_cases (size + m_size c) (m_capacity c)) as [Hle|]; [|lia].
    apply HasFreeSpace_iff in Hle; [congruence|lia]. }
  assert (Hun : unlink (e_id a) (m_cache c) = rev rest ++ done).
  { rewrite Hl'. apply unlink_middle. by rewrite <- Hl'. }
  destruct (visit_cases u a) as [(f & Hf & Hev)|[Hka|Hnull]].
  - (* evicted *)
    rewrite (evict_loop_evict _ _ _ _ _ _ f) by done.
    set (c1 := (evict a f w c).2). set (w1 := (evict a f w c).1).
    assert (Hsz1 : m_size c1 = m_size c - cached a).
    { subst c1. simpl. rewrite (cached_Some a f Hf).
      apply wrap_small. rewrite <- (cached_Some a f Hf). lia. }
    destruct (IH done w1 c1) as (vis & unvis & -> & Hc & Hs & Hcap & Hm & Hstop & Hwhy).
    { done. }
    { exact Hun. }
    { simpl. by apply NoDup_ids_unlink. }
    { lia. }
    { lia. }
    exists (a :: vis), unvis.
    rewrite (filter_cons_False (kept u)) by (by apply evictable_kept).
    rewrite (filter_cons_True (evictable u)) by done.
    rewrite (filter_cons_True (removable u)) by (by right).
    simpl. split_and!; try done.
    + rewrite Hs, Hsz1. lia.
    + intros vis1 v vis2 Hv. destruct vis1 as [|v1 vis1].
      * simpl. lia.
      * injection Hv as <- Hv. specialize (Hwhy _ _ _ Hv).
        rewrite (filter_cons_True (evictable u)) by done. simpl.
        replace (m_capacity c1) with (m_capacity c) in Hwhy by done. lia.
  - (* kept *)
    rewrite evict_loop_skip by done.
    destruct (IH (a :: done) w c) as (vis & unvis & -> & Hc & Hs & Hcap & Hm & Hstop & Hwhy).
    { done. }
    { exact Hl'. }
    { done. }
    { lia. }
    { done. }
    exists (a :: vis), unvis.
    rewrite (filter_cons_True (kept u)) by done.
    rewrite (filter_cons_False (evictable u)) by (by apply kept_not_evictable).
    rewrite (filter_cons_False (removable u)) by done.
    simpl. split_and!; try done.
    + rewrite Hc. by rewrite <- !app_assoc.
    + intros vis1 v vis2 Hv. destruct vis1 as [|v1 vis1].
      * simpl. lia.
      * injection Hv as <- Hv. specialize (Hwhy _ _ _ Hv).
        by rewrite (filter_cons_False (evictable u))
          by (by apply kept_not_evictable).
  - (* null pointer *)
    rewrite evict_loop_null by done.
    destruct (IH done w (drop_null a c)) as (vis & unvis & -> & Hc & Hs & Hcap & Hm & Hstop & Hwhy).
    { done. }
    { exact Hun. }
    { simpl. by apply NoDup_ids_unlink. }
    { simpl. lia. }
    { done. }
    exists (a :: vis), unvis.
    rewrite (filter_cons_False (kept u)) by (intros Hk; apply Hk; by left).
    rewrite (filter_cons_False (evictable u)) by (by apply null_not_evictable).
    rewrite (filter_cons_True (removable u)) by (by left).
    simpl. split_and!; try done.
    intros vis1 v vis2 Hv. destruct vis1 as [|v1 vis1].
    + simpl. lia.
    + injection Hv as <- Hv. specialize (Hwhy _ _ _ Hv).
      by rewrite (filter_cons_False (evictable u))
        by (by apply null_not_evictable).
Qed.

Lemma Free_unfold size u w c :
  Free size u w c =
  if GetCapacity c <? size then (false, w, c)
  else if HasFreeSpace c size then (true, w, c)
  else
    let r := evict_loop (fun _ c => HasFreeSpace c size) u (rev (m_cache c)) w c in
    (HasFreeSpace r.2 size, r.1, r.2).
Proof.
  unfold Free. destruct (GetCapacity c <? size); [done|].
  destruct (HasFreeSpace c size); [done|].
  by destruct (evict_loop _ u (rev (m_cache c)) w c).
Qed.

Lemma FreeDiskCacheFiles_unfold size u w c :
  FreeDiskCacheFiles size u w c =
  if IsSafeDiskSpace w size then (true, w, c)
  else
    let r := evict_loop (fun w _ => IsSafeDiskSpace w size) u (rev (m_cache c)) w c in
    (IsSafeDiskSpace r.1 size, r.1, r.2).
Proof.
  unfold FreeDiskCacheFiles. destruct (IsSafeDiskSpace w size); [done|].
  by destruct (evict_loop _ u (rev (m_cache c)) w c).
Qed.

Lemma lookup_foldl_delete (l : list Entry) : ∀ (m : gmap string nat) k,
  foldl (fun m e => delete (e_key e) m) m l !! k =
  if decide (Exists (fun e => e_key e = k) l) then None else m !! k.
Proof.
  induction l as [|a l IH]; intros m k; cbn [foldl].
  - case_decide as H; [by apply Exists_nil in H|done].
  - rewrite IH. repeat case_decide; try done.
    + exfalso. match goal with H : ¬ Exists _ (_ :: _) |- _ => apply H end.
      by right.
    + match goal with H : Exists _ (_ :: _) |- _ =>
        apply Exists_cons in H as [<-|?]; [apply lookup_delete_eq|done] end.
    + apply lookup_delete_ne. intros Heq.
      match goal with H : ¬ Exists _ (_ :: _) |- _ => apply H end.
      by left.
Qed.

Lemma Exists_rev (P : Entry → Prop) l : Exists P (rev l) ↔ Exists P l.
Proof.
  rewrite !Exists_exists. split; intros (x & Hx & Hp); exists x;
    (split; [|done]); by apply elem_of_rev.
Qed.

(** * Writing *)

Lemma Write_valid_input fileId offset len src dirTree o w c :
  len ≠ 0 → fileId ≠ EmptyString → 0 <= offset → 0 <= len →
  Write fileId offset len (Some src) dirTree o w c =
  write_valid fileId offset len src dirTree o w c.
Proof.
  intros Hlen Hid Hoff Hl. unfold Write.
  destruct (Z.eqb_spec len 0) as [|_]; [done|].
  rewrite bool_decide_eq_true_2 by done.
  destruct (Z.leb_spec 0 offset); [|lia].
  destruct (Z.leb_spec 0 len); [|lia]. done.
Qed.

(** The outcome of [PrepareWrite], branch by branch. *)
Lemma PrepareWrite_outcome fileId len w c ok pos w' c' :
  PrepareWrite fileId len w c = ((ok, pos), w', c') →
  ok = memory_ok fileId len w c || disk_path_ok fileId len w c ∧
  (ok = false → pos = None) ∧
  (ok = true →
   ∃ p, pos = Some p ∧ m_map c' !! fileId = Some p ∧
        ∀ f, file_at p c' = Some f →
             File.useDiskFile f = negb (memory_ok fileId len w c)).
Proof.
  unfold PrepareWrite, memory_ok, disk_path_ok.
  assert (Hflag : ∀ avail c0 (w0 : World),
    (let '(pos, c') := place fileId avail c0 in ((true, pos), w0, c')) =
      ((ok, pos), w', c') →
    ok = true ∧
    ∃ p, pos = Some p ∧ m_map c' !! fileId = Some p ∧
         ∀ f, file_at p c' = Some f → File.useDiskFile f = negb avail).
  { intros avail c0 w0. destruct (place fileId avail c0) as [q c0'] eqn:Hp.
    intros [= <- <- <- <-]. split; [done|]. by eapply place_flag. }
  destruct (HasFreeSpace c len) eqn:Hfs.
  - simpl. intros H. apply Hflag in H as (-> & p & -> & Hm & Hf).
    split_and!; [done|done|]. intros _. by exists p.
  - simpl. destruct (Free len fileId w c) as [[avail w1] c1]. simpl.
    destruct avail; simpl.
    + intros H. apply Hflag in H as (-> & p & -> & Hm & Hf).
      split_and!; [done|done|]. intros _. by exists p.
    + destruct (CreateDirectoryIfNotExists w1); simpl;
        [|intros [= <- <- <- <-]; done].
      destruct (IsSafeDiskSpace w1 len); simpl.
      * intros H. apply Hflag in H as (-> & p & -> & Hm & Hf).
        split_and!; [done|done|]. intros _. by exists p.
      * destruct (FreeDiskCacheFiles len fileId w1 c1) as [[okd w2] c2].
        simpl. destruct okd; [|intros [= <- <- <- <-]; done].
        intros H. apply Hflag in H as (-> & p & -> & Hm & Hf).
        split_and!; [done|done|]. intros _. by exists p.
Qed.

(** [PrepareWrite] only removes entries, moves them, creates the target's and
    sets flags: an entry of the result that is not the target's was in the
    order before. *)
Lemma PrepareWrite_sub fileId len w c x :
  x ∈ m_cache (PrepareWrite fileId len w c).2 →
  (PrepareWrite fileId len w c).1.1.1 = false → x ∈ m_cache c.
Proof.
  unfold PrepareWrite.
  assert (Hpl : ∀ avail (w0 : World) c0,
    (let '(pos, c') := place fileId avail c0 in ((true, pos), w0, c')).1.1.1
      = false → x ∈ m_cache c).
  { intros avail w0 c0. by destruct (place fileId avail c0). }
  destruct (HasFreeSpace c len); [intros _; apply Hpl|].
  assert (Hfr : ∀ y, y ∈ m_cache (Free len fileId w c).2 → y ∈ m_cache c).
  { intros y. rewrite Free_unfold.
    destruct (GetCapacity c <? len); [done|].
    destruct (HasFreeSpace c len); [done|]. simpl. apply evict_loop_sub. }
  destruct (Free len fileId w c) as [[avail w1] c1]. simpl in Hfr.
  destruct avail; [intros _; apply Hpl|].
  destruct (CreateDirectoryIfNotExists w1); simpl; [|by intros ? _; apply Hfr].
  destruct (IsSafeDiskSpace w1 len); [intros _; apply Hpl|].
  assert (Hfd : ∀ y, y ∈ m_cache (FreeDiskCacheFiles len fileId w1 c1).2 →
                     y ∈ m_cache c1).
  { intros y. rewrite FreeDiskCacheFiles_unfold.
    destruct (IsSafeDiskSpace w1 len); [done|]. simpl. apply evict_loop_sub. }
  destruct (FreeDiskCacheFiles len fileId w1 c1) as [[okd w2] c2].
  simpl in Hfd. destruct okd; [intros _; apply Hpl|].
  simpl. intros Hx _. by apply Hfr, Hfd.
Qed.


(** * The index never dangles *)

Lemma iterators_valid_alt c :
  iterators_valid c ↔
  NoDup (ids (m_cache c)) ∧
  ∀ k pos, m_map c !! k = Some pos →
    ∃ e, e ∈ m_cache c ∧ e_id e = pos ∧ e_key e = k.
Proof.
  unfold iterators_valid. split; intros [Hnd Hm]; (split; [done|]).
  - intros k pos Hk. specialize (Hm k pos Hk). simpl in Hm.
    apply Exists_exists in Hm as (e & ? & ? & ?). eauto.
  - intros k pos Hk. apply Exists_exists.
    destruct (Hm k pos Hk) as (e & ? & ? & ?). eauto.
Qed.

Lemma index_agrees_alt c :
  index_agrees c ↔
  iterators_valid c ∧ ∀ e, e ∈ m_cache c → m_map c !! e_key e = Some (e_id e).
Proof. unfold index_agrees. by rewrite Forall_forall. Qed.

Lemma fresh_ok_alt c :
  fresh_ok c ↔ ∀ e, e ∈ m_cache c → (e_id e < m_next c)%nat.
Proof. unfold fresh_ok. by rewrite Forall_forall. Qed.

Lemma fresh_not_in c : fresh_ok c → m_next c ∉ ids (m_cache c).
Proof.
  rewrite fresh_ok_alt. intros Hf Hin. unfold ids in Hin.
  apply list_elem_of_fmap in Hin as (e & Heq & He).
  specialize (Hf e He). lia.
Qed.

Lemma elem_of_map_node pos g l x :
  x ∈ map_node pos g l →
  ∃ y, y ∈ l ∧ (x = y ∨ (e_id y = pos ∧ x = g y)).
Proof.
  unfold map_node. rewrite list_elem_of_In, in_map_iff.
  intros (y & Hy & Hin). apply list_elem_of_In in Hin.
  exists y. split; [done|].
  destruct (Nat.eqb_spec (e_id y) pos); [right|left]; done.
Qed.

Lemma map_node_elem pos g l y :
  y ∈ l → (if Nat.eqb (e_id y) pos then g y else y) ∈ map_node pos g l.
Proof.
  intros Hy. unfold map_node. rewrite list_elem_of_In. apply in_map_iff.
  exists y. split; [done|]. by apply list_elem_of_In.
Qed.

Section Primitives.
Context (c c' : Cache.t).

(** Moving a node to the front. *)
Lemma iterators_valid_splice pos :
  m_cache c' = splice_front pos (m_cache c) → m_map c' = m_map c →
  iterators_valid c → iterators_valid c'.
Proof.
  rewrite !iterators_valid_alt. intros Hl Hm [Hnd Hv]. rewrite Hl, Hm.
  split; [by apply NoDup_ids_splice|].
  intros k p Hk. destruct (Hv k p Hk) as (e & He & ? & ?).
  exists e. by rewrite elem_of_splice.
Qed.

(** Calling a [File] method through a node. *)
Lemma iterators_valid_update_file pos g :
  m_cache c' = update_file pos g (m_cache c) → m_map c' = m_map c →
  iterators_valid c → iterators_valid c'.
Proof.
  rewrite !iterators_valid_alt. intros Hl Hm [Hnd Hv]. rewrite Hl, Hm.
  split; [by rewrite ids_update_file|].
  intros k p Hk. destruct (Hv k p Hk) as (e & He & Hid & Hkey).
  pose proof (map_node_elem pos
    (fun e => {| e_id := e_id e; e_key := e_key e; e_file := g <$> e_file e |})
    (m_cache c) e He) as Hin.
  eexists. split; [exact Hin|]. by destruct (Nat.eqb (e_id e) pos).
Qed.

(** Unlinking a node of the list and erasing its key. *)
Lemma iterators_valid_remove e :
  m_cache c' = unlink (e_id e) (m_cache c) →
  m_map c' = delete (e_key e) (m_map c) →
  e ∈ m_cache c → iterators_valid c → iterators_valid c'.
Proof.
  rewrite !iterators_valid_alt. intros Hl Hm He [Hnd Hv]. rewrite Hl, Hm.
  split; [by apply NoDup_ids_unlink|].
  intros k p Hk.
  destruct (decide (k = e_key e)) as [->|Hne];
    [by rewrite lookup_delete_eq in Hk|].
  rewrite lookup_delete_ne in Hk by done.
  destruct (Hv k p Hk) as (x & Hx & Hid & Hkey).
  exists x. split; [|done]. apply elem_of_unlink. split; [done|].
  intros Heq. apply Hne. rewrite <- Hkey. f_equal. by eapply ids_inj.
Qed.

(** The same through a map iterator. *)
Lemma iterators_valid_erase k pos :
  m_cache c' = unlink pos (m_cache c) → m_map c' = delete k (m_map c) →
  m_map c !! k = Some pos → iterators_valid c → iterators_valid c'.
Proof.
  intros Hl Hm Hk Hv.
  destruct (iterators_valid_lookup c k pos Hv Hk) as (e & He & <- & <-).
  by eapply iterators_valid_remove.
Qed.

(** Pushing a freshly allocated node, indexed or not. *)
Lemma iterators_valid_push e :
  m_cache c' = e :: m_cache c →
  (m_map c' = m_map c ∨ m_map c' = <[e_key e := e_id e]> (m_map c)) →
  e_id e ∉ ids (m_cache c) → iterators_valid c → iterators_valid c'.
Proof.
  rewrite !iterators_valid_alt. intros Hl Hm Hfresh [Hnd Hv]. rewrite Hl.
  split; [unfold ids in *; simpl; by apply NoDup_cons|].
  intros k p Hk. destruct Hm as [Hm|Hm]; rewrite Hm in Hk.
  - destruct (Hv k p Hk) as (x & ? & ? & ?). exists x. split; [by right|done].
  - destruct (decide (k = e_key e)) as [->|Hne].
    + rewrite lookup_insert_eq in Hk. injection Hk as <-.
      exists e. split; [by left|done].
    + rewrite lookup_insert_ne in Hk by done.
      destruct (Hv k p Hk) as (x & ? & ? & ?). exists x. split; [by right|done].
Qed.

End Primitives.

Lemma fresh_ok_sub c c' :
  (∀ x, x ∈ m_cache c' → ∃ y, y ∈ m_cache c ∧ e_id x = e_id y) →
  (m_next c <= m_next c')%nat → fresh_ok c → fresh_ok c'.
Proof.
  rewrite !fresh_ok_alt. intros Hsub Hn Hf x Hx.
  destruct (Hsub x Hx) as (y & Hy & ->). specialize (Hf y Hy). lia.
Qed.

Lemma update_file_ids_sub pos g l x :
  x ∈ update_file pos g l → ∃ y, y ∈ l ∧ e_id x = e_id y.
Proof.
  intros Hx. apply elem_of_map_node in Hx as (y & Hy & [->|[_ ->]]); eauto.
Qed.

Lemma set_key_ids_sub pos k l x :
  x ∈ set_key pos k l → ∃ y, y ∈ l ∧ e_id x = e_id y.
Proof.
  intros Hx. apply elem_of_map_node in Hx as (y & Hy & [->|[_ ->]]); eauto.
Qed.

Lemma unlink_ids_sub pos l x :
  x ∈ unlink pos l → ∃ y, y ∈ l ∧ e_id x = e_id y.
Proof. intros Hx. apply elem_of_unlink in Hx as [Hx _]. eauto. Qed.

Lemma splice_ids_sub pos l x :
  x ∈ splice_front pos l → ∃ y, y ∈ l ∧ e_id x = e_id y.
Proof.
  unfold splice_front. destruct (node_at pos l) as [e|] eqn:He; [|eauto].
  apply node_at_Some in He as [He _].
  intros [->|Hx]%elem_of_cons; [eauto|]. by apply unlink_ids_sub in Hx.
Qed.

(** ** Through the eviction loop *)

(** A property of the cache that survives the removal of any entry of the
    list survives the whole loop. *)
Lemma evict_loop_invariant (I : Cache.t → Prop) enough u :
  (∀ c e f w, NoDup (ids (m_cache c)) → I c → e ∈ m_cache c →
     e_file e = Some f → I (evict e f w c).2) →
  (∀ c e, NoDup (ids (m_cache c)) → I c → e ∈ m_cache c →
     e_file e = None → I (drop_null e c)) →
  ∀ its w c,
    NoDup (ids (m_cache c)) → NoDup (ids its) →
    (∀ x, x ∈ its → x ∈ m_cache c) → I c →
    I (evict_loop enough u its w c).2 ∧
    NoDup (ids (m_cache (evict_loop enough u its w c).2)).
Proof.
  intros Hev Hnull. induction its as [|a its IH]; intros w c Hnd Hni Hsub Hi;
    [done|].
  assert (Ha : a ∈ m_cache c) by (apply Hsub; left).
  unfold ids in Hni. simpl in Hni. apply NoDup_cons in Hni as [Hai Hni].
  assert (Hsub' : ∀ x, x ∈ its → x ∈ unlink (e_id a) (m_cache c)).
  { intros x Hx. apply elem_of_unlink. split; [apply Hsub; by right|].
    intros Heq. apply Hai. rewrite <- Heq. apply list_elem_of_fmap. eauto. }
  destruct (enough w c) eqn:Hen; [by rewrite evict_loop_stop|].
  destruct (visit_cases u a) as [(f & Hf & Hev')|[Hka|Hn]].
  - rewrite (evict_loop_evict _ _ _ _ _ _ f) by done.
    apply IH; try done.
    + simpl. by apply NoDup_ids_unlink.
    + by eapply Hev.
  - rewrite evict_loop_skip by done.
    apply IH; try done. intros x Hx. apply Hsub. by right.
  - rewrite evict_loop_null by done.
    apply IH; try done.
    + simpl. by apply NoDup_ids_unlink.
    + by apply Hnull.
Qed.

Lemma NoDup_ids_rev l : NoDup (ids l) → NoDup (ids (rev l)).
Proof.
  unfold ids. intros H.
  replace (e_id <$> rev l) with (rev (e_id <$> l)) by (symmetry; apply map_rev).
  by rewrite <- Permutation_rev.
Qed.

(** ** Operation by operation *)

Lemma wf_intro c c' :
  iterators_valid c' →
  (∀ x, x ∈ m_cache c' → ∃ y, y ∈ m_cache c ∧ e_id x = e_id y) →
  (m_next c <= m_next c')%nat → wf c → wf c'.
Proof. intros Hv Hsub Hn [_ Hf]. split; [done|]. by eapply fresh_ok_sub. Qed.

Lemma wf_UnguardedMakeFileMostRecentlyUsed pos c :
  wf c → wf (UnguardedMakeFileMostRecentlyUsed pos c).2.
Proof.
  intros Hw. apply (wf_intro c); [| |simpl; lia|exact Hw].
  - eapply iterators_valid_splice; [done|done|apply Hw].
  - simpl. apply splice_ids_sub.
Qed.

Lemma wf_update_file pos g c :
  wf c → wf (set_cache (update_file pos g (m_cache c)) c).
Proof.
  intros Hw. apply (wf_intro c); [| |simpl; lia|exact Hw].
  - eapply iterators_valid_update_file; [done|done|apply Hw].
  - simpl. apply update_file_ids_sub.
Qed.

Lemma wf_set_size sz c : wf c → wf (set_size sz c).
Proof.
  intros [[Hnd Hv] Hf]. split; [split|]; done.
Qed.

Lemma wf_UnguardedNewEmptyFile fileId c :
  wf c → wf (UnguardedNewEmptyFile fileId c).2.
Proof.
  intros [Hv Hf].
  pose proof (fresh_not_in c Hf) as Hfresh.
  set (e := {| e_id := m_next c; e_key := fileId;
               e_file := Some (File.make fileId) |}).
  assert (Hfr : ∀ c', m_cache c' = e :: m_cache c → m_next c' = S (m_next c) →
                      fresh_ok c').
  { intros c' Hl Hn. apply fresh_ok_alt. rewrite Hl, Hn.
    rewrite fresh_ok_alt in Hf.
    intros x [->|Hx]%elem_of_cons; [simpl; lia|]. specialize (Hf x Hx). lia. }
  destruct (m_map c !! fileId) as [pos|] eqn:Hk.
  - rewrite (UnguardedNewEmptyFile_present _ _ _ Hk). simpl. split.
    + eapply (iterators_valid_push c _ e); [done|by left|done|done].
    + by apply Hfr.
  - rewrite (UnguardedNewEmptyFile_absent _ _ Hk). simpl. split.
    + eapply (iterators_valid_push c _ e); [done|by right|done|done].
    + by apply Hfr.
Qed.

Lemma wf_evict e f w c :
  wf c → e ∈ m_cache c → wf (evict e f w c).2.
Proof.
  intros Hw He. apply (wf_intro c); [| |simpl; lia|exact Hw].
  - eapply (iterators_valid_remove c _ e); [done|done|done|apply Hw].
  - simpl. apply unlink_ids_sub.
Qed.

Lemma wf_drop_null e c : wf c → e ∈ m_cache c → wf (drop_null e c).
Proof.
  intros Hw He. apply (wf_intro c); [| |simpl; lia|exact Hw].
  - eapply (iterators_valid_remove c _ e); [done|done|done|apply Hw].
  - simpl. apply unlink_ids_sub.
Qed.

Lemma wf_evict_loop enough u w c :
  wf c → wf (evict_loop enough u (rev (m_cache c)) w c).2.
Proof.
  intros Hw.
  apply (evict_loop_invariant wf enough u).
  - intros c0 e f w0 _ Hw0 He _. by apply wf_evict.
  - intros c0 e _ Hw0 He _. by apply wf_drop_null.
  - apply Hw.
  - apply NoDup_ids_rev, Hw.
  - intros x. by rewrite elem_of_rev.
  - done.
Qed.

Lemma wf_Free size u w c : wf c → wf (Free size u w c).2.
Proof.
  intros Hw. rewrite Free_unfold.
  destruct (GetCapacity c <? size); [done|].
  destruct (HasFreeSpace c size); [done|]. simpl. by apply wf_evict_loop.
Qed.

Lemma wf_FreeDiskCacheFiles size u w c :
  wf c → wf (FreeDiskCacheFiles size u w c).2.
Proof.
  intros Hw. rewrite FreeDiskCacheFiles_unfold.
  destruct (IsSafeDiskSpace w size); [done|]. simpl. by apply wf_evict_loop.
Qed.

Lemma wf_place fileId avail c : wf c → wf (place fileId avail c).2.
Proof.
  intros Hw. unfold place. destruct (m_map c !! fileId) as [it|] eqn:Hk.
  - simpl. apply (wf_update_file it _ (set_cache _ c)).
    by apply (wf_UnguardedMakeFileMostRecentlyUsed it c).
  - pose proof (wf_UnguardedNewEmptyFile fileId c Hw) as Hn.
    rewrite (UnguardedNewEmptyFile_absent _ _ Hk) in Hn |- *.
    exact (wf_update_file (m_next c) (File.SetUseDiskFile (negb avail)) _ Hn).
Qed.

Lemma wf_touch fileId c : wf c → wf (touch fileId c).
Proof.
  intros Hw. unfold touch. destruct (m_map c !! fileId).
  - by apply wf_UnguardedMakeFileMostRecentlyUsed.
  - by apply wf_UnguardedNewEmptyFile.
Qed.

Lemma wf_PrepareWrite fileId len w c :
  wf c → wf (PrepareWrite fileId len w c).2.
Proof.
  intros Hw. unfold PrepareWrite.
  assert (Hpl : ∀ avail (w0 : World) c0, wf c0 →
    wf (let '(pos, c') := place fileId avail c0 in ((true, pos), w0, c')).2).
  { intros avail w0 c0 H0. pose proof (wf_place fileId avail c0 H0).
    by destruct (place fileId avail c0). }
  destruct (HasFreeSpace c len); [by apply Hpl|].
  pose proof (wf_Free len fileId w c Hw) as Hfr.
  destruct (Free len fileId w c) as [[avail w1] c1]. simpl in Hfr.
  destruct avail; [by apply Hpl|].
  destruct (CreateDirectoryIfNotExists w1); [|done]. simpl.
  destruct (IsSafeDiskSpace w1 len); [by apply Hpl|].
  pose proof (wf_FreeDiskCacheFiles len fileId w1 c1 Hfr) as Hfd.
  destruct (FreeDiskCacheFiles len fileId w1 c1) as [[ok w2] c2]. simpl in Hfd.
  destruct ok; [by apply Hpl|done].
Qed.

Lemma wf_write_valid fileId offset len src dirTree o w c :
  wf c → wf (write_valid fileId offset len src dirTree o w c).1.2.
Proof.
  intros Hw. unfold write_valid.
  pose proof (wf_PrepareWrite fileId len w c Hw) as Hp.
  destruct (PrepareWrite fileId len w c) as [[[ok res] w1] c1]. simpl in Hp.
  destruct ok; [|done]. destruct res as [pos|]; [|done].
  destruct (file_at pos c1) as [file|]; [|done].
  destruct (File.Write offset len src o w1 file) as [[[[okf added] ad] w2] f'].
  pose proof (wf_update_file pos (fun _ => f') c1 Hp) as Hu.
  destruct okf; [|done]. simpl. by apply wf_set_size.
Qed.

Lemma wf_Write fileId offset len buffer dirTree o w c :
  wf c → wf (Write fileId offset len buffer dirTree o w c).1.2.
Proof.
  intros Hw. unfold Write. destruct (len =? 0); [by apply wf_touch|].
  destruct buffer as [src|]; [|done].
  destruct (_ && _); [by apply wf_write_valid|done].
Qed.

Lemma wf_WriteStream fileId offset len stream dirTree o w c :
  wf c → wf (WriteStream fileId offset len stream dirTree o w c).1.2.
Proof.
  intros Hw. unfold WriteStream. destruct (len =? 0); [by apply wf_touch|].
  destruct stream as [src|]; [|done].
  destruct (_ && _); [|done].
  destruct (len <=? _); [by apply wf_write_valid|done].
Qed.

Lemma wf_UnguardedErase fileId pos w c :
  m_map c !! fileId = Some pos → wf c →
  wf (UnguardedErase fileId pos w c).2.
Proof.
  intros Hk Hw. apply (wf_intro c); [| |simpl; lia|exact Hw].
  - eapply (iterators_valid_erase c _ fileId pos); [done|done|done|apply Hw].
  - simpl. apply unlink_ids_sub.
Qed.

Lemma wf_Erase fileId w c : wf c → wf (Erase fileId w c).2.
Proof.
  intros Hw. unfold Erase. destruct (m_map c !! fileId) eqn:Hk; [|done].
  by apply wf_UnguardedErase.
Qed.

Lemma wf_SetFileOpen fileId o dirTree c :
  wf c → wf (SetFileOpen fileId o dirTree c).1.
Proof.
  intros Hw. unfold SetFileOpen. simpl.
  destruct (m_map c !! fileId); [by apply wf_update_file|done].
Qed.

Lemma wf_MakeFile fileId c : wf c → wf (MakeFile fileId c).2.
Proof.
  intros Hw. unfold MakeFile.
  pose proof (wf_UnguardedNewEmptyFile fileId c Hw) as Hn.
  destruct (UnguardedNewEmptyFile fileId c) as [[p|] c']; done.
Qed.

Lemma wf_FindFile filePath c : wf c → wf (FindFile filePath c).2.
Proof.
  intros Hw. unfold FindFile. destruct (m_map c !! filePath) as [it|]; [|done].
  by apply (wf_UnguardedMakeFileMostRecentlyUsed it c).
Qed.

(** The three list steps of [Rename] on the node of the old identifier. *)
Lemma relink_shape it b g l e :
  node_at it l = Some e →
  update_file it g (splice_front it (set_key it b l)) =
  {| e_id := e_id e; e_key := b; e_file := g <$> e_file e |} :: unlink it l.
Proof.
  intros Hl. pose proof (node_at_Some _ _ _ Hl) as [_ Hid].
  unfold splice_front, set_key.
  rewrite node_at_map_node, Hl by done. simpl.
  rewrite Hid, Nat.eqb_refl. f_equal.
  rewrite unlink_map_node by done.
  apply map_node_absent. apply pos_notin_unlink.
Qed.

Lemma iterators_valid_relink c c' a b it g :
  a ≠ b → iterators_valid c →
  m_map c !! a = Some it → m_map c !! b = None →
  m_cache c' = update_file it g (splice_front it (set_key it b (m_cache c))) →
  m_map c' = delete a (<[b := it]> (m_map c)) →
  iterators_valid c'.
Proof.
  intros Hab Hv Ha Hb Hl Hm.
  destruct (iterators_valid_node c a it Hv Ha) as (e & Hn & He & Hid & Hkey).
  rewrite (relink_shape it b g _ e Hn) in Hl.
  apply iterators_valid_alt in Hv as [Hnd Hv].
  apply iterators_valid_alt. rewrite Hl, Hm. split.
  - unfold ids. simpl. apply NoDup_cons. rewrite Hid. split.
    + apply pos_notin_unlink.
    + by apply NoDup_ids_unlink.
  - intros k p Hk.
    destruct (decide (k = a)) as [->|Hka];
      [by rewrite lookup_delete_eq in Hk|].
    rewrite lookup_delete_ne in Hk by done.
    destruct (decide (k = b)) as [->|Hkb].
    + rewrite lookup_insert_eq in Hk. injection Hk as <-.
      eexists. split; [by left|]. done.
    + rewrite lookup_insert_ne in Hk by done.
      destruct (Hv k p Hk) as (x & Hx & Hxi & Hxk).
      exists x. split; [|done]. right. apply elem_of_unlink. split; [done|].
      intros Heq. apply Hka. rewrite <- Hxk, <- Hkey. f_equal.
      eapply ids_inj; eauto. congruence.
Qed.

Lemma wf_Rename a b w c : wf c → wf (Rename a b w c).2.
Proof.
  intros Hw. unfold Rename. destruct (decide (a = b)) as [|Hab]; [done|].
  assert (Hc1 : ∃ w1 c1,
    (match m_map c !! b with
     | Some pos =>
         let '(_, w1, c1) := UnguardedErase b pos w c in (w1, c1)
     | None => (w, c)
     end) = (w1, c1) ∧ wf c1 ∧ m_map c1 !! b = None).
  { destruct (m_map c !! b) as [pb|] eqn:Hb.
    - eexists _, _. split; [reflexivity|]. split.
      + by apply (wf_UnguardedErase b pb w c).
      + simpl. apply lookup_delete_eq.
    - eexists _, _. split; [reflexivity|]. done. }
  destruct Hc1 as (w1 & c1 & -> & Hw1 & Hb1).
  destruct (m_map c1 !! a) as [it|] eqn:Ha; [|done].
  simpl. rewrite Hb1. simpl.
  apply (wf_intro c1); [| |simpl; lia|exact Hw1].
  - eapply (iterators_valid_relink c1 _ a b it (File.Rename b));
      [done|apply Hw1|done|done|done|done].
  - simpl. intros x Hx.
    apply update_file_ids_sub in Hx as (y & Hy & ->).
    apply splice_ids_sub in Hy as (z & Hz & ->).
    by apply set_key_ids_sub in Hz.
Qed.

Lemma wf_Resize fileId newFileSize dirTree w c :
  wf c → wf (Resize fileId newFileSize dirTree w c).1.2.
Proof.
  intros Hw. unfold Resize.
  assert (H0 : ∃ opos c0,
    (match m_map c !! fileId with
     | Some pos => (Some pos, c)
     | None => UnguardedNewEmptyFile fileId c
     end) = (opos, c0) ∧ wf c0).
  { destruct (m_map c !! fileId) as [pos|].
    - eauto.
    - pose proof (wf_UnguardedNewEmptyFile fileId c Hw) as Hn.
      destruct (UnguardedNewEmptyFile fileId c). eauto. }
  destruct H0 as (opos & c0 & -> & Hw0).
  destruct opos as [pos|]; [|done].
  destruct (file_at pos c0) as [file|]; [|done].
  destruct (newFileSize =? File.GetSize file); [done|].
  destruct (File.GetSize file <? newFileSize).
  - pose proof (wf_Write fileId (to_off_t (File.GetSize file))
                  (wrap (newFileSize - File.GetSize file))
                  (Some (repeat Byte.x00
                     (Z.to_nat (wrap (newFileSize - File.GetSize file)))))
                  dirTree (File.IsOpen file) w c0 Hw0) as Hwr.
    destruct (Write _ _ _ _ _ _ w c0) as [[[res w1] c1] tree1]. simpl in Hwr.
    destruct (file_at pos c1); [|done].
    destruct (_ =? newFileSize); simpl; by apply wf_set_size.
  - pose proof (wf_update_file pos (File.ResizeToSmallerSize newFileSize)
                  c0 Hw0) as Hu.
    rewrite file_at_update_file.
    destruct (file_at pos c0); [|done]. simpl.
    destruct (_ =? newFileSize); simpl; by apply wf_set_size.
Qed.

Lemma wf_init capacity : wf (init capacity).
Proof.
  split; [split|].
  - constructor.
  - apply map_Forall_empty.
  - constructor.
Qed.

Lemma wf_run op s : wf s.2 → wf (run op s).2.
Proof.
  intros Hw. destruct op; simpl.
  - by apply wf_MakeFile.
  - by apply wf_FindFile.
  - by apply wf_Write.
  - by apply wf_WriteStream.
  - by apply (wf_Resize _ _ _ _ _ Hw).
  - by apply wf_Free.
  - by apply wf_FreeDiskCacheFiles.
  - by apply wf_Erase.
  - by apply wf_Rename.
  - by apply (wf_SetFileOpen _ _ dirTree).
Qed.

(** In every reachable state the list nodes are pairwise distinct and the
    index designates, for each of its keys, a node of the list that carries
    that key: the hypothesis [iterators_valid] of the theorems above is met
    by every state the operations can produce, the states left behind by
    [MakeFile] on a cached identifier included. *)
Lemma reachable_wf s : reachable s → wf s.2.
Proof.
  induction 1 as [w capacity|w w' c _ IH|op s _ IH].
  - apply wf_init.
  - exact IH.
  - by apply wf_run.
Qed.

(** * The size counter *)

Lemma sum_cached_unlink l e :
  NoDup (ids l) → e ∈ l →
  sum_cached (unlink (e_id e) l) = sum_cached l - cached e.
Proof.
  intros Hnd He. apply list_elem_of_split in He as (l1 & l2 & ->).
  rewrite unlink_middle by done. rewrite !sum_cached_app. simpl. lia.
Qed.

Lemma sum_cached_splice pos l :
  NoDup (ids l) → sum_cached (splice_front pos l) = sum_cached l.
Proof.
  intros Hnd. unfold splice_front.
  destruct (node_at pos l) as [e|] eqn:He; [|done].
  apply node_at_Some in He as [He <-]. simpl.
  rewrite sum_cached_unlink by done. lia.
Qed.

Lemma map_node_middle g l1 e l2 :
  NoDup (ids (l1 ++ e :: l2)) →
  map_node (e_id e) g (l1 ++ e :: l2) = l1 ++ g e :: l2.
Proof.
  unfold ids. rewrite fmap_app, fmap_cons. intros Hnd.
  apply NoDup_app in Hnd as (_ & H1 & H2).
  apply NoDup_cons in H2 as [H2 _].
  unfold map_node. rewrite map_app. simpl. rewrite Nat.eqb_refl.
  fold (map_node (e_id e) g l1). fold (map_node (e_id e) g l2).
  rewrite !map_node_absent; [done|done|].
  intros Hin. apply (H1 _ Hin). left.
Qed.

Lemma sum_cached_map_node pos g l :
  NoDup (ids l) →
  sum_cached (map_node pos g l) =
  sum_cached l +
  match node_at pos l with
  | Some e => cached (g e) - cached e
  | None => 0
  end.
Proof.
  intros Hnd. destruct (node_at pos l) as [e|] eqn:He.
  - apply node_at_Some in He as [He <-].
    apply list_elem_of_split in He as (l1 & l2 & ->).
    rewrite map_node_middle by done. rewrite !sum_cached_app. simpl. lia.
  - rewrite map_node_absent; [lia|]. by apply node_at_None.
Qed.

Lemma sum_cached_update_file_same pos g l :
  NoDup (ids l) →
  (∀ f, File.GetCachedSize (g f) = File.GetCachedSize f) →
  sum_cached (update_file pos g l) = sum_cached l.
Proof.
  intros Hnd Hg. unfold update_file. rewrite sum_cached_map_node by done.
  destruct (node_at pos l) as [e|]; [|lia].
  unfold cached. simpl. destruct (e_file e); simpl; [rewrite Hg|]; lia.
Qed.

Lemma sized_same c c' :
  m_size c' = m_size c → sum_cached (m_cache c') = sum_cached (m_cache c) →
  sized c → sized c'.
Proof. unfold sized, size_ok. intros -> ->. done. Qed.

Lemma sized_remove c c' e :
  NoDup (ids (m_cache c)) → e ∈ m_cache c →
  m_cache c' = unlink (e_id e) (m_cache c) →
  m_size c' = wrap (m_size c - cached e) →
  sized c → sized c'.
Proof.
  unfold sized, size_ok. intros Hnd He Hl Hs [Hok Hr].
  rewrite Hl, Hs, Hok, sum_cached_unlink by done.
  pose proof (sum_cached_nonneg (unlink (e_id e) (m_cache c))) as Hnn.
  rewrite sum_cached_unlink in Hnn by done.
  pose proof (cached_nonneg e).
  split; [apply wrap_small|]; lia.
Qed.

Lemma sized_evict_loop enough u w c :
  wf c → sized c → sized (evict_loop enough u (rev (m_cache c)) w c).2.
Proof.
  intros Hw Hs.
  apply (evict_loop_invariant sized enough u).
  - intros c0 e f w0 Hnd H0 He Hf.
    apply (sized_remove c0 _ e); try done.
    simpl. by rewrite (cached_Some e f).
  - intros c0 e Hnd H0 He Hf.
    apply (sized_remove c0 _ e); try done.
    simpl. unfold cached. rewrite Hf. simpl.
    rewrite Z.sub_0_r. symmetry. apply wrap_small.
    destruct H0 as [-> ?]. pose proof (sum_cached_nonneg (m_cache c0)). lia.
  - apply Hw.
  - apply NoDup_ids_rev, Hw.
  - intros x. by rewrite elem_of_rev.
  - done.
Qed.

Lemma sized_Free size u w c : wf c → sized c → sized (Free size u w c).2.
Proof.
  intros Hw Hs. rewrite Free_unfold.
  destruct (GetCapacity c <? size); [done|].
  destruct (HasFreeSpace c size); [done|]. simpl. by apply sized_evict_loop.
Qed.

Lemma sized_FreeDiskCacheFiles size u w c :
  wf c → sized c → sized (FreeDiskCacheFiles size u w c).2.
Proof.
  intros Hw Hs. rewrite FreeDiskCacheFiles_unfold.
  destruct (IsSafeDiskSpace w size); [done|]. simpl.
  by apply sized_evict_loop.
Qed.

Lemma sized_splice pos c :
  wf c → sized c → sized (UnguardedMakeFileMostRecentlyUsed pos c).2.
Proof.
  intros Hw. apply sized_same; [done|]. simpl.
  apply sum_cached_splice, Hw.
Qed.

Lemma sum_cached_cons e l : sum_cached (e :: l) = cached e + sum_cached l.
Proof. reflexivity. Qed.

Lemma sized_UnguardedNewEmptyFile fileId c :
  sized c → sized (UnguardedNewEmptyFile fileId c).2.
Proof.
  destruct (m_map c !! fileId) as [pos|] eqn:Hk.
  - rewrite (UnguardedNewEmptyFile_present _ _ _ Hk).
    apply sized_same; [done|]. cbn [snd m_cache]. by rewrite sum_cached_cons.
  - rewrite (UnguardedNewEmptyFile_absent _ _ Hk).
    apply sized_same; [done|]. cbn [snd m_cache]. by rewrite sum_cached_cons.
Qed.

Lemma sized_update_file_same pos g c :
  wf c → (∀ f, File.GetCachedSize (g f) = File.GetCachedSize f) →
  sized c → sized (set_cache (update_file pos g (m_cache c)) c).
Proof.
  intros Hw Hg. apply sized_same; [done|]. simpl.
  apply sum_cached_update_file_same; [apply Hw|done].
Qed.

Lemma sized_touch fileId c : wf c → sized c → sized (touch fileId c).
Proof.
  intros Hw Hs. unfold touch. destruct (m_map c !! fileId).
  - by apply sized_splice.
  - by apply sized_UnguardedNewEmptyFile.
Qed.

Lemma sized_place fileId avail c :
  wf c → sized c → sized (place fileId avail c).2.
Proof.
  intros Hw Hs. unfold place. destruct (m_map c !! fileId) as [it|] eqn:Hk.
  - simpl. apply (sized_update_file_same it _ (set_cache _ c)); [|done|].
    + by apply (wf_UnguardedMakeFileMostRecentlyUsed it c).
    + by apply (sized_splice it c).
  - pose proof (wf_UnguardedNewEmptyFile fileId c Hw) as Hn.
    pose proof (sized_UnguardedNewEmptyFile fileId c Hs) as Hz.
    rewrite (UnguardedNewEmptyFile_absent _ _ Hk) in Hn, Hz |- *.
    exact (sized_update_file_same (m_next c)
             (File.SetUseDiskFile (negb avail)) _ Hn (fun _ => eq_refl) Hz).
Qed.

Lemma sized_PrepareWrite fileId len w c :
  wf c → sized c → sized (PrepareWrite fileId len w c).2.
Proof.
  intros Hw Hs. unfold PrepareWrite.
  assert (Hpl : ∀ avail (w0 : World) c0, wf c0 → sized c0 →
    sized (let '(pos, c') := place fileId avail c0 in ((true, pos), w0, c')).2).
  { intros avail w0 c0 H0 H1. pose proof (sized_place fileId avail c0 H0 H1).
    by destruct (place fileId avail c0). }
  destruct (HasFreeSpace c len); [by apply Hpl|].
  pose proof (wf_Free len fileId w c Hw) as Hfr.
  pose proof (sized_Free len fileId w c Hw Hs) as Hfs.
  destruct (Free len fileId w c) as [[avail w1] c1]. simpl in Hfr, Hfs.
  destruct avail; [by apply Hpl|].
  destruct (CreateDirectoryIfNotExists w1); [|done]. simpl.
  destruct (IsSafeDiskSpace w1 len); [by apply Hpl|].
  pose proof (wf_FreeDiskCacheFiles len fileId w1 c1 Hfr) as Hfd.
  pose proof (sized_FreeDiskCacheFiles len fileId w1 c1 Hfr Hfs) as Hfz.
  destruct (FreeDiskCacheFiles len fileId w1 c1) as [[ok w2] c2].
  simpl in Hfd, Hfz. destruct ok; [by apply Hpl|done].
Qed.

(** What the cache relies on from [File.Write]: the first reported number is
    the growth of the file's cached size, and a failed write leaves the file
    as it was. *)
Lemma File_Write_cached off len src o w f ok added addedDisk w2 f' :
  File.Write off len src o w f = ((ok, added, addedDisk), w2, f') →
  if ok then File.GetCachedSize f' = File.GetCachedSize f + added
  else f' = f.
Proof.
  unfold File.Write. destruct (_ && _).
  - by intros [= <- <- <- <- <-].
  - intros [= <- <- <- <- <-]. unfold File.GetCachedSize. simpl. lia.
Qed.

Lemma file_at_node pos c f :
  file_at pos c = Some f →
  ∃ e, node_at pos (m_cache c) = Some e ∧ e_file e = Some f.
Proof.
  unfold file_at. destruct (node_at pos (m_cache c)) as [e|]; [|done].
  simpl. eauto.
Qed.

Lemma wrap_add_wrap a b : wrap (a + wrap b) = wrap (a + b).
Proof. unfold wrap. apply Z.add_mod_idemp_r. lia. Qed.

Lemma sized_intro c' :
  m_size c' = wrap (sum_cached (m_cache c')) →
  sum_cached (m_cache c') < 2 ^ 64 → sized c'.
Proof.
  intros Hs Hr. split; [|done]. unfold size_ok. rewrite Hs.
  apply wrap_small. pose proof (sum_cached_nonneg (m_cache c')). lia.
Qed.

Lemma sized_write_valid fileId offset len src dirTree o w c :
  wf c → sized c →
  sum_cached (m_cache (write_valid fileId offset len src dirTree o w c).1.2)
    < 2 ^ 64 →
  sized (write_valid fileId offset len src dirTree o w c).1.2.
Proof.
  intros Hw Hs. unfold write_valid.
  pose proof (wf_PrepareWrite fileId len w c Hw) as Hp.
  pose proof (sized_PrepareWrite fileId len w c Hw Hs) as Hz.
  destruct (PrepareWrite fileId len w c) as [[[ok res] w1] c1].
  simpl in Hp, Hz.
  destruct ok; [|done]. destruct res as [pos|]; [|done].
  destruct (file_at pos c1) as [file|] eqn:Hf; [|done].
  destruct (File.Write offset len src o w1 file)
    as [[[[okf added] ad] w2] f'] eqn:Hwr.
  apply File_Write_cached in Hwr.
  apply file_at_node in Hf as (e & He & Hef).
  assert (Hsum : sum_cached (update_file pos (fun _ => f') (m_cache c1)) =
                 sum_cached (m_cache c1)
                 + (File.GetCachedSize f' - File.GetCachedSize file)).
  { unfold update_file. rewrite sum_cached_map_node by apply Hp.
    rewrite He. unfold cached. simpl. by rewrite Hef. }
  destruct okf.
  - simpl. intros Hr. apply sized_intro; [|done]. simpl.
    rewrite Hsum. destruct Hz as [-> _]. f_equal. lia.
  - intros _. subst f'. apply (sized_same c1); [done| |done].
    simpl. rewrite Hsum. lia.
Qed.

Lemma sized_Write fileId offset len buffer dirTree o w c :
  wf c → sized c →
  sum_cached (m_cache (Write fileId offset len buffer dirTree o w c).1.2)
    < 2 ^ 64 →
  sized (Write fileId offset len buffer dirTree o w c).1.2.
Proof.
  intros Hw Hs. unfold Write.
  destruct (len =? 0); [intros _; by apply sized_touch|].
  destruct buffer as [src|]; [|done].
  destruct (_ && _); [by apply sized_write_valid|done].
Qed.

Lemma sized_WriteStream fileId offset len stream dirTree o w c :
  wf c → sized c →
  sum_cached (m_cache (WriteStream fileId offset len stream dirTree o w c).1.2)
    < 2 ^ 64 →
  sized (WriteStream fileId offset len stream dirTree o w c).1.2.
Proof.
  intros Hw Hs. unfold WriteStream.
  destruct (len =? 0); [intros _; by apply sized_touch|].
  destruct stream as [src|]; [|done].
  destruct (_ && _); [|done].
  destruct (len <=? _); [by apply sized_write_valid|done].
Qed.

Lemma sized_UnguardedErase fileId pos w c :
  m_map c !! fileId = Some pos → wf c → sized c →
  sized (UnguardedErase fileId pos w c).2.
Proof.
  intros Hk Hw Hs.
  destruct (iterators_valid_node c fileId pos (proj1 Hw) Hk)
    as (e & Hn & He & <- & _).
  apply (sized_remove c _ e); [apply Hw|done|done| |done].
  simpl. unfold file_at. rewrite Hn. done.
Qed.

Lemma sized_Erase fileId w c : wf c → sized c → sized (Erase fileId w c).2.
Proof.
  intros Hw Hs. unfold Erase. destruct (m_map c !! fileId) eqn:Hk; [|done].
  by apply sized_UnguardedErase.
Qed.

Lemma sized_SetFileOpen fileId o dirTree c :
  wf c → sized c → sized (SetFileOpen fileId o dirTree c).1.
Proof.
  intros Hw Hs. unfold SetFileOpen. simpl.
  destruct (m_map c !! fileId); [by apply sized_update_file_same|done].
Qed.

Lemma sized_MakeFile fileId c : sized c → sized (MakeFile fileId c).2.
Proof.
  intros Hs. unfold MakeFile.
  pose proof (sized_UnguardedNewEmptyFile fileId c Hs) as Hn.
  destruct (UnguardedNewEmptyFile fileId c) as [[p|] c']; done.
Qed.

Lemma sized_FindFile filePath c : wf c → sized c → sized (FindFile filePath c).2.
Proof.
  intros Hw Hs. unfold FindFile.
  destruct (m_map c !! filePath) as [it|]; [|done].
  by apply (sized_splice it c).
Qed.

Lemma sized_Rename a b w c : wf c → sized c → sized (Rename a b w c).2.
Proof.
  intros Hw Hs. unfold Rename. destruct (decide (a = b)) as [|Hab]; [done|].
  assert (Hc1 : ∃ w1 c1,
    (match m_map c !! b with
     | Some pos =>
         let '(_, w1, c1) := UnguardedErase b pos w c in (w1, c1)
     | None => (w, c)
     end) = (w1, c1) ∧ wf c1 ∧ sized c1).
  { destruct (m_map c !! b) as [pb|] eqn:Hb.
    - eexists _, _. split; [reflexivity|]. split.
      + by apply (wf_UnguardedErase b pb w c).
      + by apply (sized_UnguardedErase b pb w c).
    - eexists _, _. split; [reflexivity|]. done. }
  destruct Hc1 as (w1 & c1 & -> & Hw1 & Hs1).
  destruct (m_map c1 !! a) as [it|] eqn:Ha; [|done].
  destruct (iterators_valid_node c1 a it (proj1 Hw1) Ha)
    as (e & Hn & He & Hid & _).
  apply (sized_same c1); [done| |done]. simpl.
  rewrite (relink_shape it b _ _ e Hn), sum_cached_cons.
  rewrite <- Hid, sum_cached_unlink; [|apply Hw1|done].
  unfold cached. simpl. destruct (e_file e); simpl;
    unfold File.GetCachedSize; simpl; lia.
Qed.

Lemma sized_Resize_not_grow fileId newFileSize dirTree w c :
  wf c → sized c → ¬ GetFileSize c fileId < newFileSize →
  sum_cached (m_cache (Resize fileId newFileSize dirTree w c).1.2) < 2 ^ 64 →
  sized (Resize fileId newFileSize dirTree w c).1.2.
Proof.
  intros Hw Hs Hng. unfold Resize.
  assert (H0 : ∃ opos c0,
    (match m_map c !! fileId with
     | Some pos => (Some pos, c)
     | None => UnguardedNewEmptyFile fileId c
     end) = (opos, c0) ∧ wf c0 ∧ sized c0 ∧
    ∀ pos file, opos = Some pos → file_at pos c0 = Some file →
                File.GetSize file = GetFileSize c fileId).
  { unfold GetFileSize. destruct (m_map c !! fileId) as [pos|] eqn:Hk.
    - eexists _, _. split; [reflexivity|]. split_and!; [done|done|].
      intros p file [= <-] Hf. by rewrite Hf.
    - pose proof (wf_UnguardedNewEmptyFile fileId c Hw) as Hn.
      pose proof (sized_UnguardedNewEmptyFile fileId c Hs) as Hz.
      rewrite (UnguardedNewEmptyFile_absent _ _ Hk) in Hn, Hz |- *.
      eexists _, _. split; [reflexivity|]. split_and!; [done|done|].
      intros p file [= <-]. unfold file_at, node_at. simpl.
      rewrite Nat.eqb_refl. simpl. by intros [= <-]. }
  destruct H0 as (opos & c0 & -> & Hw0 & Hs0 & Hold).
  destruct opos as [pos|]; [|done].
  destruct (file_at pos c0) as [file|] eqn:Hf; [|done].
  rewrite <- (Hold pos file eq_refl Hf) in Hng.
  destruct (newFileSize =? File.GetSize file); [done|].
  destruct (Z.ltb_spec (File.GetSize file) newFileSize) as [|_]; [lia|].
  rewrite file_at_update_file, Hf. cbn [fmap option_fmap option_map].
  apply file_at_node in Hf as (e & He & Hef).
  assert (Hsum : sum_cached
                   (update_file pos (File.ResizeToSmallerSize newFileSize)
                      (m_cache c0)) =
                 sum_cached (m_cache c0)
                 + (File.GetCachedSize
                      (File.ResizeToSmallerSize newFileSize file)
                    - File.GetCachedSize file)).
  { unfold update_file. rewrite sum_cached_map_node by apply Hw0.
    rewrite He. unfold cached. simpl. by rewrite Hef. }
  assert (Hgoal : ∀ c2,
    m_cache c2 = update_file pos (File.ResizeToSmallerSize newFileSize)
                   (m_cache c0) →
    m_size c2 = wrap (m_size c0 + wrap
                  (File.GetCachedSize
                     (File.ResizeToSmallerSize newFileSize file)
                   - File.GetCachedSize file)) →
    sum_cached (m_cache c2) < 2 ^ 64 → sized c2).
  { intros c2 Hl Hm Hr. apply sized_intro; [|done].
    rewrite Hm, Hl, Hsum, wrap_add_wrap. destruct Hs0 as [-> _].
    f_equal; lia. }
  destruct (_ =? newFileSize); simpl; intros Hr; by apply Hgoal.
Qed.

(** Invariant 1 under every operation but a growing [Resize]: if the counter
    equals the cached bytes before the operation, it does so after it, as
    long as the cached bytes still fit a [size_t]. *)
Lemma sized_run op s :
  wf s.2 → sized s.2 → ¬ grows op s.2 →
  sum_cached (m_cache (run op s).2) < 2 ^ 64 →
  sized (run op s).2.
Proof.
  intros Hw Hs Hng. destruct op; simpl in *.
  - intros _. by apply sized_MakeFile.
  - intros _. by apply sized_FindFile.
  - by apply sized_Write.
  - by apply sized_WriteStream.
  - by apply sized_Resize_not_grow.
  - intros _. by apply sized_Free.
  - intros _. by apply sized_FreeDiskCacheFiles.
  - intros _. by apply sized_Erase.
  - intros _. by apply sized_Rename.
  - intros _. by apply (sized_SetFileOpen _ _ dirTree).
Qed.

(** ** The growing [Resize] *)

Lemma update_file_head pos g e l :
  e_id e = pos → pos ∉ ids l →
  update_file pos g (e :: l) =
  {| e_id := e_id e; e_key := e_key e; e_file := g <$> e_file e |} :: l.
Proof.
  intros He Hl. unfold update_file, map_node. simpl.
  rewrite He, Nat.eqb_refl. f_equal. by apply map_node_absent.
Qed.

Lemma splice_front_head pos e l :
  e_id e = pos → pos ∉ ids l → splice_front pos (e :: l) = e :: l.
Proof.
  intros He Hl. unfold splice_front, node_at. simpl.
  rewrite He, Nat.eqb_refl. f_equal. rewrite <- He at 1.
  rewrite unlink_cons_eq, He. by apply unlink_absent.
Qed.

Lemma length_src_range off src lo hi :
  Z.of_nat (length (File.src_range off src lo hi)) = Z.max 0 (hi - lo).
Proof. unfold File.src_range. rewrite length_map, length_seq. lia. Qed.

Lemma File_Write_make off len src o w fileId :
  0 < len →
  ∃ f', File.Write off len src o w (File.make fileId) =
          ((true, len, 0), consume_disk 0 w, f') ∧
        File.GetCachedSize f' = len.
Proof.
  intros Hlen.
  set (bs := File.src_range off src off (off + len)).
  assert (Hbs : Z.of_nat (length bs) = len).
  { subst bs. rewrite length_src_range. lia. }
  assert (Hps : File.write_pages false off src off (off + len) [] =
                [Page.make false off bs]).
  { cbn [File.write_pages]. destruct (Z.ltb_spec off (off + len)); [done|lia]. }
  assert (Hmem : File.mem_bytes [Page.make false off bs] = len).
  { cbn [File.mem_bytes foldr]. change (Page.in_memory _) with true.
    cbv iota. unfold Page.size. change (Page.bytes _) with bs. lia. }
  assert (Hdisk : File.disk_bytes [Page.make false off bs] = 0).
  { cbn [File.disk_bytes foldr]. change (Page.in_memory _) with true.
    cbv iota. lia. }
  unfold File.Write.
  change (File.useDiskFile (File.make fileId)) with false.
  change (File.pages (File.make fileId)) with (@nil Page.t).
  rewrite Hps, Hmem, Hdisk.
  change (File.mem_bytes []) with 0. change (File.disk_bytes []) with 0.
  rewrite !Z.sub_0_r. change (0 <? 0) with false. cbn [andb].
  eexists. split; [reflexivity|].
  unfold File.GetCachedSize. cbn [File.pages File.SetOpen File.set_pages].
  exact Hmem.
Qed.

(** Why [sized_run] leaves the growing [Resize] out: whenever a file that is
    not cached is resized to [n > 0] bytes and memory has room for them, the
    counter grows by [2 * n] while [n] bytes are added to the cache. *)
Lemma Resize_absent_counts_twice fileId n dirTree w c :
  wf c → m_map c !! fileId = None → fileId ≠ EmptyString →
  0 < n < 2 ^ 63 → HasFreeSpace c n = true →
  m_size (Resize fileId n dirTree w c).1.2 = wrap (m_size c + 2 * n) ∧
  sum_cached (m_cache (Resize fileId n dirTree w c).1.2) =
    sum_cached (m_cache c) + n.
Proof.
  intros [Hv Hf] Hk Hid Hn Hfs.
  pose proof (fresh_not_in c Hf) as Hfresh.
  unfold Resize. rewrite Hk, (UnguardedNewEmptyFile_absent _ _ Hk).
  set (e0 := {| e_id := m_next c; e_key := fileId;
                e_file := Some (File.make fileId) |}).
  set (c0 := {| m_size := m_size c; m_capacity := m_capacity c;
                m_cache := e0 :: m_cache c;
                m_map := <[fileId := m_next c]> (m_map c);
                m_next := S (m_next c) |}).
  assert (Hfa : file_at (m_next c) c0 = Some (File.make fileId)).
  { unfold file_at, node_at. simpl. by rewrite Nat.eqb_refl. }
  rewrite Hfa.
  change (File.GetSize (File.make fileId)) with 0.
  change (File.GetCachedSize (File.make fileId)) with 0.
  change (File.IsOpen (File.make fileId)) with false.
  destruct (Z.eqb_spec n 0) as [|_]; [lia|].
  destruct (Z.ltb_spec 0 n) as [_|]; [|lia].
  rewrite Z.sub_0_r. rewrite (wrap_small n) by lia.
  change (to_off_t 0) with 0.
  rewrite Write_valid_input by (try done; lia).
  unfold write_valid.
  assert (Hp : PrepareWrite fileId n w c0 = ((true, Some (m_next c)), w, c0)).
  { unfold PrepareWrite.
    change (HasFreeSpace c0 n) with (HasFreeSpace c n). rewrite Hfs.
    unfold place. cbn [m_map c0]. rewrite lookup_insert_eq.
    cbn [UnguardedMakeFileMostRecentlyUsed m_cache set_cache c0].
    rewrite splice_front_head by done.
    rewrite update_file_head by done. done. }
  rewrite Hp, Hfa.
  destruct (File_Write_make 0 n (repeat Byte.x00 (Z.to_nat n)) false w fileId)
    as (f' & -> & Hc); [lia|].
  cbn [m_cache c0 set_cache set_size m_size].
  rewrite update_file_head by done.
  cbn [fst snd].
  unfold file_at, node_at. cbn [m_cache set_size set_cache find e_id e0].
  rewrite Nat.eqb_refl. cbn [mbind option_bind e_file fmap option_fmap option_map e0].
  rewrite Hc, Z.sub_0_r, (wrap_small n) by lia.
  assert (Hgoal : ∀ (r : World * Cache.t * option DirectoryTree.t),
    m_size r.1.2 = wrap (wrap (m_size c + n) + n) →
    m_cache r.1.2 = {| e_id := m_next c; e_key := fileId; e_file := Some f' |}
                    :: m_cache c →
    m_size r.1.2 = wrap (m_size c + 2 * n) ∧
    sum_cached (m_cache r.1.2) = sum_cached (m_cache c) + n).
  { intros r -> ->. split.
    - rewrite Z.add_comm, wrap_add_wrap. f_equal. lia.
    - rewrite sum_cached_cons. unfold cached. simpl. lia. }
  destruct (File.GetSize f' =? n); by apply Hgoal.
Qed.

(** * Agreement of index and order *)

Lemma update_file_same_node pos g l x :
  x ∈ update_file pos g l →
  ∃ y, y ∈ l ∧ e_id x = e_id y ∧ e_key x = e_key y.
Proof.
  intros Hx. apply elem_of_map_node in Hx as (y & Hy & [->|[_ ->]]); eauto.
Qed.

Section Agreement.
Context (c c' : Cache.t).

Lemma index_agrees_splice pos :
  m_cache c' = splice_front pos (m_cache c) → m_map c' = m_map c →
  index_agrees c → index_agrees c'.
Proof.
  rewrite !index_agrees_alt. intros Hl Hm [Hv Hi]. split.
  - by eapply iterators_valid_splice.
  - rewrite Hl, Hm. intros x Hx. apply Hi.
    by rewrite elem_of_splice in Hx by apply Hv.
Qed.

Lemma index_agrees_update_file pos g :
  m_cache c' = update_file pos g (m_cache c) → m_map c' = m_map c →
  index_agrees c → index_agrees c'.
Proof.
  rewrite !index_agrees_alt. intros Hl Hm [Hv Hi]. split.
  - by eapply iterators_valid_update_file.
  - rewrite Hl, Hm. intros x Hx.
    apply update_file_same_node in Hx as (y & Hy & -> & ->). by apply Hi.
Qed.

Lemma index_agrees_remove e :
  m_cache c' = unlink (e_id e) (m_cache c) →
  m_map c' = delete (e_key e) (m_map c) →
  e ∈ m_cache c → index_agrees c → index_agrees c'.
Proof.
  rewrite !index_agrees_alt. intros Hl Hm He [Hv Hi]. split.
  - by eapply iterators_valid_remove.
  - rewrite Hl, Hm. intros x Hx. apply elem_of_unlink in Hx as [Hx Hne].
    rewrite lookup_delete_ne; [by apply Hi|].
    intros Heq. apply Hne.
    pose proof (Hi x Hx) as H1. pose proof (Hi e He) as H2.
    rewrite Heq in H2. congruence.
Qed.

Lemma index_agrees_erase k pos :
  m_cache c' = unlink pos (m_cache c) → m_map c' = delete k (m_map c) →
  m_map c !! k = Some pos → index_agrees c → index_agrees c'.
Proof.
  intros Hl Hm Hk Ha.
  destruct (iterators_valid_lookup c k pos (proj1 Ha) Hk) as (e & He & <- & <-).
  by eapply index_agrees_remove.
Qed.

Lemma index_agrees_push e :
  m_cache c' = e :: m_cache c →
  m_map c' = <[e_key e := e_id e]> (m_map c) →
  m_map c !! e_key e = None →
  e_id e ∉ ids (m_cache c) → index_agrees c → index_agrees c'.
Proof.
  rewrite !index_agrees_alt. intros Hl Hm Hk Hfresh [Hv Hi]. split.
  - eapply (iterators_valid_push c c' e); [done|by right|done|done].
  - rewrite Hl, Hm. intros x [->|Hx]%elem_of_cons.
    + apply lookup_insert_eq.
    + rewrite lookup_insert_ne; [by apply Hi|].
      intros Heq. specialize (Hi x Hx). rewrite <- Heq in Hi. congruence.
Qed.

Lemma index_agrees_relink a b it g :
  a ≠ b → index_agrees c →
  m_map c !! a = Some it → m_map c !! b = None →
  m_cache c' = update_file it g (splice_front it (set_key it b (m_cache c))) →
  m_map c' = delete a (<[b := it]> (m_map c)) →
  index_agrees c'.
Proof.
  rewrite !index_agrees_alt. intros Hab [Hv Hi] Ha Hb Hl Hm. split.
  - by eapply (iterators_valid_relink c c' a b it g).
  - destruct (iterators_valid_node c a it Hv Ha) as (e & Hn & He & Hid & Hkey).
    rewrite (relink_shape it b g _ e Hn) in Hl. rewrite Hl, Hm.
    intros x [->|Hx]%elem_of_cons.
    + simpl. rewrite lookup_delete_ne by done.
      rewrite lookup_insert_eq. by rewrite Hid.
    + apply elem_of_unlink in Hx as [Hx Hne].
      pose proof (Hi x Hx) as H1.
      rewrite lookup_delete_ne by (intros Heq; rewrite <- Heq in H1; congruence).
      rewrite lookup_insert_ne by (intros Heq; rewrite <- Heq in H1; congruence).
      done.
Qed.

End Agreement.

Lemma index_agrees_evict_loop enough u w c :
  index_agrees c →
  index_agrees (evict_loop enough u (rev (m_cache c)) w c).2.
Proof.
  intros Ha.
  apply (evict_loop_invariant index_agrees enough u).
  - intros c0 e f w0 _ H0 He _.
    by apply (index_agrees_remove c0 _ e).
  - intros c0 e _ H0 He _.
    by apply (index_agrees_remove c0 _ e).
  - apply Ha.
  - apply NoDup_ids_rev, Ha.
  - intros x. by rewrite elem_of_rev.
  - done.
Qed.

Lemma index_agrees_Free size u w c :
  index_agrees c → index_agrees (Free size u w c).2.
Proof.
  intros Ha. rewrite Free_unfold.
  destruct (GetCapacity c <? size); [done|].
  destruct (HasFreeSpace c size); [done|]. simpl.
  by apply index_agrees_evict_loop.
Qed.

Lemma index_agrees_FreeDiskCacheFiles size u w c :
  index_agrees c → index_agrees (FreeDiskCacheFiles size u w c).2.
Proof.
  intros Ha. rewrite FreeDiskCacheFiles_unfold.
  destruct (IsSafeDiskSpace w size); [done|]. simpl.
  by apply index_agrees_evict_loop.
Qed.

Lemma index_agrees_MostRecentlyUsed pos c :
  index_agrees c → index_agrees (UnguardedMakeFileMostRecentlyUsed pos c).2.
Proof. intros Ha. by eapply (index_agrees_splice c _ pos). Qed.

Lemma index_agrees_set_file pos g c :
  index_agrees c → index_agrees (set_cache (update_file pos g (m_cache c)) c).
Proof. intros Ha. by eapply (index_agrees_update_file c _ pos g). Qed.

Lemma index_agrees_set_size sz c : index_agrees c → index_agrees (set_size sz c).
Proof. intros [[? ?] ?]. split; [split|]; done. Qed.

Lemma index_agrees_NewEmptyFile fileId c :
  fresh_ok c → m_map c !! fileId = None → index_agrees c →
  index_agrees (UnguardedNewEmptyFile fileId c).2.
Proof.
  intros Hf Hk Ha. rewrite (UnguardedNewEmptyFile_absent _ _ Hk).
  eapply (index_agrees_push c _
            {| e_id := m_next c; e_key := fileId;
               e_file := Some (File.make fileId) |});
    [done|done|done|by apply fresh_not_in|done].
Qed.

Lemma index_agrees_touch fileId c :
  wf c → index_agrees c → index_agrees (touch fileId c).
Proof.
  intros Hw Ha. unfold touch. destruct (m_map c !! fileId) eqn:Hk.
  - by apply index_agrees_MostRecentlyUsed.
  - apply index_agrees_NewEmptyFile; [apply Hw|done|done].
Qed.

Lemma index_agrees_place fileId avail c :
  wf c → index_agrees c → index_agrees (place fileId avail c).2.
Proof.
  intros Hw Ha. unfold place. destruct (m_map c !! fileId) as [it|] eqn:Hk.
  - simpl. apply (index_agrees_set_file it _ (set_cache _ c)).
    by apply (index_agrees_MostRecentlyUsed it c).
  - pose proof (index_agrees_NewEmptyFile fileId c (proj2 Hw) Hk Ha) as Hn.
    rewrite (UnguardedNewEmptyFile_absent _ _ Hk) in Hn |- *.
    exact (index_agrees_set_file (m_next c)
             (File.SetUseDiskFile (negb avail)) _ Hn).
Qed.

Lemma index_agrees_PrepareWrite fileId len w c :
  wf c → index_agrees c → index_agrees (PrepareWrite fileId len w c).2.
Proof.
  intros Hw Ha. unfold PrepareWrite.
  assert (Hpl : ∀ avail (w0 : World) c0, wf c0 → index_agrees c0 →
    index_agrees
      (let '(pos, c') := place fileId avail c0 in ((true, pos), w0, c')).2).
  { intros avail w0 c0 H0 H1.
    pose proof (index_agrees_place fileId avail c0 H0 H1).
    by destruct (place fileId avail c0). }
  destruct (HasFreeSpace c len); [by apply Hpl|].
  pose proof (wf_Free len fileId w c Hw) as Hfr.
  pose proof (index_agrees_Free len fileId w c Ha) as Hfa.
  destruct (Free len fileId w c) as [[avail w1] c1]. simpl in Hfr, Hfa.
  destruct avail; [by apply Hpl|].
  destruct (CreateDirectoryIfNotExists w1); [|done]. simpl.
  destruct (IsSafeDiskSpace w1 len); [by apply Hpl|].
  pose proof (wf_FreeDiskCacheFiles len fileId w1 c1 Hfr) as Hfd.
  pose proof (index_agrees_FreeDiskCacheFiles len fileId w1 c1 Hfa) as Hfz.
  destruct (FreeDiskCacheFiles len fileId w1 c1) as [[ok w2] c2].
  simpl in Hfd, Hfz. destruct ok; [by apply Hpl|done].
Qed.

Lemma index_agrees_write_valid fileId offset len src dirTree o w c :
  wf c → index_agrees c →
  index_agrees (write_valid fileId offset len src dirTree o w c).1.2.
Proof.
  intros Hw Ha. unfold write_valid.
  pose proof (index_agrees_PrepareWrite fileId len w c Hw Ha) as Hp.
  destruct (PrepareWrite fileId len w c) as [[[ok res] w1] c1]. simpl in Hp.
  destruct ok; [|done]. destruct res as [pos|]; [|done].
  destruct (file_at pos c1) as [file|]; [|done].
  destruct (File.Write offset len src o w1 file) as [[[[okf added] ad] w2] f'].
  pose proof (index_agrees_set_file pos (fun _ => f') c1 Hp) as Hu.
  destruct okf; [|done]. simpl. by apply index_agrees_set_size.
Qed.

Lemma index_agrees_Write fileId offset len buffer dirTree o w c :
  wf c → index_agrees c →
  index_agrees (Write fileId offset len buffer dirTree o w c).1.2.
Proof.
  intros Hw Ha. unfold Write.
  destruct (len =? 0); [by apply index_agrees_touch|].
  destruct buffer as [src|]; [|done].
  destruct (_ && _); [by apply index_agrees_write_valid|done].
Qed.

Lemma index_agrees_WriteStream fileId offset len stream dirTree o w c :
  wf c → index_agrees c →
  index_agrees (WriteStream fileId offset len stream dirTree o w c).1.2.
Proof.
  intros Hw Ha. unfold WriteStream.
  destruct (len =? 0); [by apply index_agrees_touch|].
  destruct stream as [src|]; [|done].
  destruct (_ && _); [|done].
  destruct (len <=? _); [by apply index_agrees_write_valid|done].
Qed.

Lemma index_agrees_UnguardedErase fileId pos w c :
  m_map c !! fileId = Some pos → index_agrees c →
  index_agrees (UnguardedErase fileId pos w c).2.
Proof. intros Hk Ha. by eapply (index_agrees_erase c _ fileId pos). Qed.

Lemma index_agrees_Erase fileId w c :
  index_agrees c → index_agrees (Erase fileId w c).2.
Proof.
  intros Ha. unfold Erase. destruct (m_map c !! fileId) eqn:Hk; [|done].
  by apply index_agrees_UnguardedErase.
Qed.

Lemma index_agrees_SetFileOpen fileId o dirTree c :
  index_agrees c → index_agrees (SetFileOpen fileId o dirTree c).1.
Proof.
  intros Ha. unfold SetFileOpen. simpl.
  destruct (m_map c !! fileId); [by apply index_agrees_set_file|done].
Qed.

Lemma index_agrees_FindFile filePath c :
  index_agrees c → index_agrees (FindFile filePath c).2.
Proof.
  intros Ha. unfold FindFile.
  destruct (m_map c !! filePath) as [it|]; [|done].
  by apply (index_agrees_MostRecentlyUsed it c).
Qed.

Lemma index_agrees_MakeFile_absent fileId c :
  wf c → HasFile c fileId ≠ true → index_agrees c →
  index_agrees (MakeFile fileId c).2.
Proof.
  intros Hw Hh Ha. apply not_true_is_false, HasFile_false in Hh.
  unfold MakeFile.
  pose proof (index_agrees_NewEmptyFile fileId c (proj2 Hw) Hh Ha) as Hn.
  destruct (UnguardedNewEmptyFile fileId c) as [[p|] c']; done.
Qed.

Lemma index_agrees_Rename a b w c :
  index_agrees c → index_agrees (Rename a b w c).2.
Proof.
  intros Hg. unfold Rename. destruct (decide (a = b)) as [|Hab]; [done|].
  assert (Hc1 : ∃ w1 c1,
    (match m_map c !! b with
     | Some pos =>
         let '(_, w1, c1) := UnguardedErase b pos w c in (w1, c1)
     | None => (w, c)
     end) = (w1, c1) ∧ index_agrees c1 ∧ m_map c1 !! b = None).
  { destruct (m_map c !! b) as [pb|] eqn:Hb.
    - eexists _, _. split; [reflexivity|]. split.
      + by apply (index_agrees_UnguardedErase b pb w c).
      + simpl. apply lookup_delete_eq.
    - eexists _, _. split; [reflexivity|]. done. }
  destruct Hc1 as (w1 & c1 & -> & Hg1 & Hb1).
  destruct (m_map c1 !! a) as [it|] eqn:Ha; [|done].
  simpl. rewrite Hb1. simpl.
  by eapply (index_agrees_relink c1 _ a b it (File.Rename b)).
Qed.

Lemma index_agrees_Resize fileId newFileSize dirTree w c :
  wf c → index_agrees c →
  index_agrees (Resize fileId newFileSize dirTree w c).1.2.
Proof.
  intros Hw Ha. unfold Resize.
  assert (H0 : ∃ opos c0,
    (match m_map c !! fileId with
     | Some pos => (Some pos, c)
     | None => UnguardedNewEmptyFile fileId c
     end) = (opos, c0) ∧ wf c0 ∧ index_agrees c0).
  { destruct (m_map c !! fileId) as [pos|] eqn:Hk.
    - eauto.
    - pose proof (wf_UnguardedNewEmptyFile fileId c Hw) as Hn.
      pose proof (index_agrees_NewEmptyFile fileId c (proj2 Hw) Hk Ha) as Hi.
      destruct (UnguardedNewEmptyFile fileId c). eauto. }
  destruct H0 as (opos & c0 & -> & Hw0 & Ha0).
  destruct opos as [pos|]; [|done].
  destruct (file_at pos c0) as [file|]; [|done].
  destruct (newFileSize =? File.GetSize file); [done|].
  destruct (File.GetSize file <? newFileSize).
  - pose proof (index_agrees_Write fileId (to_off_t (File.GetSize file))
                  (wrap (newFileSize - File.GetSize file))
                  (Some (repeat Byte.x00
                     (Z.to_nat (wrap (newFileSize - File.GetSize file)))))
                  dirTree (File.IsOpen file) w c0 Hw0 Ha0) as Hwr.
    destruct (Write _ _ _ _ _ _ w c0) as [[[res w1] c1] tree1]. simpl in Hwr.
    destruct (file_at pos c1); [|done].
    destruct (_ =? newFileSize); simpl; by apply index_agrees_set_size.
  - pose proof (index_agrees_set_file pos
                  (File.ResizeToSmallerSize newFileSize) c0 Ha0) as Hu.
    rewrite file_at_update_file.
    destruct (file_at pos c0); [|done]. simpl.
    destruct (_ =? newFileSize); simpl; by apply index_agrees_set_size.
Qed.

(** Invariant 4 under every operation but [MakeFile] on a cached
    identifier. *)
Lemma index_agrees_run op s :
  wf s.2 → index_agrees s.2 → ¬ remakes op s.2 →
  index_agrees (run op s).2.
Proof.
  intros Hw Ha Hnr. destruct op; simpl in *.
  - by apply index_agrees_MakeFile_absent.
  - by apply index_agrees_FindFile.
  - by apply index_agrees_Write.
  - by apply index_agrees_WriteStream.
  - by apply index_agrees_Resize.
  - by apply index_agrees_Free.
  - by apply index_agrees_FreeDiskCacheFiles.
  - by apply index_agrees_Erase.
  - by apply index_agrees_Rename.
  - by apply (index_agrees_SetFileOpen _ _ dirTree).
Qed.

(** ** [MakeFile] on a cached identifier *)

(** Why [index_agrees_run] leaves it out: the entry pushed at the front is
    never the one the index designates. *)
Lemma MakeFile_present_breaks_agreement fileId c :
  wf c → HasFile c fileId = true → ¬ index_agrees (MakeFile fileId c).2.
Proof.
  intros [Hv Hf] Hh Ha. apply HasFile_true in Hh as [pos Hk].
  unfold MakeFile in Ha. rewrite (UnguardedNewEmptyFile_present _ _ _ Hk) in Ha.
  apply index_agrees_alt in Ha as [_ Hi]. simpl in Hi.
  specialize (Hi _ (list_elem_of_here _ _)). simpl in Hi.
  rewrite Hk in Hi. injection Hi as ->.
  destruct (iterators_valid_lookup c fileId (m_next c) Hv Hk) as (e & He & Hid & _).
  apply (fresh_not_in c Hf). rewrite <- Hid. unfold ids.
  apply list_elem_of_fmap. eauto.
Qed.

(** * No null pointer is ever stored *)

Lemma no_null_alt c : no_null c ↔ ∀ e, e ∈ m_cache c → is_Some (e_file e).
Proof. unfold no_null. by rewrite Forall_forall. Qed.

Lemma no_null_sub c c' :
  (∀ x, x ∈ m_cache c' → x ∈ m_cache c) → no_null c → no_null c'.
Proof. rewrite !no_null_alt. auto. Qed.

Lemma no_null_update_file pos g c :
  no_null c → no_null (set_cache (update_file pos g (m_cache c)) c).
Proof.
  rewrite !no_null_alt. intros Hn x Hx. simpl in Hx.
  apply elem_of_map_node in Hx as (y & Hy & [->|[_ ->]]); [by apply Hn|].
  simpl. destruct (Hn y Hy) as [f ->]. by eexists.
Qed.

Lemma no_null_splice pos c :
  no_null c → no_null (UnguardedMakeFileMostRecentlyUsed pos c).2.
Proof.
  rewrite !no_null_alt. intros Hn x Hx. simpl in Hx. apply Hn.
  unfold splice_front in Hx.
  destruct (node_at pos (m_cache c)) as [e|] eqn:He; [|done].
  apply node_at_Some in He as [He _].
  apply elem_of_cons in Hx as [->|Hx]; [done|].
  by apply elem_of_unlink in Hx as [? _].
Qed.

Lemma no_null_UnguardedNewEmptyFile fileId c :
  no_null c → no_null (UnguardedNewEmptyFile fileId c).2.
Proof.
  rewrite !no_null_alt. intros Hn.
  assert (Hc : ∀ x, x ∈ {| e_id := m_next c; e_key := fileId;
                           e_file := Some (File.make fileId) |} :: m_cache c →
                    is_Some (e_file x)).
  { intros x [->|Hx]%elem_of_cons; [by eexists|by apply Hn]. }
  destruct (m_map c !! fileId) as [pos|] eqn:Hk.
  - by rewrite (UnguardedNewEmptyFile_present _ _ _ Hk).
  - by rewrite (UnguardedNewEmptyFile_absent _ _ Hk).
Qed.

Lemma no_null_Free size u w c : no_null c → no_null (Free size u w c).2.
Proof.
  apply no_null_sub. rewrite Free_unfold.
  destruct (GetCapacity c <? size); [done|].
  destruct (HasFreeSpace c size); [done|]. simpl. apply evict_loop_sub.
Qed.

Lemma no_null_FreeDiskCacheFiles size u w c :
  no_null c → no_null (FreeDiskCacheFiles size u w c).2.
Proof.
  apply no_null_sub. rewrite FreeDiskCacheFiles_unfold.
  destruct (IsSafeDiskSpace w size); [done|]. simpl. apply evict_loop_sub.
Qed.

Lemma no_null_touch fileId c : no_null c → no_null (touch fileId c).
Proof.
  intros Hn. unfold touch. destruct (m_map c !! fileId).
  - by apply no_null_splice.
  - by apply no_null_UnguardedNewEmptyFile.
Qed.

Lemma no_null_place fileId avail c : no_null c → no_null (place fileId avail c).2.
Proof.
  intros Hn. unfold place. destruct (m_map c !! fileId) as [it|] eqn:Hk.
  - simpl. apply (no_null_update_file it _ (set_cache _ c)).
    by apply (no_null_splice it c).
  - pose proof (no_null_UnguardedNewEmptyFile fileId c Hn) as Hn'.
    rewrite (UnguardedNewEmptyFile_absent _ _ Hk) in Hn' |- *.
    exact (no_null_update_file (m_next c)
             (File.SetUseDiskFile (negb avail)) _ Hn').
Qed.

Lemma no_null_PrepareWrite fileId len w c :
  no_null c → no_null (PrepareWrite fileId len w c).2.
Proof.
  intros Hn. unfold PrepareWrite.
  assert (Hpl : ∀ avail (w0 : World) c0, no_null c0 →
    no_null (let '(pos, c') := place fileId avail c0 in ((true, pos), w0, c')).2).
  { intros avail w0 c0 H0. pose proof (no_null_place fileId avail c0 H0).
    by destruct (place fileId avail c0). }
  destruct (HasFreeSpace c len); [by apply Hpl|].
  pose proof (no_null_Free len fileId w c Hn) as Hfr.
  destruct (Free len fileId w c) as [[avail w1] c1]. simpl in Hfr.
  destruct avail; [by apply Hpl|].
  destruct (CreateDirectoryIfNotExists w1); [|done]. simpl.
  destruct (IsSafeDiskSpace w1 len); [by apply Hpl|].
  pose proof (no_null_FreeDiskCacheFiles len fileId w1 c1 Hfr) as Hfd.
  destruct (FreeDiskCacheFiles len fileId w1 c1) as [[ok w2] c2]. simpl in Hfd.
  destruct ok; [by apply Hpl|done].
Qed.

Lemma no_null_write_valid fileId offset len src dirTree o w c :
  no_null c → no_null (write_valid fileId offset len src dirTree o w c).1.2.
Proof.
  intros Hn. unfold write_valid.
  pose proof (no_null_PrepareWrite fileId len w c Hn) as Hp.
  destruct (PrepareWrite fileId len w c) as [[[ok res] w1] c1]. simpl in Hp.
  destruct ok; [|done]. destruct res as [pos|]; [|done].
  destruct (file_at pos c1) as [file|]; [|done].
  destruct (File.Write offset len src o w1 file) as [[[[okf added] ad] w2] f'].
  pose proof (no_null_update_file pos (fun _ => f') c1 Hp) as Hu.
  by destruct okf.
Qed.

Lemma no_null_Write fileId offset len buffer dirTree o w c :
  no_null c → no_null (Write fileId offset len buffer dirTree o w c).1.2.
Proof.
  intros Hn. unfold Write. destruct (len =? 0); [by apply no_null_touch|].
  destruct buffer as [src|]; [|done].
  destruct (_ && _); [by apply no_null_write_valid|done].
Qed.

Lemma no_null_WriteStream fileId offset len stream dirTree o w c :
  no_null c → no_null (WriteStream fileId offset len stream dirTree o w c).1.2.
Proof.
  intros Hn. unfold WriteStream. destruct (len =? 0); [by apply no_null_touch|].
  destruct stream as [src|]; [|done].
  destruct (_ && _); [|done].
  destruct (len <=? _); [by apply no_null_write_valid|done].
Qed.

Lemma no_null_UnguardedErase fileId pos w c :
  no_null c → no_null (UnguardedErase fileId pos w c).2.
Proof.
  apply no_null_sub. simpl. intros x Hx. by apply elem_of_unlink in Hx as [? _].
Qed.

Lemma no_null_Rename a b w c : no_null c → no_null (Rename a b w c).2.
Proof.
  intros Hn. unfold Rename. destruct (decide (a = b)); [done|].
  assert (Hc1 : ∃ w1 c1,
    (match m_map c !! b with
     | Some pos =>
         let '(_, w1, c1) := UnguardedErase b pos w c in (w1, c1)
     | None => (w, c)
     end) = (w1, c1) ∧ no_null c1).
  { destruct (m_map c !! b) as [pb|].
    - eexists _, _. split; [reflexivity|].
      by apply (no_null_UnguardedErase b pb w c).
    - eauto. }
  destruct Hc1 as (w1 & c1 & -> & Hn1).
  destruct (m_map c1 !! a) as [it|]; [|done].
  simpl. destruct (m_map c1 !! b);
    simpl;
    apply (no_null_update_file it (File.Rename b)
             (set_cache (splice_front it (set_key it b (m_cache c1))) c1));
    apply (no_null_splice it (set_cache (set_key it b (m_cache c1)) c1));
    apply no_null_alt; intros x Hx; simpl in Hx;
    apply elem_of_map_node in Hx as (y & Hy & [->|[_ ->]]);
    simpl; by apply (proj1 (no_null_alt c1) Hn1).
Qed.

Lemma no_null_Resize fileId newFileSize dirTree w c :
  no_null c → no_null (Resize fileId newFileSize dirTree w c).1.2.
Proof.
  intros Hn. unfold Resize.
  assert (H0 : ∃ opos c0,
    (match m_map c !! fileId with
     | Some pos => (Some pos, c)
     | None => UnguardedNewEmptyFile fileId c
     end) = (opos, c0) ∧ no_null c0).
  { destruct (m_map c !! fileId) as [pos|].
    - eauto.
    - pose proof (no_null_UnguardedNewEmptyFile fileId c Hn) as Hn'.
      destruct (UnguardedNewEmptyFile fileId c). eauto. }
  destruct H0 as (opos & c0 & -> & Hn0).
  destruct opos as [pos|]; [|done].
  destruct (file_at pos c0) as [file|]; [|done].
  destruct (newFileSize =? File.GetSize file); [done|].
  destruct (File.GetSize file <? newFileSize).
  - pose proof (no_null_Write fileId (to_off_t (File.GetSize file))
                  (wrap (newFileSize - File.GetSize file))
                  (Some (repeat Byte.x00
                     (Z.to_nat (wrap (newFileSize - File.GetSize file)))))
                  dirTree (File.IsOpen file) w c0 Hn0) as Hwr.
    destruct (Write _ _ _ _ _ _ w c0) as [[[res w1] c1] tree1]. simpl in Hwr.
    destruct (file_at pos c1); [|done].
    by destruct (_ =? newFileSize).
  - pose proof (no_null_update_file pos (File.ResizeToSmallerSize newFileSize)
                  c0 Hn0) as Hu.
    rewrite file_at_update_file.
    destruct (file_at pos c0); [|done]. simpl.
    by destruct (_ =? newFileSize).
Qed.

Lemma no_null_run op s : no_null s.2 → no_null (run op s).2.
Proof.
  intros Hn. destruct op; simpl.
  - unfold MakeFile.
    pose proof (no_null_UnguardedNewEmptyFile fileId s.2 Hn) as Hn'.
    by destruct (UnguardedNewEmptyFile fileId s.2) as [[p|] c'].
  - unfold FindFile. destruct (m_map s.2 !! filePath) as [it|]; [|done].
    by apply (no_null_splice it).
  - by apply no_null_Write.
  - by apply no_null_WriteStream.
  - by apply (no_null_Resize _ _ _ _ _ Hn).
  - by apply no_null_Free.
  - by apply no_null_FreeDiskCacheFiles.
  - unfold Erase. destruct (m_map s.2 !! fileId); [|done].
    by apply no_null_UnguardedErase.
  - by apply no_null_Rename.
  - unfold SetFileOpen. simpl.
    destruct (m_map s.2 !! fileId); [by apply no_null_update_file|done].
Qed.

(** The entries with a null [File] that [Free] and [FreeDiskCacheFiles]
    remove on sight do not occur in any reachable state. *)
Lemma reachable_no_null s : reachable s → no_null s.2.
Proof.
  induction 1 as [w capacity|w w' c _ IH|op s _ IH].
  - constructor.
  - exact IH.
  - by apply no_null_run.
Qed.

(** * The loops as written and the loops continued *)

Lemma evict_loop_enough enough u its w c :
  enough w c = true → evict_loop enough u its w c = (w, c).
Proof. intros He. destruct its; [done|]. by apply evict_loop_stop. Qed.

(** Whenever the loop as written returns, the continued loop returns the
    same. *)
Lemma Exact_evict_loop_sound enough u its : ∀ w c r,
  Exact.evict_loop enough u its w c = Some r →
  evict_loop enough u its w c = r.
Proof.
  induction its as [|e rest IH]; intros w c r;
    cbn [Exact.evict_loop evict_loop].
  - by intros [= <-].
  - destruct (enough w c) eqn:He; [by intros [= <-]|].
    destruct (e_file e) as [f|].
    + destruct (_ && _); [|apply IH].
      destruct (evict e f w c) as [w' c'].
      destruct (enough w' c') eqn:He'; [|done].
      intros [= <-]. by apply evict_loop_enough.
    + cbv zeta. destruct (enough w (drop_null e c)) eqn:He'; [|done].
      intros [= <-]. by apply evict_loop_enough.
Qed.

(** A loop that returns has erased nothing, or has erased one entry: the
    first one from the back that it may erase, with the test that ends the
    loop false before the erase and true after it. *)
Lemma Exact_evict_loop_returns enough u its : ∀ w c r,
  Exact.evict_loop enough u its w c = Some r →
  (r = (w, c) ∧ (enough w c = true ∨ ∀ x, x ∈ its → kept u x)) ∨
  (∃ vis x rest,
     its = vis ++ x :: rest ∧ (∀ y, y ∈ vis → kept u y) ∧ removable u x ∧
     enough w c = false ∧ r = Exact.erase_entry x w c ∧
     enough r.1 r.2 = true).
Proof.
  induction its as [|e rest IH]; intros w c r; cbn [Exact.evict_loop].
  - intros [= <-]. left. split; [done|]. right. intros x Hx.
    by apply elem_of_nil in Hx.
  - destruct (enough w c) eqn:He; [intros [= <-]; left; by eauto|].
    destruct (visit_cases u e) as [(f & Hf & Hev)|[Hk|Hnull]].
    + rewrite Hf. destruct Hev as (f' & Hf' & Hne & Hcl).
      assert (f' = f) as -> by congruence.
      rewrite bool_decide_eq_true_2 by done. rewrite Hcl. cbn [negb andb].
      destruct (evict e f w c) as [w' c'] eqn:Hev.
      destruct (enough w' c') eqn:He'; [|done].
      intros [= <-]. right. exists [], e, rest.
      assert (Exact.erase_entry e w c = (w', c')) as Her.
      { unfold Exact.erase_entry. by rewrite Hf. }
      rewrite Her. split_and!; try done.
      * intros y Hy. by apply elem_of_nil in Hy.
      * right. by exists f.
    + pose proof Hk as Hk'. apply kept_cases in Hk' as (f & Hf & Hor).
      rewrite Hf.
      assert (bool_decide (e_key e ≠ u) && negb (File.IsOpen f) = false)
        as ->.
      { destruct Hor as [-> | ->].
        - by rewrite bool_decide_eq_false_2 by (intros H; by apply H).
        - by rewrite andb_false_r. }
      intros Hr. destruct (IH w c r Hr) as [[-> Hor']|Hone].
      * left. split; [done|]. right. intros x Hx.
        apply elem_of_cons in Hx as [->|Hx]; [done|].
        destruct Hor' as [Hen|Hall]; [congruence|by apply Hall].
      * destruct Hone as (vis & x & rest' & -> & Hvis & Hx & _ & Hr' & Hen).
        right. exists (e :: vis), x, rest'. split_and!; try done.
        intros y Hy. apply elem_of_cons in Hy as [->|Hy]; [done|by apply Hvis].
    + rewrite Hnull. cbv zeta.
      destruct (enough w (drop_null e c)) eqn:He'; [|done].
      intros [= <-]. right. exists [], e, rest.
      assert (Exact.erase_entry e w c = (w, drop_null e c)) as Her.
      { unfold Exact.erase_entry. by rewrite Hnull. }
      rewrite Her. split_and!; try done.
      * intros y Hy. by apply elem_of_nil in Hy.
      * by left.
Qed.

Lemma Exact_Free_sound size u w c r :
  Exact.Free size u w c = Some r → Free size u w c = r.
Proof.
  unfold Exact.Free. rewrite Free_unfold.
  destruct (GetCapacity c <? size); [by intros [= <-]|].
  destruct (HasFreeSpace c size); [by intros [= <-]|].
  destruct (Exact.evict_loop _ _ _ _ _) as [[w' c']|] eqn:Hl; [|done].
  apply Exact_evict_loop_sound in Hl. rewrite Hl. by intros [= <-].
Qed.

Lemma Exact_FreeDiskCacheFiles_sound size u w c r :
  Exact.FreeDiskCacheFiles size u w c = Some r →
  FreeDiskCacheFiles size u w c = r.
Proof.
  unfold Exact.FreeDiskCacheFiles. rewrite FreeDiskCacheFiles_unfold.
  destruct (IsSafeDiskSpace w size); [by intros [= <-]|].
  destruct (Exact.evict_loop _ _ _ _ _) as [[w' c']|] eqn:Hl; [|done].
  apply Exact_evict_loop_sound in Hl. rewrite Hl. by intros [= <-].
Qed.

Lemma Exact_PrepareWrite_sound fileId len w c r :
  Exact.PrepareWrite fileId len w c = Some r → PrepareWrite fileId len w c = r.
Proof.
  unfold Exact.PrepareWrite, PrepareWrite.
  destruct (HasFreeSpace c len).
  { destruct (place fileId true c). by intros [= <-]. }
  destruct (Exact.Free len fileId w c) as [[[avail w1] c1]|] eqn:Hf; [|done].
  rewrite (Exact_Free_sound _ _ _ _ _ Hf).
  destruct avail.
  { destruct (place fileId true c1). by intros [= <-]. }
  destruct (negb (CreateDirectoryIfNotExists w1)); [by intros [= <-]|].
  destruct (IsSafeDiskSpace w1 len).
  { destruct (place fileId false c1). by intros [= <-]. }
  destruct (Exact.FreeDiskCacheFiles len fileId w1 c1) as [[[ok w2] c2]|]
    eqn:Hd; [|done].
  rewrite (Exact_FreeDiskCacheFiles_sound _ _ _ _ _ Hd).
  destruct ok; [|by intros [= <-]].
  destruct (place fileId false c2). by intros [= <-].
Qed.

Lemma Exact_write_valid_sound fileId offset len src dirTree o w c r :
  Exact.write_valid fileId offset len src dirTree o w c = Some r →
  write_valid fileId offset len src dirTree o w c = r.
Proof.
  unfold Exact.write_valid, write_valid.
  destruct (Exact.PrepareWrite fileId len w c) as [[[[ok res] w1] c1]|] eqn:Hp;
    [|done].
  rewrite (Exact_PrepareWrite_sound _ _ _ _ _ Hp). intros [= <-].
  destruct ok; [|done]. destruct res as [pos|]; [|done].
  destruct (file_at pos c1) as [file|]; [|done].
  destruct (File.Write offset len src o w1 file) as [[[[okf added] ad] w2] f'].
  by destruct okf.
Qed.

Lemma Exact_Write_sound fileId offset len buffer dirTree o w c r :
  Exact.Write fileId offset len buffer dirTree o w c = Some r →
  Write fileId offset len buffer dirTree o w c = r.
Proof.
  unfold Exact.Write, Write. destruct (len =? 0); [by intros [= <-]|].
  destruct buffer as [src|]; [|by intros [= <-]].
  destruct (_ && _); [|by intros [= <-]]. apply Exact_write_valid_sound.
Qed.

Lemma Exact_WriteStream_sound fileId offset len stream dirTree o w c r :
  Exact.WriteStream fileId offset len stream dirTree o w c = Some r →
  WriteStream fileId offset len stream dirTree o w c = r.
Proof.
  unfold Exact.WriteStream, WriteStream.
  destruct (len =? 0); [by intros [= <-]|].
  destruct stream as [src|]; [|by intros [= <-]].
  destruct (_ && _); [|by intros [= <-]].
  destruct (len <=? _); [|by intros [= <-]]. apply Exact_write_valid_sound.
Qed.

Lemma Exact_Resize_sound fileId newFileSize dirTree w c r :
  Exact.Resize fileId newFileSize dirTree w c = Some r →
  Resize fileId newFileSize dirTree w c = r.
Proof.
  unfold Exact.Resize, Resize.
  destruct (match m_map c !! fileId with
            | Some pos => (Some pos, c)
            | None => UnguardedNewEmptyFile fileId c
            end) as [opos c0].
  destruct opos as [pos|]; [|by intros [= <-]].
  destruct (file_at pos c0) as [file|]; [|by intros [= <-]].
  destruct (newFileSize =? File.GetSize file); [by intros [= <-]|].
  destruct (File.GetSize file <? newFileSize).
  - destruct (Exact.Write _ _ _ _ _ _ w c0) as [[[[ok w1] c1] tree1]|] eqn:Hw;
      [|done].
    rewrite (Exact_Write_sound _ _ _ _ _ _ _ _ _ Hw).
    intros [= <-]. unfold Exact.resized.
    destruct (file_at pos c1) as [file'|]; [|done].
    by destruct (File.GetSize file' =? newFileSize).
  - intros [= <-]. unfold Exact.resized.
    destruct (file_at pos _) as [file'|]; [|done].
    by destruct (File.GetSize file' =? newFileSize).
Qed.

Lemma Exact_run_sound op s s' : Exact.run op s = Some s' → run op s = s'.
Proof.
  destruct op; simpl; try (by intros [= <-]).
  - destruct (Exact.Write _ _ _ _ _ _ _ _) as [r|] eqn:Hr; [|done].
    rewrite (Exact_Write_sound _ _ _ _ _ _ _ _ _ Hr). by intros [= <-].
  - destruct (Exact.WriteStream _ _ _ _ _ _ _ _) as [r|] eqn:Hr; [|done].
    rewrite (Exact_WriteStream_sound _ _ _ _ _ _ _ _ _ Hr). by intros [= <-].
  - destruct (Exact.Resize _ _ _ _ _) as [r|] eqn:Hr; [|done].
    rewrite (Exact_Resize_sound _ _ _ _ _ _ Hr). by intros [= <-].
  - destruct (Exact.Free _ _ _ _) as [r|] eqn:Hr; [|done].
    rewrite (Exact_Free_sound _ _ _ _ _ Hr). by intros [= <-].
  - destruct (Exact.FreeDiskCacheFiles _ _ _ _) as [r|] eqn:Hr; [|done].
    rewrite (Exact_FreeDiskCacheFiles_sound _ _ _ _ _ Hr). by intros [= <-].
Qed.

Lemma Exact_run_all_sound ops : ∀ s s',
  Exact.run_all ops s = Some s' → run_all ops s = s'.
Proof.
  induction ops as [|op ops IH]; intros s s'; simpl.
  - by intros [= <-].
  - destruct (Exact.run op s) as [s1|] eqn:Hr; [|done]. simpl.
    rewrite (Exact_run_sound _ _ _ Hr). apply IH.
Qed.

(** Every state the code reaches is a state of the continued model. *)
Lemma Exact_reachable_sound s : Exact.reachable s → reachable s.
Proof.
  induction 1 as [w capacity|w w' c _ IH|op s s' _ IH Hr].
  - apply reach_init.
  - by apply (reach_env w).
  - rewrite <- (Exact_run_sound _ _ _ Hr). by apply reach_step.
Qed.

(** * The size counter stays a [size_t] *)





Lemma place_counters fileId avail c :
  m_size (place fileId avail c).2 = m_size c ∧
  m_capacity (place fileId avail c).2 = m_capacity c.
Proof.
  unfold place. destruct (m_map c !! fileId) as [it|] eqn:Hk; [done|].
  by rewrite UnguardedNewEmptyFile_absent.
Qed.








(** * Nodes the index does not hold *)









(** * What every state the code reaches satisfies *)





Lemma erase_entry_shape e w c :
  m_cache (Exact.erase_entry e w c).2 = unlink (e_id e) (m_cache c) ∧
  m_map (Exact.erase_entry e w c).2 = delete (e_key e) (m_map c) ∧
  m_capacity (Exact.erase_entry e w c).2 = m_capacity c ∧
  m_size (Exact.erase_entry e w c).2 = wrap (m_size c - cached e) ∨
  m_cache (Exact.erase_entry e w c).2 = unlink (e_id e) (m_cache c) ∧
  m_map (Exact.erase_entry e w c).2 = delete (e_key e) (m_map c) ∧
  m_capacity (Exact.erase_entry e w c).2 = m_capacity c ∧
  m_size (Exact.erase_entry e w c).2 = m_size c ∧ e_file e = None.
Proof.
  unfold Exact.erase_entry, cached. destruct (e_file e) as [f|]; simpl.
  - left. by split_and!.
  - right. by split_and!.
Qed.




















(** * Calls of the eviction loops that return *)


(** The shape of the list after a loop that returns: nothing is erased, or
    one entry [x] is, every entry behind it (less recently used) being one
    the loop must keep. *)
Lemma Exact_loop_shape enough u w c r :
  NoDup (ids (m_cache c)) →
  Exact.evict_loop enough u (rev (m_cache c)) w c = Some r →
  (r = (w, c) ∧ (enough w c = true ∨ Forall (kept u) (m_cache c))) ∨
  (∃ front x back,
     m_cache c = front ++ x :: back ∧ Forall (kept u) back ∧ removable u x ∧
     enough w c = false ∧ r = Exact.erase_entry x w c ∧
     enough r.1 r.2 = true ∧
     m_cache r.2 = front ++ back ∧
     m_map r.2 = delete (e_key x) (m_map c) ∧
     m_capacity r.2 = m_capacity c).
Proof.
  intros Hnd Hloop.
  destruct (Exact_evict_loop_returns _ _ _ _ _ _ Hloop)
    as [[-> Hor]|(vis & x & rest & Hits & Hvis & Hx & Hen & -> & Hen')].
  - left. split; [done|]. destruct Hor as [?|Hall]; [by left|right].
    apply Forall_forall. intros y Hy. apply Hall. by rewrite elem_of_rev.
  - right. exists (rev rest), x, (rev vis).
    assert (m_cache c = rev rest ++ x :: rev vis) as Hl.
    { rewrite <- (rev_involutive (m_cache c)), Hits, rev_app_distr. simpl.
      by rewrite <- app_assoc. }
    assert (unlink (e_id x) (m_cache c) = rev rest ++ rev vis) as Hun.
    { rewrite Hl. apply unlink_middle. by rewrite <- Hl. }
    split_and!; try done.
    + apply Forall_forall. intros y Hy. apply Hvis. by rewrite <- elem_of_rev.
    + rewrite <- Hun.
      by destruct (erase_entry_shape x w c) as [(? & _)|(? & _)].
    + by destruct (erase_entry_shape x w c) as [(_ & ? & _)|(_ & ? & _)].
    + by destruct (erase_entry_shape x w c)
        as [(_ & _ & ? & _)|(_ & _ & ? & _)].
Qed.


Lemma Exact_Free_unfold size u w c :
  Exact.Free size u w c =
  if GetCapacity c <? size then Some (false, w, c)
  else if HasFreeSpace c size then Some (true, w, c)
  else
    r ← Exact.evict_loop (fun _ c => HasFreeSpace c size) u
          (rev (m_cache c)) w c;
    Some (HasFreeSpace r.2 size, r.1, r.2).
Proof.
  unfold Exact.Free. destruct (GetCapacity c <? size); [done|].
  destruct (HasFreeSpace c size); [done|].
  by destruct (Exact.evict_loop _ _ _ _ _) as [[w' c']|].
Qed.

Lemma Exact_FreeDiskCacheFiles_unfold size u w c :
  Exact.FreeDiskCacheFiles size u w c =
  if IsSafeDiskSpace w size then Some (true, w, c)
  else
    r ← Exact.evict_loop (fun w _ => IsSafeDiskSpace w size) u
          (rev (m_cache c)) w c;
    Some (IsSafeDiskSpace r.1 size, r.1, r.2).
Proof.
  unfold Exact.FreeDiskCacheFiles. destruct (IsSafeDiskSpace w size); [done|].
  by destruct (Exact.evict_loop _ _ _ _ _) as [[w' c']|].
Qed.





(** * The target of a write and the sample states *)


Lemma two_files_reachable : Exact.reachable (w_ok, two_files).
Proof.
  apply (Exact.reach_step (OpWrite "F2" 0 4 (Some (payload 4)) None false)
           (written "F1" 0 4 false (w_ok, init 16))); [|vm_compute; reflexivity].
  apply (Exact.reach_step (OpWrite "F1" 0 4 (Some (payload 4)) None false)
           (w_ok, init 16)); [|vm_compute; reflexivity].
  apply Exact.reach_init.
Qed.



Lemma mem_and_disk_reachable : Exact.reachable (w_tight, mem_and_disk).
Proof.
  apply (Exact.reach_env
           (written "F1" 4 4 false (written "F1" 0 4 false (w_ok, init 4))).1).
  apply (Exact.reach_step (OpWrite "F1" 4 4 (Some (payload 4)) None false)
           (written "F1" 0 4 false (w_ok, init 4))); [|vm_compute; reflexivity].
  apply (Exact.reach_step (OpWrite "F1" 0 4 (Some (payload 4)) None false)
           (w_ok, init 4)); [|vm_compute; reflexivity].
  apply Exact.reach_init.
Qed.



(** A call of [Free] that the source does not define: two closed files of
    four bytes in a cache of capacity sixteen, sixteen bytes asked for.  The
    least recently used file is erased, the target is still not reached, and
    the loop goes round again through the erased node.  Erasing both files
    would have reached the target. *)
Lemma Free_undefined_after_short_eviction :
  Exact.Free 16 "F3" w_ok two_files = None ∧
  Forall (evictable "F3") (m_cache two_files) ∧
  16 + (m_size two_files - sum_cached (m_cache two_files))
    <= m_capacity two_files.
Proof.
  split_and!.
  - vm_compute. reflexivity.
  - apply (bool_decide_unpack _). vm_compute. exact I.
  - apply Z.leb_le. vm_compute. reflexivity.
Qed.

(** * C1: the size counter *)

(** C1 at the input on which the code breaks it: growing an empty file to
    ten bytes in an empty cache of capacity one hundred.  The nested [Write]
    has already added the ten bytes of the hole to the counter when [Resize]
    adds the growth of the file's cached size once more: the counter ends at
    twenty while ten bytes are cached. *)
Theorem Resize_grow_counts_hole_twice :
  size_ok (init 100) ∧
  m_size (Resize "f" 10 None w_ok (init 100)).1.2 = 20 ∧
  sum_cached (m_cache (Resize "f" 10 None w_ok (init 100)).1.2) = 10 ∧
  ¬ size_ok (Resize "f" 10 None w_ok (init 100)).1.2.
Proof.
  split_and!.
  - reflexivity.
  - vm_compute. reflexivity.
  - vm_compute. reflexivity.
  - unfold size_ok. vm_compute. discriminate.
Qed.

(** * C2: Free *)

(** C2, as the code has it on every call that returns: a request larger than
    the capacity evicts nothing and fails; otherwise [Free] has scanned the
    order from the back (least recently used first) only while the target
    was not reached, has stepped over [fileUnfreeable] and the open [File]s,
    and has erased what it met first that was a null pointer or a closed
    [File] other than [fileUnfreeable], whereupon the target held; it returns
    true iff [size + m_size <= m_capacity] holds when it returns. *)
Theorem Free_evicts_lru_until_space (size : Z) (u : string) (w : World)
    (c : Cache.t) (ok : bool) (w' : World) (c' : Cache.t) :
  0 <= size → NoDup (ids (m_cache c)) →
  sum_cached (m_cache c) <= m_size c → m_size c + size < 2 ^ 64 →
  Exact.Free size u w c = Some (ok, w', c') →
  (ok = true ↔ size + m_size c' <= m_capacity c') ∧
  (m_capacity c < size → ok = false ∧ w' = w ∧ c' = c) ∧
  (size <= m_capacity c →
   (w' = w ∧ c' = c ∧
    (size + m_size c <= m_capacity c ∨ Forall (kept u) (m_cache c))) ∨
   (∃ front x back,
      m_cache c = front ++ x :: back ∧ Forall (kept u) back ∧
      removable u x ∧
      m_capacity c < size + m_size c ∧
      m_cache c' = front ++ back ∧
      m_size c' = m_size c - cached x ∧
      m_map c' = delete (e_key x) (m_map c) ∧
      m_capacity c' = m_capacity c ∧
      size + m_size c' <= m_capacity c')).
Proof.
  intros Hsize Hnd Hok Hno Hf.
  pose proof (sum_cached_nonneg (m_cache c)) as Hnn.
  assert (HasFreeSpace c size = true ↔ size + m_size c <= m_capacity c)
    as Hiff by (apply HasFreeSpace_iff; lia).
  rewrite Exact_Free_unfold in Hf. unfold GetCapacity in Hf.
  destruct (Z.ltb_spec (m_capacity c) size) as [Hbig|Hfit].
  { injection Hf as <- <- <-. split_and!; [split; [done|lia]|done|lia]. }
  destruct (HasFreeSpace c size) eqn:Hfs.
  { injection Hf as <- <- <-. split_and!; [by rewrite <- Hiff|lia|].
    intros _. left. split_and!; [done|done|]. left. by apply Hiff. }
  assert (m_capacity c < size + m_size c) as Hshort.
  { destruct (Z.le_gt_cases (size + m_size c) (m_capacity c)) as [Hle|]; [|lia].
    apply Hiff in Hle. congruence. }
  destruct (Exact.evict_loop _ _ _ _ _) as [r|] eqn:Hl; [|done].
  injection Hf as <- <- <-.
  destruct (Exact_loop_shape _ _ _ _ _ Hnd Hl)
    as [[-> Hor]|(front & x & back & Hc & Hback & Hx & _ & Hr & Hen & Hc'
                  & Hm' & Hcap')].
  - simpl. rewrite Hfs. split_and!; [split; [done|lia]|lia|].
    intros _. left. split_and!; [done|done|].
    destruct Hor as [?|?]; [congruence|by right].
  - assert (cached x <= sum_cached (m_cache c)) as Hle.
    { rewrite Hc, sum_cached_app, sum_cached_cons.
      pose proof (sum_cached_nonneg front).
      pose proof (sum_cached_nonneg back). lia. }
    pose proof (cached_nonneg x) as Hx0.
    assert (m_size r.2 = m_size c - cached x) as Hsz.
    { destruct (erase_entry_shape x w c)
        as [(_ & _ & _ & Hs)|(_ & _ & _ & Hs & Hnull)]; rewrite <- Hr in Hs.
      - rewrite Hs. apply wrap_small. lia.
      - rewrite Hs. unfold cached. rewrite Hnull. simpl. lia. }
    assert (size + m_size r.2 <= m_capacity r.2) as Hreached.
    { assert (0 <= m_size r.2 + size < 2 ^ 64) as Hrng by (rewrite Hsz; lia).
      by apply (HasFreeSpace_iff r.2 size Hrng). }
    rewrite Hen. split_and!; [done|lia|]. intros _. right.
    exists front, x, back. by split_and!.
Qed.

(** Room for four bytes in a full cache whose least recently used file is
    open: the closed file in front of it is erased. *)
Lemma Free_evicts_lru_until_space_witness :
  ∃ w' c',
    Exact.Free 4 "F3" w_ok open_and_closed = Some (true, w', c') ∧
    (true = true ↔ 4 + m_size c' <= m_capacity c') ∧
    (m_capacity open_and_closed < 4 →
     true = false ∧ w' = w_ok ∧ c' = open_and_closed) ∧
    (4 <= m_capacity open_and_closed →
     (w' = w_ok ∧ c' = open_and_closed ∧
      (4 + m_size open_and_closed <= m_capacity open_and_closed ∨
       Forall (kept "F3") (m_cache open_and_closed))) ∨
     (∃ front x back,
        m_cache open_and_closed = front ++ x :: back ∧
        Forall (kept "F3") back ∧ removable "F3" x ∧
        m_capacity open_and_closed < 4 + m_size open_and_closed ∧
        m_cache c' = front ++ back ∧
        m_size c' = m_size open_and_closed - cached x ∧
        m_map c' = delete (e_key x) (m_map open_and_closed) ∧
        m_capacity c' = m_capacity open_and_closed ∧
        4 + m_size c' <= m_capacity c')).
Proof.
  eexists _, _.
  assert (Exact.Free 4 "F3" w_ok open_and_closed =
          Some (true, (Free 4 "F3" w_ok open_and_closed).1.2,
                (Free 4 "F3" w_ok open_and_closed).2)) as Hf.
  { vm_compute. reflexivity. }
  split; [exact Hf|].
  apply (Free_evicts_lru_until_space 4 "F3" w_ok open_and_closed true _ _);
    [lia | | | |exact Hf].
  - apply (bool_decide_unpack _). vm_compute. exact I.
  - apply Z.leb_le. vm_compute. reflexivity.
  - vm_compute. reflexivity.
Defined.

(** C2, as stated, fails: a request that exceeds the capacity leaves the
    target unreached and yet evicts nothing, although a closed [File] other
    than the unfreeable one is cached. *)
Lemma Free_beyond_capacity_evicts_nothing :
  Free 17 "b" w_ok one_file = (false, w_ok, one_file) ∧
  ¬ (17 + m_size one_file <= m_capacity one_file) ∧
  Exists (evictable "b") (m_cache one_file).
Proof.
  split_and!.
  - reflexivity.
  - vm_compute. intros H. by apply H.
  - apply (bool_decide_unpack _). vm_compute. exact I.
Qed.

(** * C3: open files are never evicted *)



(** * C4: MakeFile *)

(** C4, as the code has it: [MakeFile] on an identifier that is not indexed
    puts a new entry with an empty [File] at the front of the order, indexes
    it and returns that [File]; on an identifier that is already indexed it
    returns the null pointer and leaves the index and the size counter as they
    were. *)
Theorem MakeFile_new_or_null (fileId : string) (c : Cache.t) :
  if HasFile c fileId then
    (MakeFile fileId c).1 = None ∧
    m_map (MakeFile fileId c).2 = m_map c ∧
    m_size (MakeFile fileId c).2 = m_size c
  else
    (MakeFile fileId c).1 = Some (File.make fileId) ∧
    m_cache (MakeFile fileId c).2 =
      {| e_id := m_next c; e_key := fileId;
         e_file := Some (File.make fileId) |} :: m_cache c ∧
    m_map (MakeFile fileId c).2 = <[fileId := m_next c]> (m_map c) ∧
    m_size (MakeFile fileId c).2 = m_size c.
Proof.
  unfold MakeFile. destruct (HasFile c fileId) eqn:Hh.
  - apply HasFile_true in Hh as [pos Hk].
    by rewrite (UnguardedNewEmptyFile_present _ _ _ Hk).
  - apply HasFile_false in Hh.
    rewrite (UnguardedNewEmptyFile_absent _ _ Hh). simpl.
    unfold file_at, node_at. simpl. by rewrite Nat.eqb_refl.
Qed.

(** C4, as stated, fails: with "a" cached, [MakeFile "a"] does not return the
    [File] cached under "a" but the null pointer. *)
Lemma MakeFile_present_returns_null :
  HasFile one_file "a" = true ∧
  (FindFile "a" one_file).1 ≠ None ∧
  (MakeFile "a" one_file).1 = None ∧
  (MakeFile "a" one_file).1 ≠ (FindFile "a" one_file).1.
Proof. split_and!; [reflexivity | by vm_compute | reflexivity | by vm_compute]. Qed.

(** * C5: agreement of index and order *)

(** C5 at the input on which the code breaks it: after [MakeFile "a"] on a
    cache that already holds "a", which satisfies the agreement of index and
    order, the order has a second entry keyed "a" at its front that the index
    does not designate. *)
Theorem MakeFile_present_orphan_entry :
  index_agrees one_file ∧
  ¬ index_agrees (MakeFile "a" one_file).2 ∧
  e_key <$> m_cache (MakeFile "a" one_file).2 = ["a"; "a"]%string ∧
  (e_id <$> head (m_cache (MakeFile "a" one_file).2)) = Some 1%nat ∧
  m_map (MakeFile "a" one_file).2 !! "a"%string = Some 0%nat.
Proof.
  split_and!.
  - apply (bool_decide_unpack _). vm_compute. exact I.
  - intros H. apply (bool_decide_pack _) in H. vm_compute in H. exact H.
  - reflexivity.
  - reflexivity.
  - reflexivity.
Qed.

(** * C6: Rename *)

(** C6: for distinct identifiers [a] and [b] with [a] cached, [Rename a b]
    erases the entry cached under [b] if there is one, gives the list node of
    [a] the key [b], makes it the front of the order, renames its [File] and
    indexes it under [b]; afterwards [a] is not cached, [b] is, and the pages
    found under [b] are those that were found under [a]. *)
Theorem Rename_moves_file (a b : string) (w : World) (c : Cache.t) :
  a ≠ b → iterators_valid c → HasFile c a = true →
  ∃ ea,
    ea ∈ m_cache c ∧ e_key ea = a ∧ m_map c !! a = Some (e_id ea) ∧
    HasFile (Rename a b w c).2 a = false ∧
    HasFile (Rename a b w c).2 b = true ∧
    m_cache (Rename a b w c).2 =
      {| e_id := e_id ea; e_key := b; e_file := File.Rename b <$> e_file ea |}
      :: unlink (e_id ea)
           (match m_map c !! b with
            | Some pb => unlink pb (m_cache c)
            | None => m_cache c
            end) ∧
    m_map (Rename a b w c).2 = <[b := e_id ea]> (delete a (m_map c)) ∧
    content (Rename a b w c).2 b = content c a ∧
    (no_null c → is_Some (content c a)).
Proof.
  intros Hab Hv Ha. apply HasFile_true in Ha as [pa Hpa].
  destruct (iterators_valid_node c a pa Hv Hpa) as (ea & Hna & Hea & <- & Hka).
  exists ea. do 3 (split; [done|]).
  (* the order after the optional erasure of [b] *)
  set (l1 := match m_map c !! b with
             | Some pb => unlink pb (m_cache c)
             | None => m_cache c
             end).
  assert (Hn1 : node_at (e_id ea) l1 = Some ea).
  { subst l1. destruct (m_map c !! b) as [pb|] eqn:Hpb; [|done].
    rewrite node_at_unlink_ne; [done|]. intros ->.
    apply Hab. symmetry. by eapply iterators_valid_inj. }
  assert (Hr : m_cache (Rename a b w c).2 =
                 {| e_id := e_id ea; e_key := b;
                    e_file := File.Rename b <$> e_file ea |}
                 :: unlink (e_id ea) l1
               ∧ m_map (Rename a b w c).2 =
                 delete a (<[b := e_id ea]> (delete b (m_map c)))).
  { pose proof (relink_shape (e_id ea) b (File.Rename b)) as Hl.
    unfold Rename. rewrite decide_False by done. subst l1.
    destruct (m_map c !! b) as [pb|] eqn:Hpb.
    - unfold UnguardedErase. simpl.
      rewrite lookup_delete_ne, Hpa by done. simpl.
      rewrite lookup_delete_eq. simpl. by rewrite (Hl _ ea Hn1).
    - rewrite Hpa. simpl. rewrite Hpb. simpl. rewrite (Hl _ ea Hn1).
      by rewrite (delete_id (m_map c) b). }
  destruct Hr as [Hrc Hrm].
  assert (Hm : delete a (<[b := e_id ea]> (delete b (m_map c))) =
               <[b := e_id ea]> (delete a (m_map c))).
  { apply map_eq. intros k.
    destruct (decide (k = a)) as [->|Hka'].
    - rewrite lookup_delete_eq, lookup_insert_ne by done.
      by rewrite lookup_delete_eq.
    - rewrite lookup_delete_ne by done.
      destruct (decide (k = b)) as [->|Hkb].
      + by rewrite !lookup_insert_eq.
      + rewrite !lookup_insert_ne by done.
        by rewrite !lookup_delete_ne by done. }
  rewrite Hm in Hrm.
  split_and!.
  - apply HasFile_false. rewrite Hrm.
    rewrite lookup_insert_ne by done. apply lookup_delete_eq.
  - apply HasFile_true. rewrite Hrm, lookup_insert_eq. eauto.
  - done.
  - done.
  - unfold content. rewrite Hrm, lookup_insert_eq, Hpa.
    simpl. unfold file_at. rewrite Hrc, Hna. unfold node_at. simpl.
    rewrite Nat.eqb_refl. simpl. by destruct (e_file ea).
  - intros Hnn. unfold content, file_at. rewrite Hpa. simpl. rewrite Hna.
    simpl. destruct (proj1 (no_null_alt c) Hnn ea Hea) as [f ->]. by eexists.
Qed.

(** Scenario S4 of the design document: rename onto a cached identifier. *)
Lemma Rename_moves_file_witness :
  ∃ ea,
    ea ∈ m_cache two_files ∧ e_key ea = "F1"%string ∧
    m_map two_files !! "F1"%string = Some (e_id ea) ∧
    HasFile (Rename "F1" "F2" w_ok two_files).2 "F1" = false ∧
    HasFile (Rename "F1" "F2" w_ok two_files).2 "F2" = true ∧
    m_cache (Rename "F1" "F2" w_ok two_files).2 =
      {| e_id := e_id ea; e_key := "F2";
         e_file := File.Rename "F2" <$> e_file ea |}
      :: unlink (e_id ea)
           (match m_map two_files !! "F2"%string with
            | Some pb => unlink pb (m_cache two_files)
            | None => m_cache two_files
            end) ∧
    m_map (Rename "F1" "F2" w_ok two_files).2 =
      <["F2"%string := e_id ea]> (delete "F1"%string (m_map two_files)) ∧
    content (Rename "F1" "F2" w_ok two_files).2 "F2" = content two_files "F1" ∧
    (no_null two_files → is_Some (content two_files "F1")).
Proof.
  apply (Rename_moves_file "F1" "F2" w_ok two_files).
  - discriminate.
  - apply (bool_decide_unpack _). vm_compute. exact I.
  - reflexivity.
Defined.

(** * C7: a write commits after File.Write *)

(** C7, as the code has it: in a write of [len > 0] bytes whose
    [PrepareWrite] succeeded, the outcome is that of [File.Write].  If
    [File.Write] fails, the directory tree is left as it was and the size
    counter keeps the value it had when [PrepareWrite] returned; if it
    succeeds, the counter is that value plus the in-memory delta reported by
    [File.Write], and the node of the file gets the size [offset + len] when
    that exceeds its old size, and the open state [open]. *)
Theorem Write_commits_after_File_Write (fileId : string) (offset len : Z)
    (src : list Byte.byte) (dirTree : option DirectoryTree.t) (o : bool)
    (w : World) (c : Cache.t) (p : nat) (w1 : World) (c1 : Cache.t)
    (f : File.t) (okf : bool) (added addedDisk : Z) (w2 : World)
    (f' : File.t) :
  len ≠ 0 → fileId ≠ EmptyString → 0 <= offset → 0 <= len →
  Exact.PrepareWrite fileId len w c = Some ((true, Some p), w1, c1) →
  file_at p c1 = Some f →
  File.Write offset len src o w1 f = ((okf, added, addedDisk), w2, f') →
  ∃ c' tree',
    Exact.Write fileId offset len (Some src) dirTree o w c =
      Some (okf, w2, c', tree') ∧
    if okf then
      m_size c' = wrap (m_size c1 + added) ∧
      ∀ tree node, dirTree = Some tree → tree !! fileId = Some node →
        ∃ tree1 node1,
          tree' = Some tree1 ∧ tree1 !! fileId = Some node1 ∧
          Node.fileSize node1 =
            (if Node.fileSize node <? wrap (offset + len)
             then wrap (offset + len) else Node.fileSize node) ∧
          Node.fileOpen node1 = o
    else m_size c' = m_size c1 ∧ tree' = dirTree.
Proof.
  intros Hlen Hid Hoff Hl Hp Hf Hw.
  unfold Exact.Write.
  assert ((len =? 0) = false) as -> by by apply Z.eqb_neq.
  rewrite bool_decide_eq_true_2 by done.
  assert ((0 <=? offset) = true) as -> by by apply Z.leb_le.
  assert ((0 <=? len) = true) as -> by by apply Z.leb_le.
  cbn [andb]. unfold Exact.write_valid.
  rewrite Hp, Hf, Hw. destruct okf.
  - eexists _, _. split; [reflexivity|]. simpl. split; [done|].
    intros tree node -> Hn. unfold update_meta, DirectoryTree.Find.
    rewrite Hn. eexists _, _. split; [reflexivity|].
    unfold DirectoryTree.update. rewrite lookup_insert_eq.
    split; [reflexivity|].
    unfold Node.GetFileSize.
    by destruct (Node.fileSize node <? wrap (offset + len)).
  - eexists _, _. split; [reflexivity|]. done.
Qed.

(** A four-byte write with a directory tree that succeeds, and a five-byte
    write that [File.Write] fails on the scratch disk after
    [FreeDiskCacheFiles] has made room there. *)
Lemma Write_commits_after_File_Write_witness :
  (∃ p w1 c1 f added addedDisk w2 f',
     Exact.PrepareWrite "F3" 4 w_ok two_files = Some ((true, Some p), w1, c1) ∧
     file_at p c1 = Some f ∧
     File.Write 0 4 (payload 4) false w1 f
       = ((true, added, addedDisk), w2, f') ∧
     ∃ c' tree',
       Exact.Write "F3" 0 4 (Some (payload 4))
         (Some sample_tree) false w_ok two_files
         = Some (true, w2, c', tree') ∧
       m_size c' = wrap (m_size c1 + added) ∧
       ∀ (tree : gmap string Node.t) node,
         Some sample_tree = Some tree →
         tree !! "F3"%string = Some node →
         ∃ tree1 node1,
           tree' = Some tree1 ∧ tree1 !! "F3"%string = Some node1 ∧
           Node.fileSize node1 =
             (if Node.fileSize node <? wrap (0 + 4)
              then wrap (0 + 4) else Node.fileSize node) ∧
           Node.fileOpen node1 = false) ∧
  (∃ p w1 c1 f added addedDisk w2 f',
     Exact.PrepareWrite "F3" 5 w_tight mem_and_disk
       = Some ((true, Some p), w1, c1) ∧
     file_at p c1 = Some f ∧
     File.Write 0 5 (payload 5) true w1 f
       = ((false, added, addedDisk), w2, f') ∧
     ∃ c' tree',
       Exact.Write "F3" 0 5 (Some (payload 5))
         (Some sample_tree) true w_tight mem_and_disk
         = Some (false, w2, c', tree') ∧
       m_size c' = m_size c1 ∧ tree' = Some sample_tree).
Proof.
  split.
  - eexists _, _, _, _, _, _, _, _.
    assert (Hp : Exact.PrepareWrite "F3" 4 w_ok two_files =
                 Some ((true, Some 2%nat),
                       (PrepareWrite "F3" 4 w_ok two_files).1.2,
                       (PrepareWrite "F3" 4 w_ok two_files).2)).
    { vm_compute. reflexivity. }
    assert (Hf : file_at 2 (PrepareWrite "F3" 4 w_ok two_files).2 =
                 Some (File.make "F3")).
    { vm_compute. reflexivity. }
    assert (Hw : File.Write 0 4 (payload 4) false
                   (PrepareWrite "F3" 4 w_ok two_files).1.2 (File.make "F3") =
                 ((true, 4, 0),
                  (File.Write 0 4 (payload 4) false
                     (PrepareWrite "F3" 4 w_ok two_files).1.2
                     (File.make "F3")).1.2,
                  (File.Write 0 4 (payload 4) false
                     (PrepareWrite "F3" 4 w_ok two_files).1.2
                     (File.make "F3")).2)).
    { vm_compute. reflexivity. }
    split; [exact Hp|]. split; [exact Hf|]. split; [exact Hw|].
    refine (Write_commits_after_File_Write "F3" 0 4 (payload 4)
              (Some sample_tree) false w_ok two_files 2 _ _ _ true 4 0 _ _
              _ _ _ _ Hp Hf Hw); [discriminate | discriminate | lia | lia].
  - eexists _, _, _, _, _, _, _, _.
    assert (Hp : Exact.PrepareWrite "F3" 5 w_tight mem_and_disk =
                 Some ((true, Some 1%nat),
                       (PrepareWrite "F3" 5 w_tight mem_and_disk).1.2,
                       (PrepareWrite "F3" 5 w_tight mem_and_disk).2)).
    { vm_compute. reflexivity. }
    assert (Hf : file_at 1 (PrepareWrite "F3" 5 w_tight mem_and_disk).2 =
                 Some (File.SetUseDiskFile true (File.make "F3"))).
    { vm_compute. reflexivity. }
    assert (Hw : File.Write 0 5 (payload 5) true
                   (PrepareWrite "F3" 5 w_tight mem_and_disk).1.2
                   (File.SetUseDiskFile true (File.make "F3")) =
                 ((false, 0, 0),
                  (PrepareWrite "F3" 5 w_tight mem_and_disk).1.2,
                  File.SetUseDiskFile true (File.make "F3"))).
    { vm_compute. reflexivity. }
    split; [exact Hp|]. split; [exact Hf|]. split; [exact Hw|].
    refine (Write_commits_after_File_Write "F3" 0 5 (payload 5)
              (Some sample_tree) true w_tight mem_and_disk 1 _ _ _ false 0 0
              _ _ _ _ _ _ Hp Hf Hw); [discriminate | discriminate | lia | lia].
Defined.

(** C7, as stated, fails: with memory out of the question (five bytes asked
    of a cache of capacity four) and the scratch disk one byte short,
    [PrepareWrite] has [FreeDiskCacheFiles] evict the closed file "F1", whose
    four bytes in memory leave the size counter and whose four bytes on disk
    make the disk safe; [File.Write] then fails on the scratch disk, and the
    call returns false with the size counter at 0 instead of 4. *)
Lemma Write_failure_after_eviction :
  ∃ p w1 c1 f r,
    Exact.PrepareWrite "F2" 5 w_tight mem_and_disk
      = Some ((true, Some p), w1, c1) ∧
    file_at p c1 = Some f ∧
    (File.Write 0 5 (payload 5) false w1 f).1.1.1.1 = false ∧
    Exact.Write "F2" 0 5 (Some (payload 5)) None false w_tight mem_and_disk
      = Some r ∧
    r.1.1.1 = false ∧
    m_size mem_and_disk = 4 ∧
    m_size r.1.2 = 0.
Proof.
  eexists _, _, _, _, _. split_and!; vm_compute; reflexivity.
Qed.

(** * C8: memory or disk placement *)

(** C8: [PrepareWrite] succeeds exactly when memory is available or freed,
    or else the disk path succeeds.  On success the target identifier is
    indexed, its [File] exists (in a well-formed cache without null
    pointers) and has [useDiskFile] true iff the memory attempt failed (and
    then the disk path succeeded), false whenever memory was available or
    freed.  On failure no flag is set: every entry left in the order is an
    entry that was there before. *)
Theorem PrepareWrite_useDiskFile (fileId : string) (len : Z) (w : World)
    (c : Cache.t) (ok : bool) (pos : option nat) (w' : World) (c' : Cache.t) :
  PrepareWrite fileId len w c = ((ok, pos), w', c') →
  ok = memory_ok fileId len w c || disk_path_ok fileId len w c ∧
  (ok = false → pos = None ∧ ∀ e, e ∈ m_cache c' → e ∈ m_cache c) ∧
  (ok = true →
   ∃ p, pos = Some p ∧ m_map c' !! fileId = Some p ∧
        (wf c → no_null c → is_Some (file_at p c')) ∧
        ∀ f, file_at p c' = Some f →
             File.useDiskFile f = negb (memory_ok fileId len w c) ∧
             (File.useDiskFile f = true ↔
              memory_ok fileId len w c = false ∧
              disk_path_ok fileId len w c = true)).
Proof.
  intros Hp.
  destruct (PrepareWrite_outcome _ _ _ _ _ _ _ _ Hp) as (Hok & Hfail & Hsucc).
  split; [done|]. split.
  - intros ->. split; [by apply Hfail|]. intros e He.
    apply (PrepareWrite_sub fileId len w c); by rewrite Hp.
  - intros ->. destruct (Hsucc eq_refl) as (p & -> & Hm & Hf).
    exists p. split_and!; [done|done| |].
    + intros Hw Hn.
      pose proof (wf_PrepareWrite fileId len w c Hw) as Hw'.
      pose proof (no_null_PrepareWrite fileId len w c Hn) as Hn'.
      rewrite Hp in Hw', Hn'. simpl in Hw', Hn'.
      destruct (iterators_valid_node c' fileId p (proj1 Hw') Hm)
        as (e & Hnode & He & _ & _).
      unfold file_at. rewrite Hnode. simpl.
      by apply (proj1 (no_null_alt c') Hn').
    + intros f Hfa. rewrite (Hf f Hfa). split; [done|].
      destruct (memory_ok fileId len w c); simpl in *.
      * split; [done|]. by intros [? _].
      * split; [|done]. intros _. split; [done|]. by symmetry.
Qed.

(** A write that cannot be given memory and is placed on disk. *)
Lemma PrepareWrite_useDiskFile_witness :
  ∃ pos w' c',
    PrepareWrite "F3" 4 w_ok only_open = ((true, pos), w', c') ∧
    true = memory_ok "F3" 4 w_ok only_open || disk_path_ok "F3" 4 w_ok only_open ∧
    (true = false → pos = None ∧ ∀ e, e ∈ m_cache c' → e ∈ m_cache only_open) ∧
    (true = true →
     ∃ p, pos = Some p ∧ m_map c' !! "F3"%string = Some p ∧
          (wf only_open → no_null only_open → is_Some (file_at p c')) ∧
          ∀ f, file_at p c' = Some f →
               File.useDiskFile f = negb (memory_ok "F3" 4 w_ok only_open) ∧
               (File.useDiskFile f = true ↔
                memory_ok "F3" 4 w_ok only_open = false ∧
                disk_path_ok "F3" 4 w_ok only_open = true)).
Proof.
  eexists _, _, _.
  assert (Hp : PrepareWrite "F3" 4 w_ok only_open =
               ((true, (PrepareWrite "F3" 4 w_ok only_open).1.1.2),
                (PrepareWrite "F3" 4 w_ok only_open).1.2,
                (PrepareWrite "F3" 4 w_ok only_open).2)).
  { vm_compute. reflexivity. }
  split; [exact Hp|].
  exact (PrepareWrite_useDiskFile "F3" 4 w_ok only_open _ _ _ _ Hp).
Defined.

(** * C9: zero-length writes *)

(** C9: a write of length zero succeeds and moves no byte: the scratch disk,
    the directory tree, the size counter and every cached [File] are as
    before.  The entry of a cached identifier becomes the front (most recently
    used) of the order, the others keeping their order; an identifier that is
    not cached gets a new entry with an empty [File] at the front. *)
Theorem Write_zero_length (fileId : string) (offset : Z)
    (buffer : option (list Byte.byte)) (dirTree : option DirectoryTree.t)
    (o : bool) (w : World) (c : Cache.t) :
  iterators_valid c →
  ∃ c' e,
    Write fileId offset 0 buffer dirTree o w c = (true, w, c', dirTree) ∧
    m_size c' = m_size c ∧
    m_map c' !! fileId = Some (e_id e) ∧ e_key e = fileId ∧
    if HasFile c fileId then
      e ∈ m_cache c ∧ m_cache c' = e :: unlink (e_id e) (m_cache c) ∧
      m_map c' = m_map c
    else
      e_file e = Some (File.make fileId) ∧ m_cache c' = e :: m_cache c ∧
      m_map c' = <[fileId := e_id e]> (m_map c).
Proof.
  intros Hv. unfold Write. simpl. unfold touch.
  destruct (m_map c !! fileId) as [pos|] eqn:Hk.
  - destruct (iterators_valid_node c fileId pos Hv Hk) as (e & Hn & He & <- & Hkey).
    exists (set_cache (splice_front (e_id e) (m_cache c)) c), e.
    rewrite (proj2 (HasFile_true c fileId)) by eauto.
    simpl. unfold splice_front. rewrite Hn. done.
  - rewrite UnguardedNewEmptyFile_absent by done. simpl.
    eexists _, {| e_id := m_next c; e_key := fileId;
                  e_file := Some (File.make fileId) |}.
    rewrite (proj2 (HasFile_false c fileId)) by done.
    split_and!; try reflexivity. apply lookup_insert_eq.
Qed.

(** A zero-length write to the cached file "a". *)
Lemma Write_zero_length_witness :
  ∃ c' e,
    Write "a" 0 0 None None false w_ok one_file = (true, w_ok, c', None) ∧
    m_size c' = m_size one_file ∧
    m_map c' !! "a"%string = Some (e_id e) ∧ e_key e = "a"%string ∧
    if HasFile one_file "a" then
      e ∈ m_cache one_file ∧
      m_cache c' = e :: unlink (e_id e) (m_cache one_file) ∧
      m_map c' = m_map one_file
    else
      e_file e = Some (File.make "a") ∧ m_cache c' = e :: m_cache one_file ∧
      m_map c' = <["a"%string := e_id e]> (m_map one_file).
Proof.
  apply (Write_zero_length "a" 0 None None false w_ok one_file).
  apply (bool_decide_unpack _). vm_compute. exact I.
Defined.

(** * C10: GetFileSize *)

(** C10: [GetFileSize] answers 0 for a file identifier that is not in the
    cache, and the logical size of the [File] held under the identifier when
    it is. *)
Theorem GetFileSize_absent_or_size (c : Cache.t) (fileId : string) :
  (HasFile c fileId = false → GetFileSize c fileId = 0) ∧
  (iterators_valid c → HasFile c fileId = true →
   ∃ e, e ∈ m_cache c ∧ e_key e = fileId ∧
        m_map c !! fileId = Some (e_id e) ∧
        ∀ f, e_file e = Some f → GetFileSize c fileId = File.GetSize f).
Proof.
  unfold HasFile, GetFileSize. split.
  - intros H. apply bool_decide_eq_false in H.
    destruct (m_map c !! fileId) as [pos|] eqn:Hk; [|done].
    exfalso. apply H. eauto.
  - intros Hv H. apply bool_decide_eq_true in H as [pos Hk].
    destruct (iterators_valid_node c fileId pos Hv Hk) as (e & Hn & He & <- & Hkey).
    exists e. split_and!; try done. intros f Hf.
    rewrite Hk. unfold file_at. rewrite Hn. simpl. by rewrite Hf.
Qed.

(** At a cache holding the four-byte file "a". *)
Lemma GetFileSize_absent_or_size_witness :
  GetFileSize one_file "zz" = 0 ∧
  ∃ e, e ∈ m_cache one_file ∧ e_key e = "a"%string ∧
       m_map one_file !! "a"%string = Some (e_id e) ∧
       ∀ f, e_file e = Some f → GetFileSize one_file "a" = File.GetSize f.
Proof.
  split.
  - apply (proj1 (GetFileSize_absent_or_size one_file "zz")). reflexivity.
  - apply (proj2 (GetFileSize_absent_or_size one_file "a")).
    + apply (bool_decide_unpack _). vm_compute. exact I.
    + reflexivity.
Defined.

(** * Further properties of the cache *)

(** ** States reached from an empty cache *)

(** X1: in every state reached from an empty cache by the operations (the
    scratch disk changing freely in between), the list nodes are pairwise
    distinct, every iterator stored in the index designates a node of the
    list that carries the key it is stored under, every node is older than
    the next one to be allocated, and no node holds a null [File]. *)
Theorem reachable_cache_is_sound s :
  reachable s → iterators_valid s.2 ∧ fresh_ok s.2 ∧ no_null s.2.
Proof.
  intros Hr.
  assert (wf s.2 ∧ no_null s.2) as [[Hi Hf] Hn]; [|done].
  induction Hr as [w capacity|w w' c Hr IH|op s Hr IH].
  - split; [apply wf_init|]. apply Forall_nil_2.
  - exact IH.
  - destruct IH as [Hw Hn]. split.
    + by apply wf_run.
    + by apply no_null_run.
Qed.

Lemma reachable_cache_is_sound_witness :
  reachable made_twice ∧
  iterators_valid made_twice.2 ∧ fresh_ok made_twice.2 ∧ no_null made_twice.2.
Proof.
  assert (reachable made_twice) as Hr.
  { unfold made_twice. apply reach_step, reach_step, reach_init. }
  split; [exact Hr|]. exact (reachable_cache_is_sound made_twice Hr).
Defined.

(** X2: in every reachable state [FindFile] returns a [File] exactly for the
    identifiers [HasFile] reports, and the null pointer for the others: the
    index never leads to a missing node or to a null [File]. *)
Theorem reachable_FindFile_iff_HasFile s fileId :
  reachable s →
  (HasFile s.2 fileId = true ↔ is_Some (FindFile fileId s.2).1).
Proof.
  intros Hr.
  pose proof (reachable_wf s Hr) as [Hv Hf].
  pose proof (reachable_no_null s Hr) as Hn.
  rewrite no_null_alt in Hn.
  rewrite HasFile_true. unfold FindFile.
  destruct (m_map s.2 !! fileId) as [pos|] eqn:Hm; simpl.
  - split; [intros _|by eauto].
    destruct (iterators_valid_node _ _ _ Hv Hm) as (e & Hnode & He & Hid & Hk).
    unfold file_at, splice_front. simpl. rewrite Hnode. simpl.
    rewrite Hid, Nat.eqb_refl. simpl. apply Hn, He.
  - split; intros [x Hx]; discriminate.
Qed.

Lemma reachable_FindFile_iff_HasFile_witness :
  reachable made_twice ∧
  (HasFile made_twice.2 "a" = true ↔ is_Some (FindFile "a" made_twice.2).1).
Proof.
  assert (reachable made_twice) as Hr.
  { unfold made_twice. apply reach_step, reach_step, reach_init. }
  split; [exact Hr|]. exact (reachable_FindFile_iff_HasFile made_twice "a" Hr).
Defined.

(** X3: along any sequence of operations that contains no growing [Resize]
    and keeps the cached bytes within a [size_t], [m_size] stays equal to the
    sum of the in-memory bytes of the cached files, whatever was evicted,
    erased, renamed or rewritten on the way. *)
Theorem counter_exact_without_growing_Resize ops : ∀ s,
  wf s.2 → sized s.2 → never_grows ops s → size_ok (run_all ops s).2.
Proof.
  induction ops as [|op ops IH]; intros s Hw Hs Hq.
  - exact (proj1 Hs).
  - destruct Hq as (Hg & Hlt & Hq). simpl. apply IH.
    + by apply wf_run.
    + by apply sized_run.
    + exact Hq.
Qed.

Lemma counter_exact_without_growing_Resize_witness :
  size_ok
    (run_all
       [OpWrite "F1" 0 4 (Some (payload 4)) None false;
        OpWrite "F2" 0 4 (Some (payload 4)) None false;
        OpWrite "F3" 0 4 (Some (payload 4)) None false;
        OpRename "F3" "F2"; OpResize "F2" 2 None; OpErase "F2"]
       (w_ok, init 8)).2.
Proof.
  apply counter_exact_without_growing_Resize.
  - apply (bool_decide_unpack _). vm_compute. exact I.
  - split; [reflexivity | vm_compute; reflexivity].
  - repeat split; try (intros H; exact H); try (vm_compute; reflexivity);
      try (vm_compute; intros H; discriminate H).
Defined.

(** X4: along any sequence of operations in which [MakeFile] is never called
    on an identifier indexed at that point, the index and the list keep
    describing the same files: every list node is the one the index holds
    under the node's key, and every index entry designates a list node with
    that key. *)
Theorem index_agrees_without_remake ops : ∀ s,
  wf s.2 → index_agrees s.2 → never_remakes ops s →
  index_agrees (run_all ops s).2.
Proof.
  induction ops as [|op ops IH]; intros s Hw Ha Hq.
  - exact Ha.
  - destruct Hq as (Hr & Hq). simpl. apply IH.
    + by apply wf_run.
    + by apply index_agrees_run.
    + exact Hq.
Qed.

Lemma index_agrees_without_remake_witness :
  Exact.run_all sample_ops (w_ok, init 8)
    = Some (run_all sample_ops (w_ok, init 8)) ∧
  index_agrees (run_all sample_ops (w_ok, init 8)).2.
Proof.
  split; [vm_compute; reflexivity|].
  apply index_agrees_without_remake.
  - apply (bool_decide_unpack _). vm_compute. exact I.
  - apply (bool_decide_unpack _). vm_compute. exact I.
  - repeat split; try (intros H; exact H);
      try (vm_compute; intros H; discriminate H).
Defined.

(** ** Lookup through the index *)

Lemma node_at_splice pos p l : node_at p (splice_front pos l) = node_at p l.
Proof.
  unfold splice_front. destruct (node_at pos l) as [e|] eqn:He; [|done].
  destruct (node_at_Some _ _ _ He) as [_ Hid].
  destruct (decide (p = pos)) as [->|Hne].
  - unfold node_at at 1. simpl. rewrite Hid, Nat.eqb_refl. simpl. by rewrite He.
  - unfold node_at at 1. simpl.
    destruct (Nat.eqb_spec (e_id e) p) as [Heq|_]; [congruence|].
    apply node_at_unlink_ne. congruence.
Qed.

Lemma file_at_update_file_ne pos p g c :
  pos ≠ p →
  file_at p (set_cache (update_file pos g (m_cache c)) c) = file_at p c.
Proof.
  intros Hne. unfold file_at, update_file. simpl.
  by rewrite node_at_map_node_ne.
Qed.

(** ** [Erase] *)

Lemma Erase_present fileId pos w c :
  m_map c !! fileId = Some pos →
  Erase fileId w c = UnguardedErase fileId pos w c.
Proof. intros Hm. unfold Erase. by rewrite Hm. Qed.

Lemma Erase_absent fileId w c :
  m_map c !! fileId = None → Erase fileId w c = (None, w, c).
Proof. intros Hm. unfold Erase. by rewrite Hm. Qed.

(** X5: on a cache without dangling iterators, [Erase] removes exactly the
    file it is given: afterwards [HasFile] is false for it, every other
    identifier is cached exactly when it was and with the same pages,
    [m_size] has gone down by the in-memory bytes of the erased file, and a
    second [Erase] finds nothing; an identifier that is not cached leaves
    cache and scratch disk as they were and yields [end()]. *)
Theorem Erase_removes_exactly_its_file fileId w c :
  iterators_valid c →
  HasFile (Erase fileId w c).2 fileId = false ∧
  (∀ k, k ≠ fileId →
     HasFile (Erase fileId w c).2 k = HasFile c k ∧
     content (Erase fileId w c).2 k = content c k) ∧
  (∀ pos f, m_map c !! fileId = Some pos → file_at pos c = Some f →
     m_size (Erase fileId w c).2 = wrap (m_size c - File.GetCachedSize f)) ∧
  Erase fileId (Erase fileId w c).1.2 (Erase fileId w c).2 =
    (None, (Erase fileId w c).1.2, (Erase fileId w c).2) ∧
  (HasFile c fileId = false → Erase fileId w c = (None, w, c)).
Proof.
  intros Hv. destruct (m_map c !! fileId) as [pos|] eqn:Hm.
  - rewrite (Erase_present _ _ _ _ Hm).
    assert (m_map (UnguardedErase fileId pos w c).2 !! fileId = None) as Hgone.
    { simpl. apply lookup_delete_eq. }
    split_and!.
    + by apply HasFile_false.
    + intros k Hk. unfold HasFile, content. simpl.
      rewrite lookup_delete_ne by done. split; [done|].
      destruct (m_map c !! k) as [p|] eqn:Hp; [|done]. simpl.
      unfold file_at. simpl. rewrite node_at_unlink_ne; [done|].
      intros ->. apply Hk. exact (iterators_valid_inj _ _ _ _ Hv Hp Hm).
    + intros pos' f Hpos Hf. injection Hpos as <-. simpl. by rewrite Hf.
    + by apply Erase_absent.
    + rewrite HasFile_false, Hm. discriminate.
  - rewrite (Erase_absent _ _ _ Hm). split_and!.
    + by apply HasFile_false.
    + done.
    + discriminate.
    + by apply Erase_absent.
    + done.
Qed.

Lemma Erase_removes_exactly_its_file_witness :
  HasFile (Erase "F1" w_ok two_files).2 "F1" = false ∧
  (∀ k, k ≠ "F1"%string →
     HasFile (Erase "F1" w_ok two_files).2 k = HasFile two_files k ∧
     content (Erase "F1" w_ok two_files).2 k = content two_files k) ∧
  (∀ pos f, m_map two_files !! "F1"%string = Some pos →
     file_at pos two_files = Some f →
     m_size (Erase "F1" w_ok two_files).2 =
       wrap (m_size two_files - File.GetCachedSize f)) ∧
  Erase "F1" (Erase "F1" w_ok two_files).1.2 (Erase "F1" w_ok two_files).2 =
    (None, (Erase "F1" w_ok two_files).1.2, (Erase "F1" w_ok two_files).2) ∧
  (HasFile two_files "F1" = false → Erase "F1" w_ok two_files = (None, w_ok, two_files)).
Proof.
  apply Erase_removes_exactly_its_file.
  apply (bool_decide_unpack _). vm_compute. exact I.
Defined.

(** ** [FindFile] *)

(** X6: [FindFile] changes the recency order and nothing else.  Index,
    [m_size], capacity and the file held by every node stay as they are; the
    result is the file the index designates (the null pointer for an
    identifier that is not cached, in which case the cache is untouched);
    and on a cache without dangling iterators the node found is moved to the
    front while the other nodes keep their relative order. *)
Theorem FindFile_changes_recency_only filePath c :
  m_map (FindFile filePath c).2 = m_map c ∧
  m_size (FindFile filePath c).2 = m_size c ∧
  m_capacity (FindFile filePath c).2 = m_capacity c ∧
  (∀ pos, file_at pos (FindFile filePath c).2 = file_at pos c) ∧
  (∀ k, content (FindFile filePath c).2 k = content c k) ∧
  (FindFile filePath c).1 = (m_map c !! filePath ≫= fun pos => file_at pos c) ∧
  (HasFile c filePath = false → (FindFile filePath c).2 = c) ∧
  (iterators_valid c → HasFile c filePath = true →
   ∃ e, e ∈ m_cache c ∧ e_key e = filePath ∧
        m_cache (FindFile filePath c).2 = e :: unlink (e_id e) (m_cache c)).
Proof.
  unfold FindFile.
  destruct (m_map c !! filePath) as [it|] eqn:Hm; simpl.
  - assert (∀ pos, file_at pos (set_cache (splice_front it (m_cache c)) c)
                   = file_at pos c) as Hfile.
    { intros pos. unfold file_at. simpl. by rewrite node_at_splice. }
    split_and!; try done.
    + intros k. unfold content. simpl.
      destruct (m_map c !! k) as [p|]; [|done]. simpl. by rewrite Hfile.
    + rewrite HasFile_false, Hm. discriminate.
    + intros Hv _.
      destruct (iterators_valid_node _ _ _ Hv Hm) as (e & Hnode & He & Hid & Hk).
      exists e. split_and!; try done.
      unfold splice_front. by rewrite Hnode, Hid.
  - split_and!; try done.
    intros _ Hh. rewrite HasFile_true, Hm in Hh. by destruct Hh.
Qed.

(** ** [SetFileOpen] *)

(** X7: [SetFileOpen] sets open flags and nothing else.  In the cache the
    index, [m_size], the nodes, their keys and their order, and the pages of
    every file are as before; the file the index holds under the identifier
    gets the flag, every other node keeps its file.  In the tree the node of
    the identifier gets the flag and keeps its size, whether or not the file
    is cached, and the other nodes are as before; a null tree stays null. *)
Theorem SetFileOpen_sets_only_the_flag fileId o dirTree c :
  m_map (SetFileOpen fileId o dirTree c).1 = m_map c ∧
  m_size (SetFileOpen fileId o dirTree c).1 = m_size c ∧
  ids (m_cache (SetFileOpen fileId o dirTree c).1) = ids (m_cache c) ∧
  keys (m_cache (SetFileOpen fileId o dirTree c).1) = keys (m_cache c) ∧
  (∀ k, content (SetFileOpen fileId o dirTree c).1 k = content c k) ∧
  (∀ pos, m_map c !! fileId = Some pos →
     file_at pos (SetFileOpen fileId o dirTree c).1 =
       File.SetOpen o <$> file_at pos c) ∧
  (∀ pos, m_map c !! fileId ≠ Some pos →
     file_at pos (SetFileOpen fileId o dirTree c).1 = file_at pos c) ∧
  (∀ tree, dirTree = Some tree →
     ∃ tree', (SetFileOpen fileId o dirTree c).2 = Some tree' ∧
       tree' !! fileId = Node.SetFileOpen o <$> tree !! fileId ∧
       ∀ k, k ≠ fileId → tree' !! k = tree !! k) ∧
  (dirTree = None → (SetFileOpen fileId o dirTree c).2 = None).
Proof.
  assert (∀ pos l, keys (update_file pos (File.SetOpen o) l) = keys l) as Hkeys.
  { intros pos l. unfold keys, update_file, map_node.
    induction l as [|x l IH]; [done|]. simpl.
    f_equal; [|exact IH]. by destruct (e_id x =? pos)%nat. }
  unfold SetFileOpen. simpl.
  split_and!.
  - by destruct (m_map c !! fileId).
  - by destruct (m_map c !! fileId).
  - destruct (m_map c !! fileId); [|done]. simpl. apply ids_update_file.
  - destruct (m_map c !! fileId); [|done]. simpl. apply Hkeys.
  - intros k. unfold content.
    destruct (m_map c !! fileId) as [pos|] eqn:Hm; [|done]. simpl.
    destruct (m_map c !! k) as [p|]; [|done]. simpl.
    destruct (decide (pos = p)) as [->|Hne].
    + rewrite file_at_update_file. by destruct (file_at p c).
    + by rewrite file_at_update_file_ne.
  - intros pos ->. apply file_at_update_file.
  - intros pos Hne. destruct (m_map c !! fileId) as [p|] eqn:Hm; [|done].
    apply file_at_update_file_ne. congruence.
  - intros tree ->. unfold DirectoryTree.Find, DirectoryTree.update.
    destruct (tree !! fileId) as [node|] eqn:Hn.
    + eexists. split; [done|]. split.
      * by rewrite lookup_insert_eq.
      * intros k Hk. by rewrite lookup_insert_ne.
    + exists tree. by rewrite Hn.
  - by intros ->.
Qed.

(** ** Opening a file pins it *)

Lemma evict_loop_spares enough u w c k pos e :
  index_agrees c → m_map c !! k = Some pos →
  node_at pos (m_cache c) = Some e → kept u e →
  m_map (evict_loop enough u (rev (m_cache c)) w c).2 !! k = Some pos ∧
  node_at pos (m_cache (evict_loop enough u (rev (m_cache c)) w c).2) = Some e.
Proof.
  intros Ha Hm Hnode Hkept.
  pose proof Ha as [[Hnd Hidx] _].
  destruct (node_at_Some _ _ _ Hnode) as [He Hid].
  destruct (iterators_valid_lookup _ _ _ (proj1 Ha) Hm) as (e' & He' & Hid' & Hk').
  assert (e' = e) as ->.
  { apply (ids_inj (m_cache c)); try done. congruence. }
  split.
  - rewrite <- Hm. apply evict_loop_map_stable.
    intros x Hx Hxk. rewrite elem_of_rev in Hx.
    assert (x = e) as ->; [|done].
    apply (index_agrees_key_unique c); try done. congruence.
  - pose proof (index_agrees_evict_loop enough u w c Ha) as [[Hnd' _] _].
    rewrite <- Hid. apply node_at_NoDup; [done|].
    apply (evict_loop_keeps enough u (m_cache c)); try done.
    intros x Hx. by rewrite elem_of_rev in Hx.
Qed.

(** X8: a file marked open with [SetFileOpen] is pinned.  On a cache whose
    index and list agree and that holds no null [File], after
    [SetFileOpen(fileId, true, tree)] neither [Free] nor
    [FreeDiskCacheFiles], whatever their size and unfreeable arguments and
    whatever the state of the scratch disk, removes [fileId]: it is still
    indexed and still has the pages it had. *)
Theorem SetFileOpen_pins_file fileId dirTree size u w c :
  index_agrees c → no_null c → HasFile c fileId = true →
  (HasFile (Free size u w (SetFileOpen fileId true dirTree c).1).2 fileId
     = true ∧
   content (Free size u w (SetFileOpen fileId true dirTree c).1).2 fileId
     = content c fileId) ∧
  (HasFile (FreeDiskCacheFiles size u w (SetFileOpen fileId true dirTree c).1).2
     fileId = true ∧
   content (FreeDiskCacheFiles size u w (SetFileOpen fileId true dirTree c).1).2
     fileId = content c fileId).
Proof.
  intros Ha Hn Hh.
  rewrite HasFile_true in Hh. destruct Hh as [pos Hm].
  destruct (iterators_valid_node _ _ _ (proj1 Ha) Hm)
    as (e & Hnode & He & Hid & Hk).
  rewrite no_null_alt in Hn. destruct (Hn e He) as [f Hf].
  set (c1 := (SetFileOpen fileId true dirTree c).1).
  set (e1 := {| e_id := e_id e; e_key := e_key e;
                e_file := File.SetOpen true <$> e_file e |}).
  assert (index_agrees c1) as Ha1 by apply index_agrees_SetFileOpen, Ha.
  assert (m_map c1 !! fileId = Some pos) as Hm1.
  { unfold c1, SetFileOpen. simpl. by rewrite Hm. }
  assert (node_at pos (m_cache c1) = Some e1) as Hnode1.
  { unfold c1, SetFileOpen. simpl. rewrite Hm. simpl.
    unfold update_file. rewrite node_at_map_node by done. by rewrite Hnode. }
  assert (kept u e1) as Hkept.
  { apply (open_is_kept u e1 (File.SetOpen true f)); [|done].
    unfold e1. simpl. by rewrite Hf. }
  assert (content c fileId = Some (File.pages f)) as Hc.
  { unfold content, file_at. rewrite Hm. simpl. rewrite Hnode. simpl.
    by rewrite Hf. }
  assert (∀ c', m_map c' !! fileId = Some pos →
                node_at pos (m_cache c') = Some e1 →
                HasFile c' fileId = true ∧ content c' fileId = content c fileId)
    as Hgoal.
  { intros c' Hm' Hn'. split; [apply HasFile_true; eauto|].
    rewrite Hc. unfold content, file_at. rewrite Hm'. simpl. rewrite Hn'.
    unfold e1. simpl. by rewrite Hf. }
  split.
  - rewrite Free_unfold.
    destruct (GetCapacity c1 <? size); [by apply Hgoal|].
    destruct (HasFreeSpace c1 size); [by apply Hgoal|].
    destruct (evict_loop_spares (fun _ c => HasFreeSpace c size) u w c1
                fileId pos e1 Ha1 Hm1 Hnode1 Hkept) as [Hm2 Hn2].
    by apply Hgoal.
  - rewrite FreeDiskCacheFiles_unfold.
    destruct (IsSafeDiskSpace w size); [by apply Hgoal|].
    destruct (evict_loop_spares (fun w _ => IsSafeDiskSpace w size) u w c1
                fileId pos e1 Ha1 Hm1 Hnode1 Hkept) as [Hm2 Hn2].
    by apply Hgoal.
Qed.

Lemma SetFileOpen_pins_file_witness :
  (Exact.Free 12 "" w_ok (SetFileOpen "F1" true None two_files).1
     = Some (Free 12 "" w_ok (SetFileOpen "F1" true None two_files).1) ∧
   HasFile (Free 12 "" w_ok (SetFileOpen "F1" true None two_files).1).2 "F2"
     = false ∧
   HasFile (Free 12 "" w_ok (SetFileOpen "F1" true None two_files).1).2 "F1"
     = true ∧
   content (Free 12 "" w_ok (SetFileOpen "F1" true None two_files).1).2 "F1"
     = content two_files "F1") ∧
  (Exact.FreeDiskCacheFiles 5 "" w_tight
     (SetFileOpen "F1" true None disk_between).1
     = Some (FreeDiskCacheFiles 5 "" w_tight
               (SetFileOpen "F1" true None disk_between).1) ∧
   HasFile
     (FreeDiskCacheFiles 5 "" w_tight
        (SetFileOpen "F1" true None disk_between).1).2 "F2" = false ∧
   HasFile
     (FreeDiskCacheFiles 5 "" w_tight
        (SetFileOpen "F1" true None disk_between).1).2 "F1" = true ∧
   content
     (FreeDiskCacheFiles 5 "" w_tight
        (SetFileOpen "F1" true None disk_between).1).2 "F1"
     = content disk_between "F1").
Proof.
  pose proof (SetFileOpen_pins_file "F1" None 12 "" w_ok two_files) as H1.
  pose proof (SetFileOpen_pins_file "F1" None 5 "" w_tight disk_between) as H2.
  assert (index_agrees two_files) as Ha.
  { apply (bool_decide_unpack _). vm_compute. exact I. }
  assert (no_null two_files) as Hn.
  { apply (bool_decide_unpack _). vm_compute. exact I. }
  assert (index_agrees disk_between) as Ha'.
  { apply (bool_decide_unpack _). vm_compute. exact I. }
  assert (no_null disk_between) as Hn'.
  { apply (bool_decide_unpack _). vm_compute. exact I. }
  split.
  - split; [vm_compute; reflexivity|]. split; [reflexivity|].
    exact (proj1 (H1 Ha Hn eq_refl)).
  - split; [vm_compute; reflexivity|]. split; [reflexivity|].
    exact (proj2 (H2 Ha' Hn' eq_refl)).
Defined.

(** ** The write path *)

Lemma Free_true_has_space size u w c :
  (Free size u w c).1.1 = true → HasFreeSpace (Free size u w c).2 size = true.
Proof.
  rewrite Free_unfold. destruct (GetCapacity c <? size); [done|].
  destruct (HasFreeSpace c size) eqn:Hfs; [done|]. done.
Qed.

(** The ways through [PrepareWrite]: it fails after [Free], or after
    [FreeDiskCacheFiles], or it ends with the placement of the target in the
    cache as it is, as [Free] left it or as [FreeDiskCacheFiles] left it;
    memory placement is chosen only when [HasFreeSpace] holds there. *)
Lemma PrepareWrite_elim fileId len w c
    (P : (bool * option nat) * World * Cache.t → Prop) :
  (∀ avail (w0 : World) c0,
     c0 = c ∨ c0 = (Free len fileId w c).2 ∨
     c0 = (FreeDiskCacheFiles len fileId (Free len fileId w c).1.2
             (Free len fileId w c).2).2 →
     (avail = true → HasFreeSpace c0 len = true) →
     P ((true, (place fileId avail c0).1), w0, (place fileId avail c0).2)) →
  (∀ (w0 : World) c0,
     c0 = (Free len fileId w c).2 ∨
     c0 = (FreeDiskCacheFiles len fileId (Free len fileId w c).1.2
             (Free len fileId w c).2).2 →
     P ((false, None), w0, c0)) →
  P (PrepareWrite fileId len w c).
Proof.
  unfold PrepareWrite.
  pose proof (Free_true_has_space len fileId w c) as Hft. revert Hft.
  destruct (HasFreeSpace c len) eqn:Hfs.
  - intros _ Hok _. specialize (Hok true w c (or_introl eq_refl) (fun _ => Hfs)).
    by destruct (place fileId true c).
  - destruct (Free len fileId w c) as [[avail w1] c1]. simpl.
    intros Hft Hok Hfail. destruct avail.
    + specialize (Hok true w1 c1 (or_intror (or_introl eq_refl)) Hft).
      by destruct (place fileId true c1).
    + destruct (CreateDirectoryIfNotExists w1); simpl;
        [|apply Hfail; by left].
      destruct (IsSafeDiskSpace w1 len).
      * specialize (Hok false w1 c1 (or_intror (or_introl eq_refl))).
        destruct (place fileId false c1). by apply Hok.
      * destruct (FreeDiskCacheFiles len fileId w1 c1) as [[okd w2] c2].
        simpl in *. destruct okd; [|apply Hfail; by right].
        specialize (Hok false w2 c2 (or_intror (or_intror eq_refl))).
        destruct (place fileId false c2). by apply Hok.
Qed.

Lemma place_front fileId avail c :
  iterators_valid c → most_recently_used fileId (place fileId avail c).2.
Proof.
  intros Hv. unfold place, most_recently_used.
  destruct (m_map c !! fileId) as [it|] eqn:Hk.
  - destruct (iterators_valid_node _ _ _ Hv Hk) as (e & Hnode & He & Hid & Hkey).
    simpl. unfold splice_front. rewrite Hnode. unfold update_file, map_node.
    simpl. rewrite Hid, Nat.eqb_refl. simpl. done.
  - rewrite UnguardedNewEmptyFile_absent by done. simpl.
    rewrite Nat.eqb_refl. simpl. split; [done|]. apply lookup_insert_eq.
Qed.

Lemma place_target fileId avail c :
  ∃ p, (place fileId avail c).1 = Some p ∧
       m_map (place fileId avail c).2 !! fileId = Some p.
Proof.
  destruct (place fileId avail c) as [pos c'] eqn:Hp.
  destruct (place_flag _ _ _ _ _ Hp) as (p & -> & Hm & _). by exists p.
Qed.

Lemma most_recently_used_update_file fileId g c :
  most_recently_used fileId c → ∀ pos,
  most_recently_used fileId (set_cache (update_file pos g (m_cache c)) c).
Proof.
  unfold most_recently_used. destruct (m_cache c) as [|e rest]; [done|].
  intros [Hk Hm] pos. simpl. by destruct (e_id e =? pos)%nat.
Qed.

Lemma touch_front fileId c :
  iterators_valid c → most_recently_used fileId (touch fileId c).
Proof.
  intros Hv. unfold touch, most_recently_used.
  destruct (m_map c !! fileId) as [it|] eqn:Hk.
  - destruct (iterators_valid_node _ _ _ Hv Hk) as (e & Hnode & He & Hid & Hkey).
    simpl. unfold splice_front. rewrite Hnode. simpl. by rewrite Hid.
  - rewrite UnguardedNewEmptyFile_absent by done. simpl.
    split; [done|]. apply lookup_insert_eq.
Qed.

Lemma write_valid_front fileId offset len src dirTree o w c :
  wf c →
  (write_valid fileId offset len src dirTree o w c).1.1.1 = true →
  most_recently_used fileId
    (write_valid fileId offset len src dirTree o w c).1.2.
Proof.
  intros Hw. unfold write_valid.
  apply (PrepareWrite_elim fileId len w c); [|done].
  intros avail w0 c0 Hst _.
  assert (wf c0) as [Hv0 _].
  { destruct Hst as [->| [->| ->]]; [done|by apply wf_Free|].
    by apply wf_FreeDiskCacheFiles, wf_Free. }
  pose proof (place_front fileId avail c0 Hv0) as Hfront.
  destruct (place fileId avail c0) as [pos c1]. simpl in *.
  destruct pos as [pos|]; [|done].
  destruct (file_at pos c1) as [file|]; [|done].
  destruct (File.Write offset len src o w0 file) as [[[[okf added] ad] w2] f'].
  destruct okf; [|done]. intros _. simpl.
  exact (most_recently_used_update_file fileId (fun _ => f') c1 Hfront pos).
Qed.

(** X9: a write that succeeds leaves its file most recently used.  On a
    cache without dangling iterators, whenever either overload of [Write]
    returns true, for any length, the front node of the order is keyed by
    the file identifier and is the node the index holds under it; so
    [HasFile] is true for the identifier. *)
Theorem Write_success_most_recently_used fileId offset len data dirTree o w c :
  wf c →
  ((Write fileId offset len data dirTree o w c).1.1.1 = true →
   most_recently_used fileId (Write fileId offset len data dirTree o w c).1.2 ∧
   HasFile (Write fileId offset len data dirTree o w c).1.2 fileId = true) ∧
  ((WriteStream fileId offset len data dirTree o w c).1.1.1 = true →
   most_recently_used fileId
     (WriteStream fileId offset len data dirTree o w c).1.2 ∧
   HasFile (WriteStream fileId offset len data dirTree o w c).1.2 fileId = true).
Proof.
  intros Hw.
  assert (∀ c', most_recently_used fileId c' →
                most_recently_used fileId c' ∧ HasFile c' fileId = true) as Hh.
  { intros c' Hm. split; [done|]. apply HasFile_true.
    unfold most_recently_used in Hm. destruct (m_cache c'); [done|].
    destruct Hm as [_ Hm]. eauto. }
  split; intros Hok; apply Hh; revert Hok.
  - unfold Write. destruct (len =? 0).
    + intros _. simpl. apply touch_front, Hw.
    + destruct data as [src|]; [|done].
      destruct (_ && _); [|done]. by apply write_valid_front.
  - unfold WriteStream. destruct (len =? 0).
    + intros _. simpl. apply touch_front, Hw.
    + destruct data as [src|]; [|done].
      destruct (_ && _); [|done]. destruct (len <=? _); [|done].
      by apply write_valid_front.
Qed.

Lemma Write_success_most_recently_used_witness :
  ((Write "F1" 2 12 (Some (payload 12)) None false w_ok two_files).1.1.1
     = true ∧
   most_recently_used "F1"
     (Write "F1" 2 12 (Some (payload 12)) None false w_ok two_files).1.2 ∧
   HasFile (Write "F1" 2 12 (Some (payload 12)) None false w_ok two_files).1.2
     "F1" = true) ∧
  ((WriteStream "F1" 2 12 (Some (payload 12)) None false w_ok two_files).1.1.1
     = true ∧
   most_recently_used "F1"
     (WriteStream "F1" 2 12 (Some (payload 12)) None false w_ok two_files).1.2 ∧
   HasFile
     (WriteStream "F1" 2 12 (Some (payload 12)) None false w_ok two_files).1.2
     "F1" = true).
Proof.
  assert (wf two_files) as Hw.
  { apply (bool_decide_unpack _). vm_compute. exact I. }
  destruct (Write_success_most_recently_used "F1" 2 12 (Some (payload 12))
              None false w_ok two_files Hw) as [H1 H2].
  split.
  - split; [reflexivity|]. apply H1. reflexivity.
  - split; [reflexivity|]. apply H2. reflexivity.
Defined.

(** X10: when [PrepareWrite] succeeds and leaves its target in memory
    placement ([useDiskFile] false), the whole length fits: [HasFreeSpace]
    holds for [len] in the cache it returns, so the bytes the following
    [File.Write] may add to [m_size] stay within the capacity. *)
Theorem PrepareWrite_memory_placement_fits fileId len w c p f :
  (PrepareWrite fileId len w c).1.1 = (true, Some p) →
  file_at p (PrepareWrite fileId len w c).2 = Some f →
  File.useDiskFile f = false →
  HasFreeSpace (PrepareWrite fileId len w c).2 len = true.
Proof.
  revert p f. apply (PrepareWrite_elim fileId len w c); [|done].
  intros avail w0 c0 _ Hav p f. simpl. intros Hp Hf Hd.
  destruct (place fileId avail c0) as [pos c1] eqn:Hpl.
  simpl in *. injection Hp as ->.
  destruct (place_flag _ _ _ _ _ Hpl) as (q & Hq & _ & Hflag).
  injection Hq as <-.
  apply Hflag in Hf. rewrite Hd in Hf.
  destruct avail; [|done].
  pose proof (place_counters fileId true c0) as [Hs Hc]. rewrite Hpl in Hs, Hc.
  simpl in Hs, Hc. unfold HasFreeSpace, GetSize, GetCapacity.
  rewrite Hs, Hc. by apply Hav.
Qed.

Lemma PrepareWrite_memory_placement_fits_witness :
  ∃ p f,
    (PrepareWrite "F3" 12 w_ok two_files).1.1 = (true, Some p) ∧
    file_at p (PrepareWrite "F3" 12 w_ok two_files).2 = Some f ∧
    File.useDiskFile f = false ∧
    HasFreeSpace two_files 12 = false ∧
    HasFreeSpace (PrepareWrite "F3" 12 w_ok two_files).2 12 = true.
Proof.
  eexists _, _.
  assert ((PrepareWrite "F3" 12 w_ok two_files).1.1 = (true, Some 2%nat))
    as Hp by reflexivity.
  assert (file_at 2 (PrepareWrite "F3" 12 w_ok two_files).2 =
          Some (File.make "F3")) as Hf by reflexivity.
  split; [exact Hp|]. split; [exact Hf|]. split; [reflexivity|].
  split; [reflexivity|].
  exact (PrepareWrite_memory_placement_fits "F3" 12 w_ok two_files _ _
           Hp Hf eq_refl).
Defined.

(** ** The file a write is for is never evicted *)

Lemma evict_loop_spares_target enough u w c pos e :
  wf c → no_null c → m_map c !! u = Some pos →
  node_at pos (m_cache c) = Some e →
  m_map (evict_loop enough u (rev (m_cache c)) w c).2 !! u = Some pos ∧
  node_at pos (m_cache (evict_loop enough u (rev (m_cache c)) w c).2) = Some e.
Proof.
  intros Hw Hn Hm Hnode.
  pose proof Hw as [[Hnd _] _].
  destruct (node_at_Some _ _ _ Hnode) as [He Hid].
  rewrite no_null_alt in Hn.
  assert (∀ x, x ∈ m_cache c → e_key x = u → kept u x) as Hkept.
  { intros x Hx Hk. apply kept_cases. destruct (Hn x Hx) as [f Hf]. eauto. }
  destruct (iterators_valid_lookup _ _ _ (proj1 Hw) Hm) as (e' & He' & Hid' & Hk').
  assert (e' = e) as ->.
  { apply (ids_inj (m_cache c)); try done. congruence. }
  split.
  - rewrite <- Hm. apply evict_loop_map_stable.
    intros x Hx Hxk. rewrite elem_of_rev in Hx. by apply Hkept.
  - pose proof (wf_evict_loop enough u w c Hw) as [[Hnd' _] _].
    rewrite <- Hid. apply node_at_NoDup; [done|].
    apply (evict_loop_keeps enough u (m_cache c)); try done.
    + intros x Hx. by rewrite elem_of_rev in Hx.
    + by apply Hkept.
Qed.

Lemma Free_spares_target size u w c pos e :
  wf c → no_null c → m_map c !! u = Some pos →
  node_at pos (m_cache c) = Some e →
  m_map (Free size u w c).2 !! u = Some pos ∧
  node_at pos (m_cache (Free size u w c).2) = Some e.
Proof.
  intros Hw Hn Hm Hnode. rewrite Free_unfold.
  destruct (GetCapacity c <? size); [done|].
  destruct (HasFreeSpace c size); [done|].
  by apply evict_loop_spares_target.
Qed.

Lemma FreeDiskCacheFiles_spares_target size u w c pos e :
  wf c → no_null c → m_map c !! u = Some pos →
  node_at pos (m_cache c) = Some e →
  m_map (FreeDiskCacheFiles size u w c).2 !! u = Some pos ∧
  node_at pos (m_cache (FreeDiskCacheFiles size u w c).2) = Some e.
Proof.
  intros Hw Hn Hm Hnode. rewrite FreeDiskCacheFiles_unfold.
  destruct (IsSafeDiskSpace w size); [done|].
  by apply evict_loop_spares_target.
Qed.

Lemma place_present_content fileId avail c pos :
  m_map c !! fileId = Some pos →
  m_map (place fileId avail c).2 !! fileId = Some pos ∧
  content (place fileId avail c).2 fileId = content c fileId.
Proof.
  intros Hm. unfold place, content. rewrite Hm. simpl. rewrite Hm. simpl.
  split; [done|].
  rewrite (file_at_update_file pos _ (set_cache (splice_front pos (m_cache c)) c)).
  unfold file_at. simpl. rewrite node_at_splice.
  destruct (node_at pos (m_cache c)) as [e|]; [|done]. simpl.
  by destruct (e_file e).
Qed.

(** X11: the eviction loops never remove the file they are told to spare.
    On a well-formed cache (no dangling iterator, no null [File]) that holds
    [fileId], after [Free] or [FreeDiskCacheFiles] with [fileId] as the
    unfreeable file, and after [PrepareWrite] for [fileId] whether it
    succeeds or fails, [fileId] is still indexed and has the pages it had:
    a write never loses the earlier content of its own target to the
    eviction it triggers. *)
Theorem eviction_spares_its_target fileId size w c :
  wf c → no_null c → HasFile c fileId = true →
  (HasFile (Free size fileId w c).2 fileId = true ∧
   content (Free size fileId w c).2 fileId = content c fileId) ∧
  (HasFile (FreeDiskCacheFiles size fileId w c).2 fileId = true ∧
   content (FreeDiskCacheFiles size fileId w c).2 fileId = content c fileId) ∧
  (HasFile (PrepareWrite fileId size w c).2 fileId = true ∧
   content (PrepareWrite fileId size w c).2 fileId = content c fileId).
Proof.
  intros Hw Hn Hh.
  rewrite HasFile_true in Hh. destruct Hh as [pos Hm].
  destruct (iterators_valid_node _ _ _ (proj1 Hw) Hm)
    as (e & Hnode & He & Hid & Hk).
  assert (∀ c', m_map c' !! fileId = Some pos ∧
                node_at pos (m_cache c') = Some e →
                HasFile c' fileId = true ∧ content c' fileId = content c fileId)
    as Hgoal.
  { intros c' [Hm' Hn']. split; [apply HasFile_true; eauto|].
    unfold content, file_at. rewrite Hm, Hm'. simpl. by rewrite Hnode, Hn'. }
  pose proof (Free_spares_target size fileId w c pos e Hw Hn Hm Hnode) as Hfree.
  split; [|split].
  - by apply Hgoal.
  - by apply Hgoal, FreeDiskCacheFiles_spares_target.
  - assert (m_map (FreeDiskCacheFiles size fileId (Free size fileId w c).1.2
                     (Free size fileId w c).2).2 !! fileId = Some pos ∧
            node_at pos
              (m_cache (FreeDiskCacheFiles size fileId (Free size fileId w c).1.2
                          (Free size fileId w c).2).2) = Some e) as Hdisk.
    { destruct Hfree as [Hm1 Hn1].
      apply FreeDiskCacheFiles_spares_target; try done.
      - by apply wf_Free.
      - by apply no_null_Free. }
    apply (PrepareWrite_elim fileId size w c).
    + intros avail w0 c0 Hst _. simpl.
      assert (m_map c0 !! fileId = Some pos ∧
              node_at pos (m_cache c0) = Some e) as Hc0.
      { destruct Hst as [->| [->| ->]]; done. }
      destruct (place_present_content fileId avail c0 pos (proj1 Hc0))
        as [Hm1 Hc1].
      split; [apply HasFile_true; eauto|].
      rewrite Hc1. by apply Hgoal.
    + intros w0 c0 Hst. simpl. apply Hgoal.
      destruct Hst as [->| ->]; done.
Qed.

Lemma eviction_spares_its_target_witness :
  (Exact.Free 12 "F1" w_ok two_files = Some (Free 12 "F1" w_ok two_files) ∧
   HasFile (Free 12 "F1" w_ok two_files).2 "F2" = false ∧
   HasFile (Free 12 "F1" w_ok two_files).2 "F1" = true ∧
   content (Free 12 "F1" w_ok two_files).2 "F1" = content two_files "F1") ∧
  (Exact.FreeDiskCacheFiles 5 "F1" w_tight disk_between
     = Some (FreeDiskCacheFiles 5 "F1" w_tight disk_between) ∧
   HasFile (FreeDiskCacheFiles 5 "F1" w_tight disk_between).2 "F2" = false ∧
   HasFile (FreeDiskCacheFiles 5 "F1" w_tight disk_between).2 "F1" = true ∧
   content (FreeDiskCacheFiles 5 "F1" w_tight disk_between).2 "F1"
     = content disk_between "F1") ∧
  (Exact.PrepareWrite "F1" 12 w_ok two_files
     = Some (PrepareWrite "F1" 12 w_ok two_files) ∧
   HasFile (PrepareWrite "F1" 12 w_ok two_files).2 "F2" = false ∧
   HasFile (PrepareWrite "F1" 12 w_ok two_files).2 "F1" = true ∧
   content (PrepareWrite "F1" 12 w_ok two_files).2 "F1"
     = content two_files "F1").
Proof.
  assert (wf two_files) as Hw.
  { apply (bool_decide_unpack _). vm_compute. exact I. }
  assert (no_null two_files) as Hn.
  { apply (bool_decide_unpack _). vm_compute. exact I. }
  assert (wf disk_between) as Hw'.
  { apply (bool_decide_unpack _). vm_compute. exact I. }
  assert (no_null disk_between) as Hn'.
  { apply (bool_decide_unpack _). vm_compute. exact I. }
  destruct (eviction_spares_its_target "F1" 12 w_ok two_files Hw Hn eq_refl)
    as (H1 & _ & H3).
  destruct (eviction_spares_its_target "F1" 5 w_tight disk_between Hw' Hn'
              eq_refl) as (_ & H2 & _).
  split; [|split].
  - split; [vm_compute; reflexivity|]. split; [reflexivity|exact H1].
  - split; [vm_compute; reflexivity|]. split; [reflexivity|exact H2].
  - split; [vm_compute; reflexivity|]. split; [reflexivity|exact H3].
Defined.

(** ** The eviction loops *)

Lemma evict_loop_capacity enough u its : ∀ w c,
  m_capacity (evict_loop enough u its w c).2 = m_capacity c.
Proof.
  induction its as [|e rest IH]; intros w c; [done|]. simpl.
  destruct (enough w c); [done|].
  destruct (e_file e) as [f|]; [|by rewrite IH].
  destruct (_ && _); by rewrite IH.
Qed.

Lemma unlink_sublist pos l : unlink pos l `sublist_of` l.
Proof. apply sublist_filter. Qed.

Lemma evict_loop_shrinks enough u its : ∀ w c,
  m_cache (evict_loop enough u its w c).2 `sublist_of` m_cache c ∧
  m_map (evict_loop enough u its w c).2 ⊆ m_map c.
Proof.
  induction its as [|e rest IH]; intros w c; [done|]. simpl.
  destruct (enough w c); [done|].
  destruct (e_file e) as [f|].
  - destruct (_ && _); [|apply IH].
    destruct (IH (evict e f w c).1 (evict e f w c).2) as [Hl Hm].
    split.
    + etrans; [exact Hl|]. apply unlink_sublist.
    + etrans; [exact Hm|]. apply delete_subseteq.
  - destruct (IH w (drop_null e c)) as [Hl Hm]. split.
    + etrans; [exact Hl|]. apply unlink_sublist.
    + etrans; [exact Hm|]. apply delete_subseteq.
Qed.

(** X13: the eviction loops only remove.  After [Free] or
    [FreeDiskCacheFiles] the order is a sublist of the order before (no
    entry is added, changed or moved relative to another), the index is a
    part of the index before, the capacity is the same, and, the list nodes
    being distinct, every entry that is neither a null [File] nor a closed
    [File] other than the unfreeable one is still there. *)
Theorem eviction_only_removes size u w c :
  (m_cache (Free size u w c).2 `sublist_of` m_cache c ∧
   m_map (Free size u w c).2 ⊆ m_map c ∧
   m_capacity (Free size u w c).2 = m_capacity c ∧
   (NoDup (ids (m_cache c)) →
    ∀ x, x ∈ m_cache c → kept u x → x ∈ m_cache (Free size u w c).2)) ∧
  (m_cache (FreeDiskCacheFiles size u w c).2 `sublist_of` m_cache c ∧
   m_map (FreeDiskCacheFiles size u w c).2 ⊆ m_map c ∧
   m_capacity (FreeDiskCacheFiles size u w c).2 = m_capacity c ∧
   (NoDup (ids (m_cache c)) →
    ∀ x, x ∈ m_cache c → kept u x →
         x ∈ m_cache (FreeDiskCacheFiles size u w c).2)).
Proof.
  assert (∀ enough,
    let r := evict_loop enough u (rev (m_cache c)) w c in
    m_cache r.2 `sublist_of` m_cache c ∧ m_map r.2 ⊆ m_map c ∧
    m_capacity r.2 = m_capacity c ∧
    (NoDup (ids (m_cache c)) →
     ∀ x, x ∈ m_cache c → kept u x → x ∈ m_cache r.2)) as Hloop.
  { intros enough r.
    destruct (evict_loop_shrinks enough u (rev (m_cache c)) w c) as [Hl Hm].
    split_and!; try done.
    - apply evict_loop_capacity.
    - intros Hnd x Hx Hk.
      apply (evict_loop_keeps enough u (m_cache c)); try done.
      intros y Hy. by rewrite elem_of_rev in Hy. }
  split.
  - rewrite Free_unfold.
    destruct (GetCapacity c <? size); [done|].
    destruct (HasFreeSpace c size); [done|]. apply Hloop.
  - rewrite FreeDiskCacheFiles_unfold.
    destruct (IsSafeDiskSpace w size); [done|]. apply Hloop.
Qed.

(** ** [FreeDiskCacheFiles], entry by entry *)

(** X14: [FreeDiskCacheFiles] follows the same policy as [Free], with the
    safe-disk-space test in place of the memory test.  Whenever it returns,
    it returns whether the scratch disk it leaves is safe for [size]; and
    either it has changed nothing, the disk being safe at the start or no
    entry being removable, or it has scanned the order from the back (least
    recently used first) while the disk was unsafe, has stepped over
    [fileUnfreeable] and the open [File]s, and has erased what it met first
    that was a null pointer or a closed [File] other than [fileUnfreeable],
    whereupon the disk was safe: the in-memory bytes of that entry are off
    [m_size], its index entry is gone, and every other entry is in place. *)
Theorem FreeDiskCacheFiles_evicts_lru_until_safe (size : Z) (u : string)
    (w : World) (c : Cache.t) (ok : bool) (w' : World) (c' : Cache.t) :
  NoDup (ids (m_cache c)) → sum_cached (m_cache c) <= m_size c < 2 ^ 64 →
  Exact.FreeDiskCacheFiles size u w c = Some (ok, w', c') →
  ok = IsSafeDiskSpace w' size ∧
  ((w' = w ∧ c' = c ∧
    (IsSafeDiskSpace w size = true ∨ Forall (kept u) (m_cache c))) ∨
   (∃ front x back,
      m_cache c = front ++ x :: back ∧ Forall (kept u) back ∧
      removable u x ∧
      IsSafeDiskSpace w size = false ∧ ok = true ∧
      m_cache c' = front ++ back ∧
      m_size c' = m_size c - cached x ∧
      m_map c' = delete (e_key x) (m_map c) ∧
      m_capacity c' = m_capacity c)).
Proof.
  intros Hnd Hsum Hf.
  rewrite Exact_FreeDiskCacheFiles_unfold in Hf.
  destruct (IsSafeDiskSpace w size) eqn:Hsafe.
  { injection Hf as <- <- <-. split; [done|]. left. split_and!; [done|done|].
    by left. }
  destruct (Exact.evict_loop _ _ _ _ _) as [r|] eqn:Hl; [|done].
  injection Hf as <- <- <-. split; [done|].
  destruct (Exact_loop_shape _ _ _ _ _ Hnd Hl)
    as [[-> Hor]|(front & x & back & Hc & Hback & Hx & _ & Hr & Hen & Hc'
                  & Hm' & Hcap')].
  - left. split_and!; [done|done|].
    destruct Hor as [Hs|?]; [simpl in Hs; congruence|by right].
  - right. exists front, x, back.
    assert (cached x <= sum_cached (m_cache c)) as Hle.
    { rewrite Hc, sum_cached_app, sum_cached_cons.
      pose proof (sum_cached_nonneg front).
      pose proof (sum_cached_nonneg back). lia. }
    pose proof (cached_nonneg x) as Hx0.
    assert (m_size r.2 = m_size c - cached x) as Hsz.
    { destruct (erase_entry_shape x w c)
        as [(_ & _ & _ & Hs)|(_ & _ & _ & Hs & Hnull)]; rewrite <- Hr in Hs.
      - rewrite Hs. apply wrap_small. lia.
      - rewrite Hs. unfold cached. rewrite Hnull. simpl. lia. }
    by split_and!.
Qed.

(** A scratch disk one byte above the reserve and a request of five bytes:
    the file that holds nine bytes on the disk sits between two files held
    in memory, the least recently used of which is the unfreeable one; it is
    the one erased, and the disk is safe. *)
Lemma FreeDiskCacheFiles_evicts_lru_until_safe_witness :
  ∃ w' c',
    Exact.FreeDiskCacheFiles 5 "F1" w_tight disk_between
      = Some (true, w', c') ∧
    true = IsSafeDiskSpace w' 5 ∧
    ((w' = w_tight ∧ c' = disk_between ∧
      (IsSafeDiskSpace w_tight 5 = true ∨
       Forall (kept "F1") (m_cache disk_between))) ∨
     (∃ front x back,
        m_cache disk_between = front ++ x :: back ∧
        Forall (kept "F1") back ∧ removable "F1" x ∧
        IsSafeDiskSpace w_tight 5 = false ∧ true = true ∧
        m_cache c' = front ++ back ∧
        m_size c' = m_size disk_between - cached x ∧
        m_map c' = delete (e_key x) (m_map disk_between) ∧
        m_capacity c' = m_capacity disk_between)).
Proof.
  eexists _, _.
  assert (Exact.FreeDiskCacheFiles 5 "F1" w_tight disk_between =
          Some (true, (FreeDiskCacheFiles 5 "F1" w_tight disk_between).1.2,
                (FreeDiskCacheFiles 5 "F1" w_tight disk_between).2)) as Hf.
  { vm_compute. reflexivity. }
  split; [exact Hf|].
  apply (FreeDiskCacheFiles_evicts_lru_until_safe 5 "F1" w_tight disk_between
           true _ _); [| |exact Hf].
  - apply (bool_decide_unpack _). vm_compute. exact I.
  - split; [apply Z.leb_le|apply Z.ltb_lt]; vm_compute; reflexivity.
Defined.

(** ** [Rename] *)

(** X15: [Rename] when there is nothing to move.  With equal identifiers
    nothing changes.  With distinct identifiers and a source that is not
    cached, the call is an [Erase] of the target: a file cached under the new
    name is dropped although no file takes its place, and nothing else
    changes. *)
Theorem Rename_without_source a b w c :
  Rename a a w c = (w, c) ∧
  (a ≠ b → HasFile c a = false →
   Rename a b w c = ((Erase b w c).1.2, (Erase b w c).2) ∧
   HasFile (Rename a b w c).2 b = false ∧
   HasFile (Rename a b w c).2 a = false).
Proof.
  split.
  - unfold Rename. by rewrite decide_True.
  - intros Hne Ha. rewrite HasFile_false in Ha.
    assert (Rename a b w c = ((Erase b w c).1.2, (Erase b w c).2)) as Heq.
    { unfold Rename, Erase. rewrite decide_False by done.
      destruct (m_map c !! b) as [pb|] eqn:Hb; simpl.
      - rewrite lookup_delete_ne by done. by rewrite Ha.
      - by rewrite Ha. }
    rewrite Heq. simpl. unfold Erase.
    destruct (m_map c !! b) as [pb|] eqn:Hb; simpl.
    + split_and!; [done| |]; apply HasFile_false; simpl.
      * apply lookup_delete_eq.
      * by rewrite lookup_delete_ne.
    + split_and!; [done| |]; by apply HasFile_false.
Qed.

Lemma Rename_fresh_target a b w c pa ea :
  a ≠ b → m_map c !! a = Some pa → node_at pa (m_cache c) = Some ea →
  m_map c !! b = None →
  Rename a b w c =
  (w, {| m_size := m_size c; m_capacity := m_capacity c;
         m_cache := {| e_id := e_id ea; e_key := b;
                       e_file := File.Rename b <$> e_file ea |}
                    :: unlink pa (m_cache c);
         m_map := delete a (<[b := pa]> (m_map c)); m_next := m_next c |}).
Proof.
  intros Hne Ha Hnode Hb. unfold Rename. rewrite decide_False by done.
  rewrite Hb, Ha. simpl. rewrite Hb.
  by rewrite (relink_shape pa b (File.Rename b) (m_cache c) ea Hnode).
Qed.

Lemma unlink_twice pos l : unlink pos (unlink pos l) = unlink pos l.
Proof. apply unlink_absent, pos_notin_unlink. Qed.

(** X16: renaming there and back.  On a cache without dangling iterators
    that holds [a] and not [b], [Rename a b] followed by [Rename b a] gives
    back the index and [m_size] as they were and every identifier its pages,
    leaves the scratch disk alone, and makes [a] the most recently used
    file. *)
Theorem Rename_there_and_back a b w c :
  a ≠ b → iterators_valid c → HasFile c a = true → HasFile c b = false →
  (Rename b a (Rename a b w c).1 (Rename a b w c).2).1 = w ∧
  m_map (Rename b a (Rename a b w c).1 (Rename a b w c).2).2 = m_map c ∧
  m_size (Rename b a (Rename a b w c).1 (Rename a b w c).2).2 = m_size c ∧
  (∀ k, content (Rename b a (Rename a b w c).1 (Rename a b w c).2).2 k
        = content c k) ∧
  most_recently_used a (Rename b a (Rename a b w c).1 (Rename a b w c).2).2.
Proof.
  intros Hne Hv Ha Hb.
  rewrite HasFile_true in Ha. destruct Ha as [pa Ha].
  rewrite HasFile_false in Hb.
  destruct (iterators_valid_node _ _ _ Hv Ha) as (ea & Hnode & Hea & Hid & Hk).
  rewrite (Rename_fresh_target a b w c pa ea Hne Ha Hnode Hb). simpl.
  set (e1 := {| e_id := e_id ea; e_key := b;
                e_file := File.Rename b <$> e_file ea |}).
  rewrite (Rename_fresh_target b a w _ pa e1); simpl.
  - assert (delete b (<[a:=pa]> (delete a (<[b:=pa]> (m_map c)))) = m_map c)
      as Hmap.
    { apply map_eq. intros k.
      destruct (decide (k = b)) as [->|Hkb]; [by rewrite lookup_delete_eq|].
      rewrite lookup_delete_ne by done.
      destruct (decide (k = a)) as [->|Hka]; [by rewrite lookup_insert_eq|].
      rewrite lookup_insert_ne by done. rewrite lookup_delete_ne by done.
      by rewrite lookup_insert_ne. }
    rewrite Hmap. split_and!; try done.
    + intros k. unfold content. simpl.
      destruct (m_map c !! k) as [p|] eqn:Hp; [|done]. simpl.
      unfold file_at, node_at. simpl. fold (node_at p (unlink pa (e1 :: unlink pa (m_cache c)))).
      destruct (Nat.eqb_spec (e_id ea) p) as [Heq|Hneq].
      * simpl. fold (node_at p (m_cache c)). rewrite <- Heq, Hid, Hnode. simpl.
        by destruct (e_file ea).
      * rewrite node_at_unlink_ne by congruence.
        unfold node_at at 1. simpl.
        destruct (Nat.eqb_spec (e_id ea) p) as [Heq|_]; [done|].
        fold (node_at p (unlink pa (m_cache c))).
        rewrite node_at_unlink_ne by congruence. done.
    + unfold most_recently_used. simpl. by rewrite Hid.
  - done.
  - rewrite lookup_delete_ne by done. apply lookup_insert_eq.
  - unfold node_at. simpl. rewrite Hid, Nat.eqb_refl. done.
  - apply lookup_delete_eq.
Qed.

Lemma Rename_there_and_back_witness :
  (Rename "G" "F1" (Rename "F1" "G" w_ok two_files).1
     (Rename "F1" "G" w_ok two_files).2).1 = w_ok ∧
  m_map (Rename "G" "F1" (Rename "F1" "G" w_ok two_files).1
           (Rename "F1" "G" w_ok two_files).2).2 = m_map two_files ∧
  m_size (Rename "G" "F1" (Rename "F1" "G" w_ok two_files).1
            (Rename "F1" "G" w_ok two_files).2).2 = m_size two_files ∧
  (∀ k, content (Rename "G" "F1" (Rename "F1" "G" w_ok two_files).1
                   (Rename "F1" "G" w_ok two_files).2).2 k
        = content two_files k) ∧
  most_recently_used "F1"
    (Rename "G" "F1" (Rename "F1" "G" w_ok two_files).1
       (Rename "F1" "G" w_ok two_files).2).2.
Proof.
  apply Rename_there_and_back.
  - discriminate.
  - apply (bool_decide_unpack _). vm_compute. exact I.
  - reflexivity.
  - reflexivity.
Defined.

(** ** [GetNumFile] *)

Lemma size_index (l : list Entry) : ∀ (m : gmap string nat),
  NoDup (keys l) →
  (∀ e, e ∈ l → m !! e_key e = Some (e_id e)) →
  (∀ k pos, m !! k = Some pos → k ∈ keys l) →
  size m = length l.
Proof.
  induction l as [|e l IH]; intros m Hnd Hin Hout.
  - apply map_size_empty_iff, map_empty. intros k.
    destruct (m !! k) as [pos|] eqn:Hk; [|done].
    apply Hout in Hk. by apply elem_of_nil in Hk.
  - apply NoDup_cons in Hnd as [Hne Hnd].
    assert (m !! e_key e = Some (e_id e)) as He by apply Hin, list_elem_of_here.
    assert (size (delete (e_key e) m) = length l) as Hsz.
    { apply IH; [done| |].
      - intros x Hx. rewrite lookup_delete_ne; [apply Hin; by right|].
        intros Heq. apply Hne. rewrite Heq. unfold keys.
        apply list_elem_of_fmap. eauto.
      - intros k pos Hk.
        destruct (decide (k = e_key e)) as [->|Hkne];
          [by rewrite lookup_delete_eq in Hk|].
        rewrite lookup_delete_ne in Hk by done.
        apply Hout in Hk. unfold keys in Hk. simpl in Hk.
        apply elem_of_cons in Hk as [?|?]; done. }
    rewrite map_size_delete, He in Hsz. simpl.
    destruct (size m) as [|n] eqn:Hn; [|simpl in Hsz; lia].
    apply map_size_empty_iff in Hn. rewrite Hn in He. done.
Qed.

(** X17: when index and order agree, [GetNumFile] (the size of the index) is
    the number of nodes in the recency list, and the identifiers indexed are
    exactly the keys of the list, none of them twice. *)
Theorem GetNumFile_counts_entries c :
  index_agrees c →
  GetNumFile c = length (m_cache c) ∧ NoDup (keys (m_cache c)) ∧
  ∀ k, HasFile c k = true ↔ k ∈ keys (m_cache c).
Proof.
  intros Ha. pose proof Ha as [Hv Hall]. rewrite Forall_forall in Hall.
  assert (NoDup (keys (m_cache c))) as Hnd.
  { unfold keys. apply NoDup_fmap_2_strong.
    - intros x y Hx Hy Hk. by apply (index_agrees_key_unique c).
    - apply (NoDup_fmap_1 e_id). exact (proj1 Hv). }
  assert (∀ k pos, m_map c !! k = Some pos → k ∈ keys (m_cache c)) as Hout.
  { intros k pos Hk.
    destruct (iterators_valid_lookup _ _ _ Hv Hk) as (e & He & _ & Hkey).
    unfold keys. apply list_elem_of_fmap. eauto. }
  split_and!.
  - unfold GetNumFile. by apply size_index.
  - done.
  - intros k. rewrite HasFile_true. split.
    + intros [pos Hk]. by apply (Hout k pos).
    + unfold keys. intros Hk. apply list_elem_of_fmap in Hk as (e & -> & He).
      rewrite (Hall e He). eauto.
Qed.

Lemma GetNumFile_counts_entries_witness :
  GetNumFile two_files = length (m_cache two_files) ∧
  NoDup (keys (m_cache two_files)) ∧
  ∀ k, HasFile two_files k = true ↔ k ∈ keys (m_cache two_files).
Proof.
  apply GetNumFile_counts_entries.
  apply (bool_decide_unpack _). vm_compute. exact I.
Defined.

(** ** [IsLastFileOpen] *)

Lemma sublist_keeps_last (l' l : list Entry) e :
  l' `sublist_of` l ++ [e] → e ∈ l' → e ∉ l → last l' = Some e.
Proof.
  intros Hsub Hin Hnot.
  apply sublist_app_r in Hsub as (k1 & k2 & -> & H1 & H2).
  apply sublist_cons_r in H2 as [H2|(k & -> & H2)].
  - apply sublist_nil_r in H2 as ->. rewrite app_nil_r in Hin.
    exfalso. apply Hnot. by apply (elem_of_sublist _ _ _ Hin H1).
  - apply sublist_nil_r in H2 as ->. apply last_snoc.
Qed.

(** X18: when [IsLastFileOpen] answers true, the least recently used entry
    is an open file that the eviction loops step over: after [Free] or
    [FreeDiskCacheFiles] it is still the last entry of the order, and
    [IsLastFileOpen] still answers true. *)
Theorem IsLastFileOpen_entry_stays_last size u w c :
  NoDup (ids (m_cache c)) → IsLastFileOpen c = true →
  (last (m_cache (Free size u w c).2) = last (m_cache c) ∧
   IsLastFileOpen (Free size u w c).2 = true) ∧
  (last (m_cache (FreeDiskCacheFiles size u w c).2) = last (m_cache c) ∧
   IsLastFileOpen (FreeDiskCacheFiles size u w c).2 = true).
Proof.
  intros Hnd Hopen.
  assert (∀ c', last (m_cache c') = last (m_cache c) →
                last (m_cache c') = last (m_cache c) ∧
                IsLastFileOpen c' = true) as Hgoal.
  { intros c' Hl. split; [done|]. unfold IsLastFileOpen in *. by rewrite Hl. }
  unfold IsLastFileOpen in Hopen.
  destruct (last (m_cache c)) as [e|] eqn:Hlast; [|done].
  destruct (e_file e) as [f|] eqn:Hf; [|done]. simpl in Hopen.
  apply last_Some in Hlast as [l Hl].
  assert (e ∉ l) as Hnot.
  { rewrite Hl in Hnd. unfold ids in Hnd. rewrite fmap_app in Hnd.
    apply NoDup_app in Hnd as (_ & Hdis & _).
    intros He. apply (Hdis (e_id e)).
    - apply list_elem_of_fmap. eauto.
    - apply list_elem_of_here. }
  assert (∀ enough,
    last (m_cache (evict_loop enough u (rev (m_cache c)) w c).2) = Some e)
    as Hloop.
  { intros enough. apply (sublist_keeps_last _ l); [| |done].
    - rewrite <- Hl. apply evict_loop_shrinks.
    - apply (evict_loop_keeps enough u (m_cache c)); try done.
      + intros x Hx. by rewrite elem_of_rev in Hx.
      + rewrite Hl. apply elem_of_app. right. apply list_elem_of_here.
      + by apply (open_is_kept u e f). }
  assert (last (m_cache c) = Some e) as Hc by (rewrite Hl; apply last_snoc).
  split; apply Hgoal.
  - rewrite Free_unfold.
    destruct (GetCapacity c <? size); [done|].
    destruct (HasFreeSpace c size); [done|]. simpl. by rewrite Hloop.
  - rewrite FreeDiskCacheFiles_unfold.
    destruct (IsSafeDiskSpace w size); [done|]. simpl. by rewrite Hloop.
Qed.

Lemma IsLastFileOpen_entry_stays_last_witness :
  (IsLastFileOpen open_and_closed = true ∧
   Exact.Free 4 "" w_ok open_and_closed
     = Some (Free 4 "" w_ok open_and_closed) ∧
   length (m_cache (Free 4 "" w_ok open_and_closed).2) = 1%nat ∧
   last (m_cache (Free 4 "" w_ok open_and_closed).2)
     = last (m_cache open_and_closed) ∧
   IsLastFileOpen (Free 4 "" w_ok open_and_closed).2 = true) ∧
  (IsLastFileOpen disk_between_open = true ∧
   Exact.FreeDiskCacheFiles 5 "" w_tight disk_between_open
     = Some (FreeDiskCacheFiles 5 "" w_tight disk_between_open) ∧
   length (m_cache (FreeDiskCacheFiles 5 "" w_tight disk_between_open).2)
     = 2%nat ∧
   last (m_cache (FreeDiskCacheFiles 5 "" w_tight disk_between_open).2)
     = last (m_cache disk_between_open) ∧
   IsLastFileOpen (FreeDiskCacheFiles 5 "" w_tight disk_between_open).2
     = true).
Proof.
  assert (NoDup (ids (m_cache open_and_closed))) as Hnd.
  { apply (bool_decide_unpack _). vm_compute. exact I. }
  assert (NoDup (ids (m_cache disk_between_open))) as Hnd'.
  { apply (bool_decide_unpack _). vm_compute. exact I. }
  split.
  - split; [reflexivity|]. split; [vm_compute; reflexivity|].
    split; [reflexivity|].
    exact (proj1 (IsLastFileOpen_entry_stays_last 4 "" w_ok open_and_closed
                    Hnd eq_refl)).
  - split; [reflexivity|]. split; [vm_compute; reflexivity|].
    split; [reflexivity|].
    exact (proj2 (IsLastFileOpen_entry_stays_last 5 "" w_tight
                    disk_between_open Hnd' eq_refl)).
Defined.

(** ** [MakeFile] and [Erase] *)

(** X19: making a file and erasing it again.  For an identifier that is not
    cached, after [MakeFile] the file is found ([FindFile] returns the new
    empty [File], [GetFileSize] is 0, [GetNumFile] has grown by one), and an
    [Erase] of it gives back the order, the index and [m_size] as they were
    and leaves the scratch disk as it was. *)
Theorem MakeFile_then_Erase fileId w c :
  fresh_ok c → in_range (m_size c) → HasFile c fileId = false →
  (FindFile fileId (MakeFile fileId c).2).1 = Some (File.make fileId) ∧
  GetFileSize (MakeFile fileId c).2 fileId = 0 ∧
  GetNumFile (MakeFile fileId c).2 = S (GetNumFile c) ∧
  (Erase fileId w (MakeFile fileId c).2).1.2 = w ∧
  m_cache (Erase fileId w (MakeFile fileId c).2).2 = m_cache c ∧
  m_map (Erase fileId w (MakeFile fileId c).2).2 = m_map c ∧
  m_size (Erase fileId w (MakeFile fileId c).2).2 = m_size c.
Proof.
  intros Hfresh Hrange Hh. rewrite HasFile_false in Hh.
  unfold MakeFile. rewrite (UnguardedNewEmptyFile_absent _ _ Hh).
  cbn [snd].
  set (e := {| e_id := m_next c; e_key := fileId;
               e_file := Some (File.make fileId) |}).
  set (c1 := {| m_size := m_size c; m_capacity := m_capacity c;
                m_cache := e :: m_cache c;
                m_map := <[fileId := m_next c]> (m_map c);
                m_next := S (m_next c) |}).
  assert (m_map c1 !! fileId = Some (m_next c)) as Hm1
    by apply lookup_insert_eq.
  assert (node_at (m_next c) (m_cache c1) = Some e) as Hn1.
  { unfold node_at. simpl. by rewrite Nat.eqb_refl. }
  assert (file_at (m_next c) c1 = Some (File.make fileId)) as Hf1.
  { unfold file_at. by rewrite Hn1. }
  split_and!.
  - unfold FindFile. rewrite Hm1. simpl.
    change (e :: m_cache c) with (m_cache c1).
    unfold file_at. cbn [set_cache m_cache]. rewrite node_at_splice.
    by rewrite Hn1.
  - unfold GetFileSize. by rewrite Hm1, Hf1.
  - unfold GetNumFile. simpl. by apply map_size_insert_None.
  - unfold Erase. rewrite Hm1. simpl. rewrite Hf1. simpl.
    unfold release_disk. destruct w. simpl. f_equal.
    change (File.GetDiskSize (File.make fileId)) with 0. lia.
  - unfold Erase. rewrite Hm1. cbn [UnguardedErase snd m_cache].
    etrans; [apply (unlink_cons_eq e (m_cache c))|].
    apply unlink_absent, fresh_not_in, Hfresh.
  - unfold Erase. rewrite Hm1. simpl. by apply delete_insert_id.
  - unfold Erase. rewrite Hm1. simpl. rewrite Hf1. simpl.
    rewrite Z.sub_0_r. by apply wrap_small.
Qed.

Lemma MakeFile_then_Erase_witness :
  (FindFile "b" (MakeFile "b" one_file).2).1 = Some (File.make "b") ∧
  GetFileSize (MakeFile "b" one_file).2 "b" = 0 ∧
  GetNumFile (MakeFile "b" one_file).2 = S (GetNumFile one_file) ∧
  (Erase "b" w_ok (MakeFile "b" one_file).2).1.2 = w_ok ∧
  m_cache (Erase "b" w_ok (MakeFile "b" one_file).2).2 = m_cache one_file ∧
  m_map (Erase "b" w_ok (MakeFile "b" one_file).2).2 = m_map one_file ∧
  m_size (Erase "b" w_ok (MakeFile "b" one_file).2).2 = m_size one_file.
Proof.
  apply MakeFile_then_Erase.
  - apply (bool_decide_unpack _). vm_compute. exact I.
  - unfold in_range. vm_compute. split; [intros H; discriminate H|reflexivity].
  - reflexivity.
Defined.

(** ** The capacity *)

Lemma UnguardedNewEmptyFile_capacity fileId c :
  m_capacity (UnguardedNewEmptyFile fileId c).2 = m_capacity c.
Proof.
  destruct (m_map c !! fileId) as [pos|] eqn:Hm.
  - by rewrite (UnguardedNewEmptyFile_present _ _ _ Hm).
  - by rewrite (UnguardedNewEmptyFile_absent _ _ Hm).
Qed.

Lemma touch_capacity fileId c : m_capacity (touch fileId c) = m_capacity c.
Proof.
  unfold touch. destruct (m_map c !! fileId); [done|].
  apply UnguardedNewEmptyFile_capacity.
Qed.

Lemma Free_capacity size u w c :
  m_capacity (Free size u w c).2 = m_capacity c.
Proof.
  rewrite Free_unfold. destruct (GetCapacity c <? size); [done|].
  destruct (HasFreeSpace c size); [done|]. apply evict_loop_capacity.
Qed.

Lemma FreeDiskCacheFiles_capacity size u w c :
  m_capacity (FreeDiskCacheFiles size u w c).2 = m_capacity c.
Proof.
  rewrite FreeDiskCacheFiles_unfold. destruct (IsSafeDiskSpace w size); [done|].
  apply evict_loop_capacity.
Qed.

Lemma write_valid_capacity fileId offset len src dirTree o w c :
  m_capacity (write_valid fileId offset len src dirTree o w c).1.2
  = m_capacity c.
Proof.
  unfold write_valid.
  assert (∀ c0,
    c0 = c ∨ c0 = (Free len fileId w c).2 ∨
    c0 = (FreeDiskCacheFiles len fileId (Free len fileId w c).1.2
            (Free len fileId w c).2).2 →
    m_capacity c0 = m_capacity c) as Hst.
  { intros c0 [->|[->| ->]]; [done|apply Free_capacity|].
    rewrite FreeDiskCacheFiles_capacity. apply Free_capacity. }
  apply (PrepareWrite_elim fileId len w c).
  - intros avail w0 c0 Hc0 _.
    destruct (place_counters fileId avail c0) as [_ Hcap].
    rewrite (Hst c0 Hc0) in Hcap.
    destruct (place fileId avail c0) as [pos c1]. simpl in *.
    destruct pos as [pos|]; [|done].
    destruct (file_at pos c1) as [file|]; [|done].
    destruct (File.Write offset len src o w0 file) as [[[[okf added] ad] w2] f'].
    by destruct okf.
  - intros w0 c0 Hc0. simpl. apply Hst. tauto.
Qed.

Lemma Write_capacity fileId offset len buffer dirTree o w c :
  m_capacity (Write fileId offset len buffer dirTree o w c).1.2 = m_capacity c.
Proof.
  unfold Write. destruct (len =? 0); [apply touch_capacity|].
  destruct buffer as [src|]; [|done].
  destruct (_ && _); [|done]. apply write_valid_capacity.
Qed.

Lemma WriteStream_capacity fileId offset len stream dirTree o w c :
  m_capacity (WriteStream fileId offset len stream dirTree o w c).1.2
  = m_capacity c.
Proof.
  unfold WriteStream. destruct (len =? 0); [apply touch_capacity|].
  destruct stream as [src|]; [|done].
  destruct (_ && _); [|done]. destruct (len <=? _); [|done].
  apply write_valid_capacity.
Qed.

Lemma Resize_capacity fileId newFileSize dirTree w c :
  m_capacity (Resize fileId newFileSize dirTree w c).1.2 = m_capacity c.
Proof.
  unfold Resize.
  assert (∃ opos c0,
    match m_map c !! fileId with
    | Some pos => (Some pos, c)
    | None => UnguardedNewEmptyFile fileId c
    end = (opos, c0) ∧ m_capacity c0 = m_capacity c) as (opos & c0 & -> & Hc0).
  { destruct (m_map c !! fileId) as [pos|]; [by eexists _, _|].
    pose proof (UnguardedNewEmptyFile_capacity fileId c) as Hcap.
    destruct (UnguardedNewEmptyFile fileId c) as [opos c0]. by eexists _, _. }
  destruct opos as [pos|]; [|done].
  destruct (file_at pos c0) as [file|]; [|done].
  destruct (newFileSize =? File.GetSize file); [done|].
  destruct (File.GetSize file <? newFileSize).
  - pose proof (Write_capacity fileId (to_off_t (File.GetSize file))
                  (wrap (newFileSize - File.GetSize file))
                  (Some (repeat Byte.x00
                     (Z.to_nat (wrap (newFileSize - File.GetSize file)))))
                  dirTree (File.IsOpen file) w c0) as Hw.
    destruct (Write _ _ _ _ _ _ w c0) as [[[ok w1] c1] tree1]. simpl in Hw.
    destruct (file_at pos c1) as [file'|]; [|simpl; congruence].
    destruct (_ =? newFileSize); simpl; congruence.
  - destruct (file_at pos _) as [file'|]; [|done].
    by destruct (_ =? newFileSize).
Qed.

Lemma run_capacity op s : m_capacity (run op s).2 = m_capacity s.2.
Proof.
  destruct s as [w c]. destruct op; simpl.
  - unfold MakeFile.
    pose proof (UnguardedNewEmptyFile_capacity fileId c) as Hcap.
    destruct (UnguardedNewEmptyFile fileId c) as [[p|] c']; done.
  - unfold FindFile. by destruct (m_map c !! filePath).
  - apply Write_capacity.
  - apply WriteStream_capacity.
  - apply Resize_capacity.
  - apply Free_capacity.
  - apply FreeDiskCacheFiles_capacity.
  - unfold Erase. by destruct (m_map c !! fileId).
  - unfold Rename. destruct (decide _); [done|].
    destruct (m_map c !! newFileId) as [pb|]; simpl.
    + by destruct (delete newFileId (m_map c) !! oldFileId).
    + by destruct (m_map c !! oldFileId).
  - unfold SetFileOpen. simpl. by destruct (m_map c !! fileId).
Qed.

(** X20: no operation changes the capacity: after any sequence of operations
    on a cache created with capacity [capacity], [GetCapacity] still answers
    [capacity], and [HasFreeSpace] is the comparison of the wrapped sum of
    [m_size] and the requested size with that constant. *)
Theorem capacity_is_constant ops w capacity size :
  GetCapacity (run_all ops (w, init capacity)).2 = capacity ∧
  HasFreeSpace (run_all ops (w, init capacity)).2 size =
    (wrap (m_size (run_all ops (w, init capacity)).2 + size) <=? capacity).
Proof.
  assert (∀ s, m_capacity (run_all ops s).2 = m_capacity s.2) as Hall.
  { induction ops as [|op ops IH]; intros s; [done|].
    simpl. rewrite IH. apply run_capacity. }
  unfold HasFreeSpace, GetSize, GetCapacity. by rewrite Hall.
Qed.

(** ** [StringHash] *)

Lemma to_int_range z : - 2 ^ 31 <= HashUtils.to_int z < 2 ^ 31.
Proof.
  unfold HashUtils.to_int.
  pose proof (Z.mod_pos_bound (z + 2 ^ 31) (2 ^ 32) ltac:(lia)). lia.
Qed.

Lemma to_int_congruent z : ∃ k, HashUtils.to_int z = z + k * 2 ^ 32.
Proof.
  exists (- ((z + 2 ^ 31) / 2 ^ 32)). unfold HashUtils.to_int.
  pose proof (Z.div_mod (z + 2 ^ 31) (2 ^ 32) ltac:(lia)). lia.
Qed.

Lemma to_int_unique x z k :
  - 2 ^ 31 <= x < 2 ^ 31 → x = z + k * 2 ^ 32 → HashUtils.to_int z = x.
Proof.
  intros Hx ->. unfold HashUtils.to_int.
  replace (z + 2 ^ 31) with ((z + k * 2 ^ 32 + 2 ^ 31) + (- k) * 2 ^ 32) by lia.
  rewrite Z.mod_add by lia. rewrite Z.mod_small by lia. lia.
Qed.

Lemma hash_loop_app s1 : ∀ h s2,
  HashUtils.hash_loop h (s1 +:+ s2) =
  HashUtils.hash_loop (HashUtils.hash_loop h s1) s2.
Proof. induction s1 as [|a s1 IH]; intros h s2; [done|]. simpl. apply IH. Qed.

Lemma hash_loop_range s : ∀ h,
  - 2 ^ 31 <= h < 2 ^ 31 → - 2 ^ 31 <= HashUtils.hash_loop h s < 2 ^ 31.
Proof.
  induction s as [|a s IH]; intros h Hh; [done|].
  simpl. apply IH, to_int_range.
Qed.

Lemma hash_loop_shift s : ∀ h, ∃ k,
  HashUtils.hash_loop h s =
  h * 31 ^ Z.of_nat (String.length s) + HashUtils.hash_loop 0 s + k * 2 ^ 32.
Proof.
  induction s as [|a s IH]; intros h.
  - exists 0. simpl. lia.
  - cbn [HashUtils.hash_loop String.length].
    destruct (IH (HashUtils.to_int (HashUtils.char_value a + 31 * h)))
      as [k1 ->].
    destruct (IH (HashUtils.to_int (HashUtils.char_value a + 31 * 0)))
      as [k2 ->].
    destruct (to_int_congruent (HashUtils.char_value a + 31 * h)) as [k3 ->].
    destruct (to_int_congruent (HashUtils.char_value a + 31 * 0)) as [k4 ->].
    rewrite Nat2Z.inj_succ, Z.pow_succ_r by lia.
    set (P := 31 ^ Z.of_nat (String.length s)).
    exists (k3 * P + k1 - k4 * P - k2). ring.
Qed.

Lemma StringHash_loop s : HashUtils.StringHash s = HashUtils.hash_loop 0 s.
Proof.
  unfold HashUtils.StringHash. case_bool_decide as He; [by rewrite He|done].
Qed.

(** X21: [StringHash] is the polynomial hash in base 31 kept in an [int]
    (32 bits, two's complement): the hash of a concatenation is the hash of
    the first part times 31 to the length of the second, plus the hash of
    the second, reduced to an [int]; the hash of the empty string is 0 and
    every hash is within the range of an [int]. *)
Theorem StringHash_concat s1 s2 :
  HashUtils.StringHash (s1 +:+ s2) =
    HashUtils.to_int
      (HashUtils.StringHash s1 * 31 ^ Z.of_nat (String.length s2)
       + HashUtils.StringHash s2) ∧
  HashUtils.StringHash EmptyString = 0 ∧
  - 2 ^ 31 <= HashUtils.StringHash s1 < 2 ^ 31.
Proof.
  rewrite !StringHash_loop. split_and!.
  - rewrite hash_loop_app.
    destruct (hash_loop_shift s2 (HashUtils.hash_loop 0 s1)) as [k Hk].
    symmetry. apply (to_int_unique _ _ k); [|exact Hk].
    apply hash_loop_range, hash_loop_range. lia.
  - done.
  - apply hash_loop_range. lia.
  - apply hash_loop_range. lia.
Qed.
